(** * pdftok: the PDF token scanner of lex.go

    A shallow embedding of the scanner of [lex.go] and the properties of
    its token stream.

    - A Go [string] is a sequence of bytes: [list byte].
    - A [rune], a [Pos] and an [int] are integers: [Z], with the
      two's-complement wrap-around of a 64-bit [int] written out in
      [int_wrap].
    - The scanner is the record [lexer]; the channel [items] is the list
      of the items sent so far, in the order they were sent.
    - A state function is a value of [stateFn]; [nil] is [None].
    - Loops take fuel: [None] means the loop had not finished when the fuel
      ran out. *)

From Stdlib Require Import ZArith List Bool Lia String.
From Stdlib Require Import Strings.Byte.
Import ListNotations.
Local Open Scope Z_scope.

(** ** Strings, slices and machine integers *)

Definition bytes (s : string) : list byte := list_byte_of_string s.

(** [rune(b)] for a byte [b]. *)
Definition rune (b : byte) : Z := Z.of_N (Byte.to_N b).

(** [len(s)] *)
Definition len (s : list byte) : Z := Z.of_nat (List.length s).

(** [s[a:]] *)
Definition drop (a : Z) (s : list byte) : list byte := skipn (Z.to_nat a) s.

(** [s[a:b]].  Go panics when [0 <= a <= b <= len(s)] fails; the scanner
    keeps its offsets in that range (see [run_inv]). *)
Definition slice (s : list byte) (a b : Z) : list byte :=
  firstn (Z.to_nat (b - a)) (drop a s).

(** Go's [int] on a 64-bit target. *)
Definition int_wrap (z : Z) : Z := (z + 2 ^ 63) mod 2 ^ 64 - 2 ^ 63.
Definition max_int : Z := 2 ^ 63 - 1.
Definition addi (a b : Z) : Z := int_wrap (a + b).
Definition subi (a b : Z) : Z := int_wrap (a - b).

Fixpoint bytes_eqb (a b : list byte) : bool :=
  match a, b with
  | [], [] => true
  | x :: a', y :: b' => Byte.eqb x y && bytes_eqb a' b'
  | _, _ => false
  end.

(** ** unicode/utf8 *)

Definition RuneError : Z := 0xFFFD.
Definition RuneSelf : Z := 0x80.
Definition MaxRune : Z := 0x10FFFF.
Definition MaxLatin1 : Z := 0xFF.

Definition locb : Z := 0x80.
Definition hicb : Z := 0xBF.
Definition maskx : Z := 0x3F.
Definition mask2 : Z := 0x1F.
Definition mask3 : Z := 0x0F.
Definition mask4 : Z := 0x07.

Definition xx : Z := 0xF1.
Definition as_ : Z := 0xF0.
Definition s1 : Z := 0x02.
Definition s2 : Z := 0x13.
Definition s3 : Z := 0x03.
Definition s4 : Z := 0x23.
Definition s5 : Z := 0x34.
Definition s6 : Z := 0x04.
Definition s7 : Z := 0x44.

(** The table [first]: information about the first byte of an encoding. *)
Definition first (b : Z) : Z :=
  if b <? 0x80 then as_
  else if b <? 0xC2 then xx
  else if b <? 0xE0 then s1
  else if b =? 0xE0 then s2
  else if b <? 0xED then s3
  else if b =? 0xED then s4
  else if b <? 0xF0 then s3
  else if b =? 0xF0 then s5
  else if b <? 0xF4 then s6
  else if b =? 0xF4 then s7
  else xx.

(** The table [acceptRanges]: the range of a valid second byte. *)
Definition acceptRanges (i : Z) : Z * Z :=
  if i =? 0 then (locb, hicb)
  else if i =? 1 then (0xA0, hicb)
  else if i =? 2 then (locb, 0x9F)
  else if i =? 3 then (0x90, hicb)
  else if i =? 4 then (locb, 0x8F)
  else (0, 0).

(** [utf8.DecodeRuneInString]: the first rune of [s] and its width in
    bytes; [(RuneError, 0)] on the empty string and [(RuneError, 1)] on an
    invalid encoding. *)
Definition DecodeRuneInString (s : list byte) : Z * Z :=
  match s with
  | [] => (RuneError, 0)
  | c0 :: t0 =>
    let b0 := rune c0 in
    let x := first b0 in
    if as_ <=? x then
      let mask := - Z.land x 1 in
      (Z.lor (Z.land b0 (Z.lnot mask)) (Z.land RuneError mask), 1)
    else
      let sz := Z.land x 7 in
      let '(lo, hi) := acceptRanges (Z.shiftr x 4) in
      if len s <? sz then (RuneError, 1) else
      match t0 with
      | [] => (RuneError, 1)
      | c1 :: t1 =>
        let b1 := rune c1 in
        if (b1 <? lo) || (hi <? b1) then (RuneError, 1)
        else if sz <=? 2 then
          (Z.lor (Z.shiftl (Z.land b0 mask2) 6) (Z.land b1 maskx), 2)
        else
          match t1 with
          | [] => (RuneError, 1)
          | c2 :: t2 =>
            let b2 := rune c2 in
            if (b2 <? locb) || (hicb <? b2) then (RuneError, 1)
            else if sz <=? 3 then
              (Z.lor (Z.lor (Z.shiftl (Z.land b0 mask3) 12)
                            (Z.shiftl (Z.land b1 maskx) 6))
                     (Z.land b2 maskx), 3)
            else
              match t2 with
              | [] => (RuneError, 1)
              | c3 :: _ =>
                let b3 := rune c3 in
                if (b3 <? locb) || (hicb <? b3) then (RuneError, 1)
                else
                  (Z.lor (Z.lor (Z.lor (Z.shiftl (Z.land b0 mask4) 18)
                                       (Z.shiftl (Z.land b1 maskx) 12))
                                (Z.shiftl (Z.land b2 maskx) 6))
                         (Z.land b3 maskx), 4)
              end
          end
      end
  end.

(** [utf8.ValidRune] *)
Definition ValidRune (r : Z) : bool :=
  ((0 <=? r) && (r <? 0xD800)) || ((0xDFFF <? r) && (r <=? MaxRune)).

(** The pairs [(i, r)] of [for i, r := range s]: [skip] counts the bytes
    of the current rune still to pass over. *)
Fixpoint range_runes (skip : nat) (i : Z) (s : list byte) : list (Z * Z) :=
  match s with
  | [] => []
  | _ :: t =>
    match skip with
    | S k => range_runes k (i + 1) t
    | O =>
      let '(r, w) := DecodeRuneInString s in
      (i, r) :: range_runes (Z.to_nat w - 1) (i + 1) t
    end
  end.

(** ** strings *)

(** [strings.HasPrefix] *)
Fixpoint HasPrefix (s prefix : list byte) : bool :=
  match prefix, s with
  | [], _ => true
  | p :: prefix', c :: s' => Byte.eqb c p && HasPrefix s' prefix'
  | _ :: _, [] => false
  end.

Fixpoint Index_from (i : Z) (s substr : list byte) : Z :=
  if HasPrefix s substr then i
  else match s with
       | [] => -1
       | _ :: t => Index_from (i + 1) t substr
       end.

(** [strings.Index]: the offset of the first instance of [substr] in [s],
    or [-1]. *)
Definition Index (s substr : list byte) : Z := Index_from 0 s substr.

Fixpoint IndexByte_from (i : Z) (s : list byte) (c : Z) : Z :=
  match s with
  | [] => -1
  | b :: t => if rune b =? c then i else IndexByte_from (i + 1) t c
  end.

(** [strings.IndexByte] *)
Definition IndexByte (s : list byte) (c : Z) : Z := IndexByte_from 0 s c.

Fixpoint find_rune (rs : list (Z * Z)) (r : Z) : Z :=
  match rs with
  | [] => -1
  | (i, c) :: t => if c =? r then i else find_rune t r
  end.

(** [strings.IndexRune]: the offset of the first instance of the code point
    [r] in [s], or [-1].  A rune below [RuneSelf] is searched as a byte, an
    invalid rune is never found, and any other rune is searched among the
    runes that ranging over [s] decodes (so [RuneError] finds the first
    invalid sequence). *)
Definition IndexRune (s : list byte) (r : Z) : Z :=
  if (0 <=? r) && (r <? RuneSelf) then IndexByte s r
  else if ValidRune r then find_rune (range_runes 0 0 s) r
  else -1.

(** ** unicode and fmt: what the scanner takes from Go's library *)

(** One range of a [unicode.RangeTable]; the fields are unsigned. *)
Record Range : Type := mkRange { Lo : N; Hi : N; Stride : N }.

Definition RangeTable : Type := list Range.

Definition in_Range (r : Z) (g : Range) : bool :=
  (Z.of_N (Lo g) <=? r) && (r <=? Z.of_N (Hi g)) &&
  ((r - Z.of_N (Lo g)) mod Z.of_N (Stride g) =? 0).

(** [unicode.isExcludingLatin]: membership of [r] in the ranges of a table
    that reach beyond Latin-1.  The search compares [r] as a [uint32] with
    the 16-bit ranges and requires [r >= Lo] of the 32-bit ones, so a
    negative rune is in no range. *)
Definition isExcludingLatin (tab : RangeTable) (r : Z) : bool :=
  if r <? 0 then false else existsb (in_Range r) tab.

(** An argument of [fmt.Sprintf]. *)
Inductive fmtArg : Type :=
| ArgRune (r : Z)
| ArgString (s : list byte).

(** The parts of Go's library that are data of the Unicode version or
    formatting code: the range tables [unicode.White_Space],
    [unicode.Letter] and [unicode.Digit] beyond Latin-1, and
    [fmt.Sprintf]. *)
Record GoLib : Type := mkGoLib {
  White_Space : RangeTable;
  Letter : RangeTable;
  Digit : RangeTable;
  Sprintf : string -> list fmtArg -> list byte
}.

(** ** Items *)

(** [itemType]: the constants of the [iota] block, in order. *)
Inductive itemType : Type :=
| itemError | itemEOF | itemNumber | itemSpace | itemLeftDict
| itemRightDict | itemLeftArray | itemRightArray | itemStreamBody
| itemString | itemHexString | itemComment | itemName | itemWord
| itemKeyword | itemObj | itemEndObj | itemStream | itemEndStream
| itemTrailer | itemXref | itemStartXref | itemTrue | itemFalse | itemNull.

Definition itemType_eqb (a b : itemType) : bool :=
  match a, b with
  | itemError, itemError | itemEOF, itemEOF | itemNumber, itemNumber
  | itemSpace, itemSpace | itemLeftDict, itemLeftDict
  | itemRightDict, itemRightDict | itemLeftArray, itemLeftArray
  | itemRightArray, itemRightArray | itemStreamBody, itemStreamBody
  | itemString, itemString | itemHexString, itemHexString
  | itemComment, itemComment | itemName, itemName | itemWord, itemWord
  | itemKeyword, itemKeyword | itemObj, itemObj | itemEndObj, itemEndObj
  | itemStream, itemStream | itemEndStream, itemEndStream
  | itemTrailer, itemTrailer | itemXref, itemXref
  | itemStartXref, itemStartXref | itemTrue, itemTrue
  | itemFalse, itemFalse | itemNull, itemNull => true
  | _, _ => false
  end.

Module Item.
(** [item]: a token sent to the client. *)
Record item : Type := mk {
  typ : itemType;   (* the type of this item *)
  pos : Z;          (* the starting position, in bytes, of this item *)
  val : list byte   (* the value of this item *)
}.
End Item.
Import Item.

Definition leftDict : list byte := Eval cbv in bytes "<<".
Definition rightDict : list byte := Eval cbv in bytes ">>".
Definition leftStream : list byte := Eval cbv in bytes "stream".
Definition rightStream : list byte := Eval cbv in bytes "endstream".

(** [keytoks]: the map from the special strings to their item types.  The
    keys are distinct, so the order of the entries does not matter. *)
Definition keytoks : list (list byte * itemType) :=
  [ (bytes "obj", itemObj);
    (bytes "endobj", itemEndObj);
    (leftStream, itemStream);
    (rightStream, itemEndStream);
    (bytes "trailer", itemTrailer);
    (bytes "xref", itemXref);
    (bytes "startxref", itemStartXref);
    (bytes "true", itemTrue);
    (bytes "false", itemFalse);
    (bytes "null", itemNull) ].

(** [tok, found := m[k]] *)
Fixpoint map_lookup (m : list (list byte * itemType)) (k : list byte)
  : option itemType :=
  match m with
  | [] => None
  | (k', t) :: m' => if bytes_eqb k' k then Some t else map_lookup m' k
  end.

Definition eof : Z := -1.

(** ** The scanner *)

(** [stateFn]: the state functions of the scanner, by name. *)
Inductive stateFn : Type :=
| LexDefault | LexStream | LexLeftDict | LexComment | LexRightDict
| LexName | LexStringObj | LexHexObj | LexSpace | LexWord | LexNumber.

(** [lexer]: the state of the scanner.  The field [name] is only copied
    into reports by the caller, [lastPos] belongs to the receiving side,
    and [state] is the loop variable of [run]; [items] is the sequence of
    items sent on the channel so far. *)
Record lexer : Type := mkLexer {
  input : list byte;   (* the string being scanned *)
  pos : Z;             (* current position in the input *)
  start : Z;           (* start position of this item *)
  width : Z;           (* width of last rune read from input *)
  items : list item;   (* items sent so far, oldest first *)
  arrayDepth : Z;      (* nesting depth of [] *)
  dictDepth : Z        (* nesting depth of <<>> *)
}.

Definition set_pos (l : lexer) (p : Z) : lexer :=
  mkLexer (input l) p (start l) (width l) (items l) (arrayDepth l) (dictDepth l).
Definition set_start (l : lexer) (s : Z) : lexer :=
  mkLexer (input l) (pos l) s (width l) (items l) (arrayDepth l) (dictDepth l).
Definition set_width (l : lexer) (w : Z) : lexer :=
  mkLexer (input l) (pos l) (start l) w (items l) (arrayDepth l) (dictDepth l).
Definition send (l : lexer) (i : item) : lexer :=
  mkLexer (input l) (pos l) (start l) (width l) (items l ++ [i])
          (arrayDepth l) (dictDepth l).
Definition set_arrayDepth (l : lexer) (d : Z) : lexer :=
  mkLexer (input l) (pos l) (start l) (width l) (items l) d (dictDepth l).
Definition set_dictDepth (l : lexer) (d : Z) : lexer :=
  mkLexer (input l) (pos l) (start l) (width l) (items l) (arrayDepth l) d.

(** [next] returns the next rune in the input. *)
Definition next (l : lexer) : Z * lexer :=
  if len (input l) <=? pos l then (eof, set_width l 0)
  else
    let '(r, w) := DecodeRuneInString (drop (pos l) (input l)) in
    (r, set_pos (set_width l w) (addi (pos l) w)).

(** [backup] steps back one rune. *)
Definition backup (l : lexer) : lexer := set_pos l (subi (pos l) (width l)).

(** [peek] returns but does not consume the next rune in the input. *)
Definition peek (l : lexer) : Z * lexer :=
  let '(r, l1) := next l in (r, backup l1).

(** [emit] passes an item back to the client. *)
Definition emit (l : lexer) (t : itemType) : lexer :=
  set_start
    (send l (Item.mk t (start l) (slice (input l) (start l) (pos l))))
    (pos l).

(** [ignore] skips over the pending input before this point. *)
Definition ignore (l : lexer) : lexer := set_start l (pos l).

(** [accept] consumes the next rune if it's from the valid set. *)
Definition accept (l : lexer) (valid : list byte) : bool * lexer :=
  let '(r, l1) := next l in
  if 0 <=? IndexRune valid r then (true, l1) else (false, backup l1).

(** The loop of [acceptRun]. *)
Fixpoint acceptRun_loop (fuel : nat) (l : lexer) (valid : list byte)
  : option lexer :=
  match fuel with
  | O => None
  | S n =>
    let '(r, l1) := next l in
    if 0 <=? IndexRune valid r then acceptRun_loop n l1 valid else Some l1
  end.

(** [acceptRun] consumes a run of runes from the valid set. *)
Definition acceptRun (fuel : nat) (l : lexer) (valid : list byte)
  : option lexer :=
  option_map backup (acceptRun_loop fuel l valid).

(** [isEndOfLine] reports whether r is an end-of-line character. *)
Definition isEndOfLine (r : Z) : bool := (r =? 0x0D) || (r =? 0x0A).

(** [isDelim] reports whether r is one of the 10 reserved PDF delimiter
    characters. *)
Definition isDelim (r : Z) : bool := 0 <=? IndexRune (bytes "[]{}()<>/%") r.

Section Scanner.

(** Go's library: the Unicode tables and [fmt.Sprintf]. *)
Variable E : GoLib.

(** [unicode.IsSpace]: in Latin-1 the eight listed characters, beyond it
    the table [White_Space]. *)
Definition IsSpace (r : Z) : bool :=
  if (0 <=? r) && (r <=? MaxLatin1) then
    (r =? 0x09) || (r =? 0x0A) || (r =? 0x0B) || (r =? 0x0C) ||
    (r =? 0x0D) || (r =? 0x20) || (r =? 0x85) || (r =? 0xA0)
  else isExcludingLatin (White_Space E) r.

(** [unicode.IsLetter]: in Latin-1 the letters of the [properties] table,
    beyond it the table [Letter]. *)
Definition IsLetter (r : Z) : bool :=
  if (0 <=? r) && (r <=? MaxLatin1) then
    ((0x41 <=? r) && (r <=? 0x5A)) || ((0x61 <=? r) && (r <=? 0x7A)) ||
    (r =? 0xAA) || (r =? 0xB5) || (r =? 0xBA) ||
    ((0xC0 <=? r) && (r <=? 0xD6)) || ((0xD8 <=? r) && (r <=? 0xF6)) ||
    ((0xF8 <=? r) && (r <=? 0xFF))
  else isExcludingLatin (Letter E) r.

(** [unicode.IsDigit] *)
Definition IsDigit (r : Z) : bool :=
  if r <=? MaxLatin1 then (0x30 <=? r) && (r <=? 0x39)
  else isExcludingLatin (Digit E) r.

(** [isAlphaNumeric] reports whether r is an alphabetic, digit, or
    underscore. *)
Definition isAlphaNumeric (r : Z) : bool :=
  (r =? 0x5F) || IsLetter r || IsDigit r.

(** [errorf] returns an error token and terminates the scan by passing
    back a nil pointer that will be the next state. *)
Definition errorf (l : lexer) (format : string) (args : list fmtArg)
  : option stateFn * lexer :=
  (None, send l (Item.mk itemError (start l) (Sprintf E format args))).

(** The [case r == eof] clause of [lexDefault], which the [case r == '>']
    clause falls through to. *)
Definition lexDefault_eof (l : lexer) : option stateFn * lexer :=
  if 0 <? arrayDepth l then errorf l "unterminated array" []
  else if 0 <? dictDepth l then errorf l "unterminated dict" []
  else (None, emit l itemEOF).

(** [lexDefault] is the main lexing state. *)
Definition lexDefault (l : lexer) : option stateFn * lexer :=
  let '(r, l) := next l in
  if IsSpace r then (Some LexSpace, l)
  else if r =? 0x2F (* / *) then (Some LexName, l)
  else if (r =? 0x2B (* + *)) || (r =? 0x2D (* - *)) || (r =? 0x2E (* . *))
          || ((0x30 <=? r) && (r <=? 0x39)) then
    (Some LexNumber, backup l)
  else if isAlphaNumeric r then (Some LexWord, l)
  else if r =? 0x28 (* ( *) then (Some LexStringObj, l)
  else if r =? 0x3C (* < *) then
    let '(r2, l) := peek l in
    if r2 =? 0x3C then
      let l := backup l in
      let l := set_dictDepth l (addi (dictDepth l) 1) in
      (Some LexLeftDict, l)
    else (Some LexHexObj, l)
  else if r =? 0x5B (* [ *) then
    let l := emit l itemLeftArray in
    let l := set_arrayDepth l (addi (arrayDepth l) 1) in
    (Some LexDefault, l)
  else if r =? 0x5D (* ] *) then
    let l := set_arrayDepth l (subi (arrayDepth l) 1) in
    if arrayDepth l <? 0 then errorf l "unexexpected array terminator" []
    else (Some LexDefault, emit l itemRightArray)
  else if r =? 0x25 (* % *) then (Some LexComment, l)
  else if r =? 0x3E (* > *) then
    let '(r2, l) := peek l in
    if r2 =? 0x3E then
      let l := set_dictDepth l (subi (dictDepth l) 1) in
      if dictDepth l <? 0 then errorf l "unexexpected dict terminator" []
      else (Some LexRightDict, backup l)
    else lexDefault_eof l
  else if r =? eof then lexDefault_eof l
  else errorf l "illegal character: %#U" [ArgRune r].

(** [lexStream] quickly skips over all the contents of PDF stream
    objects. *)
Definition lexStream (l : lexer) : option stateFn * lexer :=
  let i := Index (drop (pos l) (input l)) rightStream in
  if i <? 0 then errorf l "unclosed stream" []
  else
    let l := set_pos l (addi (pos l) i) in
    let l := emit l itemStreamBody in
    let l := set_pos l (addi (pos l) (len rightStream)) in
    let l := emit l itemEndStream in
    (Some LexDefault, l).

(** [lexLeftDict] scans the left delimiter, which is known to be present. *)
Definition lexLeftDict (l : lexer) : option stateFn * lexer :=
  let l := set_pos l (addi (pos l) (len leftDict)) in
  (Some LexDefault, emit l itemLeftDict).

(** The [for] loop of [lexComment]; [r] is the variable [r] of the
    function. *)
Fixpoint lexComment_loop (fuel : nat) (r : Z) (l : lexer)
  : option (Z * lexer) :=
  match fuel with
  | O => None
  | S n =>
    let '(p, l) := peek l in
    if negb (isEndOfLine p) then
      let '(r, l) := next l in lexComment_loop n r l
    else Some (r, l)
  end.

(** [lexComment] lexes a PDF comment. *)
Definition lexComment (fuel : nat) (l : lexer)
  : option (option stateFn * lexer) :=
  match lexComment_loop fuel 0 l with
  | None => None
  | Some (r, l) =>
    let l := if r =? 0x0D then snd (accept l [x0a (* \n *)]) else l in
    Some (Some LexDefault, emit l itemComment)
  end.

(** [lexRightDict] scans the right delimiter, which is known to be
    present. *)
Definition lexRightDict (l : lexer) : option stateFn * lexer :=
  let l := set_pos l (addi (pos l) (len rightDict)) in
  (Some LexDefault, emit l itemRightDict).

(** [lexName] scans a PDF Name object. *)
Fixpoint lexName (fuel : nat) (l : lexer) : option (option stateFn * lexer) :=
  match fuel with
  | O => None
  | S n =>
    let '(r, l) := next l in
    if isDelim r || IsSpace r || (r =? eof) then
      let l := backup l in
      Some (Some LexDefault, emit l itemName)
    else if (0x20 <? r) && (r <? 0x7F) then lexName n l
    else Some (errorf l "illegal character in name: %#U" [ArgRune r])
  end.

(** The [for] loop of [lexStringObj], with its variable [balance]. *)
Fixpoint lexStringObj_loop (fuel : nat) (balance : Z) (l : lexer)
  : option (option stateFn * lexer) :=
  match fuel with
  | O => None
  | S n =>
    let '(r, l) := next l in
    if r =? 0x5C (* \ *) then
      let '(_, l) := accept l (bytes "()") in
      lexStringObj_loop n balance l
    else if r =? 0x28 (* ( *) then lexStringObj_loop n (addi balance 1) l
    else if r =? 0x29 (* ) *) then
      let balance := subi balance 1 in
      if balance <=? 0 then Some (Some LexDefault, emit l itemString)
      else lexStringObj_loop n balance l
    else if r =? eof then Some (errorf l "unterminated string object" [])
    else lexStringObj_loop n balance l
  end.

(** [lexStringObj] scans a PDF String object. *)
Definition lexStringObj (fuel : nat) (l : lexer)
  : option (option stateFn * lexer) :=
  lexStringObj_loop fuel 1 l.

(** [lexHexObj] scans a hex string. *)
Fixpoint lexHexObj (fuel : nat) (l : lexer)
  : option (option stateFn * lexer) :=
  match fuel with
  | O => None
  | S n =>
    let digits := bytes "0123456789abcdefABCDEF" in
    let '(r, l) := next l in
    if (0 <=? IndexRune digits r) || IsSpace r then lexHexObj n l
    else if r =? 0x3E (* > *) then
      Some (Some LexDefault, emit l itemHexString)
    else if r =? eof then Some (errorf l "unterminated hexstring" [])
    else Some (errorf l "illegal character in hexstring: %#U" [ArgRune r])
  end.

(** The [for] loop of [lexSpace]. *)
Fixpoint lexSpace_loop (fuel : nat) (l : lexer) : option lexer :=
  match fuel with
  | O => None
  | S n =>
    let '(p, l) := peek l in
    if IsSpace p then let '(_, l) := next l in lexSpace_loop n l
    else Some l
  end.

(** [lexSpace] scans a run of space characters. *)
Definition lexSpace (fuel : nat) (l : lexer)
  : option (option stateFn * lexer) :=
  match lexSpace_loop fuel l with
  | None => None
  | Some l => Some (Some LexDefault, emit l itemSpace)
  end.

(** The [for] loop of [lexWord]. *)
Fixpoint lexWord_loop (fuel : nat) (l : lexer) : option lexer :=
  match fuel with
  | O => None
  | S n =>
    let '(p, l) := peek l in
    if isAlphaNumeric p then let '(_, l) := next l in lexWord_loop n l
    else Some l
  end.

(** [lexWord] scans a run of basic alnums. *)
Definition lexWord (fuel : nat) (l : lexer)
  : option (option stateFn * lexer) :=
  match lexWord_loop fuel l with
  | None => None
  | Some l =>
    match map_lookup keytoks (slice (input l) (start l) (pos l)) with
    | Some tok =>
      let l := emit l tok in
      match tok with
      | itemStream => Some (Some LexStream, l)
      | _ => Some (Some LexDefault, l)
      end
    | None => Some (Some LexDefault, emit l itemWord)
    end
  end.

(** [scanNumber] *)
Definition scanNumber (fuel : nat) (l : lexer) : option (bool * lexer) :=
  let '(_, l) := accept l (bytes "+-") in
  let digits := bytes "0123456789" in
  match acceptRun fuel l digits with
  | None => None
  | Some l =>
    let '(point, l) := accept l (bytes ".") in
    match (if point then acceptRun fuel l digits else Some l) with
    | None => None
    | Some l =>
      let '(p, l) := peek l in
      if isDelim p then Some (true, l)
      else
        let '(p, l) := peek l in
        if IsSpace p then Some (true, l)
        else
          let '(p, l) := peek l in
          if p =? eof then Some (true, l)
          else let '(_, l) := next l in Some (false, l)
    end
  end.

(** [lexNumber] scans a decimal or real number. *)
Definition lexNumber (fuel : nat) (l : lexer)
  : option (option stateFn * lexer) :=
  match scanNumber fuel l with
  | None => None
  | Some (ok, l) =>
    if negb ok then
      Some (errorf l "bad number syntax: %q"
                   [ArgString (slice (input l) (start l) (pos l))])
    else Some (Some LexDefault, emit l itemNumber)
  end.

(** [l.state(l)]: one call of the state function [f]. *)
Definition call (fuel : nat) (f : stateFn) (l : lexer)
  : option (option stateFn * lexer) :=
  match f with
  | LexDefault => Some (lexDefault l)
  | LexStream => Some (lexStream l)
  | LexLeftDict => Some (lexLeftDict l)
  | LexComment => lexComment fuel l
  | LexRightDict => Some (lexRightDict l)
  | LexName => lexName fuel l
  | LexStringObj => lexStringObj fuel l
  | LexHexObj => lexHexObj fuel l
  | LexSpace => lexSpace fuel l
  | LexWord => lexWord fuel l
  | LexNumber => lexNumber fuel l
  end.

(** What a scan has come to: [Done l] when [run] has returned, and
    [Busy f l] when it is still in its loop, about to call [f] or inside
    that call.  Only [lexComment] can fail to return, and it sends nothing
    before its loop, so [items l] are the items sent in both cases. *)
Inductive outcome : Type :=
| Done (l : lexer)
| Busy (f : stateFn) (l : lexer).

Definition lexer_of (o : outcome) : lexer :=
  match o with Done l => l | Busy _ l => l end.

(** The loop of [run], from the state [st]: at most [n] calls of a state
    function, each with [fuel] for its own loops. *)
Fixpoint run_from (n fuel : nat) (st : option stateFn) (l : lexer) : outcome :=
  match st with
  | None => Done l
  | Some f =>
    match n with
    | O => Busy f l
    | S n' =>
      match call fuel f l with
      | None => Busy f l
      | Some (st', l') => run_from n' fuel st' l'
      end
    end
  end.

(** [lex] creates a new scanner for the input string; its [name] argument
    is only stored for reports.  The goroutine it starts is [run]. *)
Definition lex (input : list byte) : lexer := mkLexer input 0 0 0 [] 0 0.

(** [run] runs the state machine for the lexer. *)
Definition run (n fuel : nat) (l : lexer) : outcome :=
  run_from n fuel (Some LexDefault) l.

(** The items that scanning [input] sends, as far as [n] and [fuel]
    reach. *)
Definition scan (n fuel : nat) (input : list byte) : list item :=
  items (lexer_of (run n fuel (lex input))).

End Scanner.

(** A library with no table entries beyond Latin-1 and a [Sprintf] that
    returns its format: it agrees with Go's on every format without a verb
    and on every rune of Latin-1. *)
Definition plainLib : GoLib :=
  mkGoLib [] [] [] (fun format _ => bytes format).

(** * The vocabulary of the properties

    The invariants of a scan and the reading of numbers and strings that
    the properties below are stated with. *)

(** The offsets of [l] are in range and no [int] can wrap. *)
Definition wfb (l : lexer) : Prop :=
  len (input l) <= max_int /\ 0 <= start l <= pos l /\ pos l <= len (input l).

(** [l] with its position at [p] and the width of its last rune [w]. *)
Definition at_pos (l : lexer) (p w : Z) : lexer := set_pos (set_width l w) p.

(** [l'] is [l] moved forward: nothing but [pos] and [width] differ. *)
Definition adv (l l' : lexer) : Prop :=
  exists p w, l' = at_pos l p w /\ pos l <= p <= len (input l).

(** What a rune [r] of width [w] read at [pos l] says about the input. *)
Definition rune_at (l : lexer) (r w : Z) : Prop :=
  (r = eof /\ w = 0 /\ pos l = len (input l)) \/
  (exists c t,
     drop (pos l) (input l) = c :: t /\
     DecodeRuneInString (c :: t) = (r, w) /\ 1 <= w /\
     pos l + w <= len (input l) /\
     ((rune c < 0x80 /\ r = rune c /\ w = 1) \/
      (0x80 <= rune c /\ 0x80 <= r /\
       Forall (fun b => 0x80 <= rune b) (firstn (Z.to_nat w) (c :: t))))).

Definition non_error (it : item) : bool :=
  negb (itemType_eqb (Item.typ it) itemError).

(** An item that is not the error item is a slice of the input that ends
    at or before [lim]. *)
Definition good_item (inp : list byte) (lim : Z) (it : item) : Prop :=
  Item.typ it <> itemError ->
  0 <= Item.pos it /\ Item.pos it + len (Item.val it) <= lim /\
  Item.val it = slice inp (Item.pos it) (Item.pos it + len (Item.val it)).

(** The items sent so far are slices, and those that are not the error
    item tile the input up to [st]. *)
Definition items_inv (inp : list byte) (st : Z) (its : list item) : Prop :=
  Forall (good_item inp st) its /\
  List.concat (map Item.val (filter non_error its)) = firstn (Z.to_nat st) inp.

(** What a state function may assume of the scanner when it is called. *)
Definition pre (st : option stateFn) (l : lexer) : Prop :=
  match st with
  | Some LexDefault | Some LexNumber => pos l = start l
  | Some LexLeftDict | Some LexRightDict =>
    pos l = start l /\ start l + 2 <= len (input l)
  | Some _ => True
  | None =>
    (forall it, In it (items l) -> Item.typ it <> itemError) -> pos l = start l
  end.

(** The depth counters: not negative while the scan runs, and never more
    than the bytes sent. *)
Definition depth_ok (st : option stateFn) (l : lexer) : Prop :=
  match st with
  | None => -1 <= arrayDepth l /\ -1 <= dictDepth l
  | Some LexLeftDict =>
    0 <= arrayDepth l <= start l /\ 0 <= dictDepth l <= start l + 1
  | Some _ => 0 <= arrayDepth l <= start l /\ 0 <= dictDepth l <= start l
  end.

Definition input_is (inp : list byte) (l : lexer) : Prop := input l = inp.

Definition Inv (inp : list byte) (st : option stateFn) (l : lexer) : Prop :=
  input_is inp l /\ wfb l /\ items_inv (input l) (start l) (items l) /\
  pre st l /\ depth_ok st l.

(** The invariant inside a state function, where [pos] is anywhere from
    [start] on. *)
Definition InvB (inp : list byte) (l : lexer) : Prop :=
  input_is inp l /\ wfb l /\ items_inv (input l) (start l) (items l) /\
  0 <= arrayDepth l <= start l /\ 0 <= dictDepth l <= start l.

Definition Inv_outcome (inp : list byte) (o : outcome) : Prop :=
  match o with
  | Done l => Inv inp None l
  | Busy f l => Inv inp (Some f) l
  end.

Definition ascii_only (v : list byte) : Prop :=
  Forall (fun b => rune b < 0x80) v.

Definition digit_rune (r : Z) : bool := (0x30 <=? r) && (r <=? 0x39).

Definition delim_rune (r : Z) : bool :=
  (r =? 0x5B) || (r =? 0x5D) || (r =? 0x7B) || (r =? 0x7D) || (r =? 0x28) ||
  (r =? 0x29) || (r =? 0x3C) || (r =? 0x3E) || (r =? 0x2F) || (r =? 0x25).

(** [p] decides the runes of the set [v], all of them ASCII. *)
Definition char_set (v : list byte) (p : Z -> bool) : Prop :=
  (forall r, (0 <=? IndexRune v r) = p r) /\
  (forall r, p r = true -> 0 <= r < 0x80).

Definition head_is (p : Z -> bool) (s : list byte) : bool :=
  match s with
  | c :: _ => p (rune c)
  | [] => false
  end.

(** The length of the longest prefix of [s] of bytes that satisfy [p]. *)
Fixpoint run_len (p : Z -> bool) (s : list byte) : Z :=
  match s with
  | c :: t => if p (rune c) then 1 + run_len p t else 0
  | [] => 0
  end.

Definition sign_rune (r : Z) : bool := (r =? 0x2B) || (r =? 0x2D).
Definition point_rune (r : Z) : bool := r =? 0x2E.

(** The text of a number as the specification has it: an optional sign, a
    run of digits, an optional single point, a run of digits.
    [number_len s] is the length of that text at the head of [s]. *)
Definition number_len (s : list byte) : Z :=
  let a := if head_is sign_rune s then 1 else 0 in
  let d := run_len digit_rune (drop a s) in
  if head_is point_rune (drop (a + d) s)
  then a + d + 1 + run_len digit_rune (drop (a + d + 1) s)
  else a + d.

(** The rune at the head of [s], [eof] when [s] is empty, and its width. *)
Definition next_rune (s : list byte) : Z :=
  match s with
  | [] => eof
  | _ => fst (DecodeRuneInString s)
  end.

Definition next_width (s : list byte) : Z :=
  match s with
  | [] => 0
  | _ => snd (DecodeRuneInString s)
  end.

(** What must follow a number: a delimiter, white space or the end of the
    input. *)
Definition boundary (E : GoLib) (s : list byte) : bool :=
  let r := next_rune s in isDelim r || IsSpace E r || (r =? eof).

Definition paren_rune (r : Z) : bool := (r =? 0x28) || (r =? 0x29).

(** The body of a literal string as the specification has it, read byte
    by byte after the opening paren with the balance at [balance]: a
    backslash takes the paren that follows it out of the count, a bare
    ['('] adds one to the balance and a bare [')'] takes one off, and the
    body ends with the [')'] that brings the balance to zero.
    [string_len balance s] is the length of that body at the head of [s],
    and [None] when [s] ends before the balance is zero. *)
Fixpoint string_len (balance : Z) (s : list byte) : option Z :=
  match s with
  | [] => None
  | c :: t =>
    if rune c =? 0x5C then
      match t with
      | c' :: t' =>
        if paren_rune (rune c')
        then option_map (Z.add 2) (string_len balance t')
        else option_map (Z.add 1) (string_len balance t)
      | [] => None
      end
    else if rune c =? 0x28 then
      option_map (Z.add 1) (string_len (balance + 1) t)
    else if rune c =? 0x29 then
      if balance - 1 <=? 0 then Some 1
      else option_map (Z.add 1) (string_len (balance - 1) t)
    else option_map (Z.add 1) (string_len balance t)
  end.

(** What the string scan from offset [q] comes to. *)
Definition string_result (E : GoLib) (l : lexer) (q balance : Z)
  : option stateFn * lexer :=
  match string_len balance (drop q (input l)) with
  | Some k => (Some LexDefault, emit (at_pos l (q + k) 1) itemString)
  | None =>
    errorf E (at_pos l (len (input l)) 0) "unterminated string object" []
  end.


(** * The vocabulary of the further properties *)

(** ** The shape of the item sequence *)

(** The two item types that end a scan. *)
Definition terminal_type (t : itemType) : bool :=
  match t with
  | itemError | itemEOF => true
  | _ => false
  end.

(** The four item types that the depth counters follow. *)
Definition bracket_type (t : itemType) : bool :=
  match t with
  | itemLeftArray | itemRightArray | itemLeftDict | itemRightDict => true
  | _ => false
  end.

(** The types that [keytoks] holds. *)
Definition keyword_type (t : itemType) : bool :=
  match t with
  | itemObj | itemEndObj | itemStream | itemEndStream | itemTrailer
  | itemXref | itemStartXref | itemTrue | itemFalse | itemNull => true
  | _ => false
  end.

(** An item that does not end the scan. *)
Definition plain (it : Item.item) : Prop :=
  terminal_type (Item.typ it) = false.

(** An item with at least one byte, unless it is a stream body. *)
Definition solid (it : Item.item) : Prop :=
  Item.typ it <> itemStreamBody -> 0 < len (Item.val it).

(** The items [its] follow one another in the input from offset [s] to
    offset [e]: each starts where the one before it ends. *)
Fixpoint chain (s : Z) (its : list Item.item) (e : Z) : Prop :=
  match its with
  | [] => s = e
  | it :: r => Item.pos it = s /\ chain (s + len (Item.val it)) r e
  end.

Definition tiled (its : list Item.item) (e : Z) : Prop :=
  Forall plain its /\ Forall solid its /\ chain 0 its e.

(** The number of items of type [t] among [its]. *)
Definition count_typ (t : itemType) (its : list Item.item) : Z :=
  Z.of_nat
    (List.length (filter (fun it => itemType_eqb (Item.typ it) t) its)).

(** Left-array items sent less right-array items sent, and the same for
    dicts. *)
Definition open_arrays (its : list Item.item) : Z :=
  count_typ itemLeftArray its - count_typ itemRightArray its.

Definition open_dicts (its : list Item.item) : Z :=
  count_typ itemLeftDict its - count_typ itemRightDict its.

(** No close bracket is sent before its open bracket: after any number of
    the items, neither count of open brackets is negative. *)
Definition never_negative (its : list Item.item) : Prop :=
  forall k : nat,
    0 <= open_arrays (firstn k its) /\ 0 <= open_dicts (firstn k its).

(** [lexDefault] moves the dict depth before [lexLeftDict] and
    [lexRightDict] send the item. *)
Definition dict_ahead (f : stateFn) : Z :=
  match f with
  | LexLeftDict => 1
  | LexRightDict => -1
  | _ => 0
  end.

Definition number_start (r : Z) : bool :=
  sign_rune r || point_rune r || digit_rune r.

(** The first byte of [v] is the character [c]. *)
Definition starts_with (c : Z) (v : list byte) : Prop :=
  head_is (Z.eqb c) v = true.

(** What [lexDefault] has read of the pending item when it hands over to
    [f]. *)
Definition entered (E : GoLib) (f : stateFn) (l : lexer) : Prop :=
  let s := drop (start l) (input l) in
  match f with
  | LexComment => pos l = start l + 1 /\ starts_with 0x25 s
  | LexName => pos l = start l + 1 /\ starts_with 0x2F s
  | LexStringObj => pos l = start l + 1 /\ starts_with 0x28 s
  | LexHexObj => pos l = start l + 1 /\ starts_with 0x3C s
  | LexSpace =>
    pos l = start l + next_width s /\ 0 < next_width s /\
    IsSpace E (next_rune s) = true
  | LexWord =>
    pos l = start l + next_width s /\ 0 < next_width s /\
    isAlphaNumeric E (next_rune s) = true
  | LexNumber => head_is number_start s = true
  | LexLeftDict => firstn 2 s = leftDict
  | LexRightDict => firstn 2 s = rightDict
  | LexDefault | LexStream => True
  end.

(** What the value [v] of an item of type [t] at offset [p] of the input
    [inp] looks like. *)
Definition item_ok (E : GoLib) (inp : list byte) (it : Item.item) : Prop :=
  let v := Item.val it in
  let r := next_rune (drop (Item.pos it) inp) in
  match Item.typ it with
  | itemError | itemEOF | itemStreamBody => True
  | itemLeftArray => v = bytes "["
  | itemRightArray => v = bytes "]"
  | itemLeftDict => v = leftDict
  | itemRightDict => v = rightDict
  | itemNumber => head_is number_start v = true
  | itemString => starts_with 0x28 v
  | itemHexString => starts_with 0x3C v
  | itemComment => starts_with 0x25 v
  | itemName => starts_with 0x2F v
  | itemSpace => IsSpace E r = true
  | itemWord => map_lookup keytoks v = None /\ isAlphaNumeric E r = true
  | itemKeyword => False
  | itemObj | itemEndObj | itemStream | itemEndStream | itemTrailer
  | itemXref | itemStartXref | itemTrue | itemFalse | itemNull =>
    map_lookup keytoks v = Some (Item.typ it)
  end.

(** The second invariant of a scan: the items sent tile the input, none
    but the last ends the scan, no bracket is closed before it is opened,
    the depth counters count the brackets sent, and the value of an item
    fits its type. *)
Definition Inv2 (E : GoLib) (st : option stateFn) (l : lexer) : Prop :=
  match st with
  | Some f =>
    tiled (items l) (start l) /\
    never_negative (items l) /\
    arrayDepth l = open_arrays (items l) /\
    dictDepth l = open_dicts (items l) + dict_ahead f /\
    entered E f l /\
    Forall (item_ok E (input l)) (items l)
  | None =>
    exists body t,
      items l = body ++ [t] /\ tiled body (Item.pos t) /\
      never_negative body /\
      Forall (item_ok E (input l)) body /\
      (Item.typ t = itemError \/
       (Item.typ t = itemEOF /\ open_arrays body = 0 /\ open_dicts body = 0 /\
        arrayDepth l = 0 /\ dictDepth l = 0))
  end.

Definition Inv2_outcome (E : GoLib) (o : outcome) : Prop :=
  match o with
  | Done l => Inv2 E None l
  | Busy f l => Inv2 E (Some f) l
  end.

(** The type of the item that the state function [f] sends for the
    value [v]. *)
Definition emitted_by (f : stateFn) (t : itemType) (v : list byte) : Prop :=
  match f with
  | LexComment => t = itemComment
  | LexName => t = itemName
  | LexStringObj => t = itemString
  | LexHexObj => t = itemHexString
  | LexSpace => t = itemSpace
  | LexNumber => t = itemNumber
  | LexWord =>
    match map_lookup keytoks v with
    | Some k => t = k
    | None => t = itemWord
    end
  | LexDefault | LexStream | LexLeftDict | LexRightDict => False
  end.

(** What a state function [f] with a loop does: it moves forward and then
    either sends one item of its type, with at least one byte, and hands
    over to [lexDefault], or to [lexStream] after the stream keyword; or it
    sends the error item. *)
Inductive shape (E : GoLib) (f : stateFn) (l : lexer)
  : option stateFn -> lexer -> Prop :=
| shape_emit (l1 : lexer) (t : itemType) :
    adv l l1 -> start l1 < pos l1 ->
    emitted_by f t (slice (input l1) (start l1) (pos l1)) ->
    shape E f l
          (Some (if itemType_eqb t itemStream then LexStream else LexDefault))
          (emit l1 t)
| shape_error (l1 : lexer) (format : string) (args : list fmtArg) :
    adv l l1 ->
    shape E f l None (snd (errorf E l1 format args)).

(** ** Runs of runes *)

(** The number of bytes of the longest run of runes at the head of [s]
    that satisfy [p]; [n] bounds the number of runes. *)
Fixpoint rune_run (p : Z -> bool) (n : nat) (s : list byte) : Z :=
  match n with
  | O => 0
  | S n' =>
    if p (next_rune s)
    then next_width s + rune_run p n' (drop (next_width s) s)
    else 0
  end.

Definition rune_span (p : Z -> bool) (s : list byte) : Z :=
  rune_run p (List.length s) s.

(** A byte of the body of a name: printable ASCII other than the space
    and the delimiters. *)
Definition regular_rune (r : Z) : bool :=
  (0x20 <? r) && (r <? 0x7F) && negb (delim_rune r).

(** A hexadecimal digit. *)
Definition hex_rune (r : Z) : bool :=
  ((0x30 <=? r) && (r <=? 0x39)) || ((0x61 <=? r) && (r <=? 0x66)) ||
  ((0x41 <=? r) && (r <=? 0x46)).

(** A rune of the body of a hex string: a hexadecimal digit or white
    space. *)
Definition hex_body (E : GoLib) (r : Z) : bool := hex_rune r || IsSpace E r.

(** A character other than the end-of-line characters. *)
Definition line_rune (r : Z) : bool := negb (isEndOfLine r).

(** ** Scans that end *)

(** An end-of-line byte follows every [%] of [s], somewhere after it. *)
Fixpoint comments_closed (s : list byte) : bool :=
  match s with
  | [] => true
  | c :: t =>
    (negb (rune c =? 0x25) || existsb (fun b => isEndOfLine (rune b)) t) &&
    comments_closed t
  end.

(** What is left to do before the call of [f]: two for every byte not yet
    sent, and one more at dispatch. *)
Definition to_do (f : stateFn) (l : lexer) : Z :=
  2 * (len (input l) - start l) +
  match f with LexDefault => 1 | _ => 0 end.

(** ** Sets of characters *)

(** [r] is one of the bytes of [v]. *)
Definition in_set (v : list byte) (r : Z) : bool :=
  existsb (fun b => rune b =? r) v.

(** ** strings.Count, and the receiving side *)

(** [utf8.RuneCountInString] *)
Definition RuneCountInString (s : list byte) : Z :=
  Z.of_nat (List.length (range_runes 0 0 s)).

(** [bytealg.CountString]: the number of bytes of [s] equal to [c]. *)
Fixpoint CountString (s : list byte) (c : byte) : Z :=
  match s with
  | [] => 0
  | b :: t => (if Byte.eqb b c then 1 else 0) + CountString t c
  end.

(** The loop of [strings.Count] for a separator of two bytes or more:
    every round drops at least the separator from [s]. *)
Fixpoint Count_loop (fuel : nat) (n : Z) (s substr : list byte) : Z :=
  match fuel with
  | O => n
  | S fuel' =>
    let i := Index s substr in
    if i =? -1 then n
    else Count_loop fuel' (n + 1) (drop (i + len substr) s) substr
  end.

(** [strings.Count]: the number of non-overlapping instances of [substr]
    in [s]. *)
Definition Count (s substr : list byte) : Z :=
  match substr with
  | [] => RuneCountInString s + 1
  | [c] => CountString s c
  | _ => Count_loop (S (List.length s)) 0 s substr
  end.

(** [lineNumber] reports which line we're on, based on the position
    [lastPos] of the previous item returned by [nextItem]. *)
Definition lineNumber (l : lexer) (lastPos : Z) : Z :=
  addi 1 (Count (slice (input l) 0 lastPos) [x0a]).

(** [nextItem] returns the next item from the input: it receives from the
    channel, whose items not yet received are [chan], and records the
    position of the item in [lastPos].  [None]: nothing is left to
    receive. *)
Definition nextItem (chan : list Item.item)
  : option (Item.item * list Item.item * Z) :=
  match chan with
  | [] => None
  | i :: rest => Some (i, rest, Item.pos i)
  end.

(** What [main] writes for one file: an item printed on the standard
    output, or the message on the standard error that gives up on the
    file, with its line and position. *)
Inductive event : Type :=
| Printed (i : Item.item)
| Aborting (line : Z) (at_pos : Z).

(** The loop of [main] over the items of one file, for the scanner [l]
    and the items [chan] still to receive.  The second component is
    [true] when the loop is left waiting in [nextItem] for an item that
    is never sent. *)
Fixpoint main_loop (l : lexer) (chan : list Item.item)
  : list event * bool :=
  match chan with
  | [] => ([], true)
  | i :: rest =>
    match nextItem chan with
    | None => ([], true)
    | Some (i, rest', lastPos) =>
      if itemType_eqb (Item.typ i) itemEOF then ([], false)
      else if itemType_eqb (Item.typ i) itemError
      then ([Printed i; Aborting (lineNumber l lastPos) (pos l)], false)
      else
        let '(out, waiting) := main_loop l rest in
        (Printed i :: out, waiting)
    end
  end.

(** ** Streams in the item sequence *)

(** The type of the last item of [its]. *)
Definition last_typ (its : list Item.item) : option itemType :=
  match rev its with
  | [] => None
  | it :: _ => Some (Item.typ it)
  end.

(** The items around a stream body: a stream body comes right after a
    stream keyword, after a stream keyword comes a stream body or the
    error item, and after a stream body the end-stream item. *)
Inductive stream_seq : list Item.item -> Prop :=
| stream_seq_nil : stream_seq []
| stream_seq_snoc (its : list Item.item) (it : Item.item) :
    stream_seq its ->
    (Item.typ it = itemStreamBody -> last_typ its = Some itemStream) ->
    (last_typ its = Some itemStream ->
     Item.typ it = itemStreamBody \/ Item.typ it = itemError) ->
    (last_typ its = Some itemStreamBody -> Item.typ it = itemEndStream) ->
    stream_seq (its ++ [it]).

(** The third invariant of a scan: [lexStream] is the function to call
    exactly when the last item sent is the stream keyword, and the last
    item sent is never a stream body; and an end-of-input item with an
    empty value is sent at the end of the input only. *)
Definition Inv3 (st : option stateFn) (l : lexer) : Prop :=
  stream_seq (items l) /\
  match st with
  | Some f =>
    (last_typ (items l) = Some itemStream <-> f = LexStream) /\
    last_typ (items l) <> Some itemStreamBody
  | None =>
    forall body t,
      items l = body ++ [t] -> Item.typ t = itemEOF -> Item.val t = [] ->
      pos l = len (input l)
  end.
(** * Properties *)

(** ** Machine integers and UTF-8 decoding *)

Lemma int_wrap_id z : - 2 ^ 63 <= z <= max_int -> int_wrap z = z.
Proof. unfold int_wrap, max_int. intros. rewrite Z.mod_small by lia. lia. Qed.

Lemma rune_range b : 0 <= rune b <= 255.
Proof. unfold rune. pose proof (Byte.to_N_bounded b). lia. Qed.

Lemma lor_ge_l a b : 0 <= a -> 0 <= b -> a <= Z.lor a b.
Proof.
  intros Ha Hb. pose proof (Z.sub_lor_l_same_l b a) as H.
  assert (0 <= Z.land b (Z.lnot a)) by (apply Z.land_nonneg; lia).
  lia.
Qed.

Lemma lor_ge_r a b : 0 <= a -> 0 <= b -> b <= Z.lor a b.
Proof. intros. rewrite Z.lor_comm. now apply lor_ge_l. Qed.

Ltac bool_to_prop :=
  repeat match goal with
  | H : (_ <? _) = true |- _ => apply Z.ltb_lt in H
  | H : (_ <? _) = false |- _ => apply Z.ltb_ge in H
  | H : (_ <=? _) = true |- _ => apply Z.leb_le in H
  | H : (_ <=? _) = false |- _ => apply Z.leb_gt in H
  | H : (_ =? _) = true |- _ => apply Z.eqb_eq in H
  | H : (_ =? _) = false |- _ => apply Z.eqb_neq in H
  | H : (_ || _) = false |- _ => apply orb_false_iff in H; destruct H
  | H : (_ && _) = true |- _ => apply andb_true_iff in H; destruct H
  end.

Lemma len_cons c t : len (c :: t) = 1 + len t.
Proof. unfold len. cbn [List.length]. lia. Qed.

Lemma len_nonneg s : 0 <= len s.
Proof. unfold len. lia. Qed.

Lemma land_mod b m k : m = Z.ones k -> 0 <= k -> Z.land b m = b mod 2 ^ k.
Proof. intros ->. apply Z.land_ones. Qed.

Lemma rune2_ge b0 b1 :
  0xC2 <= b0 <= 0xDF -> 0 <= b1 ->
  0x80 <= Z.lor (Z.shiftl (Z.land b0 mask2) 6) (Z.land b1 maskx).
Proof.
  intros H0 H1.
  assert (A : 0x80 <= Z.shiftl (Z.land b0 mask2) 6).
  { rewrite Z.shiftl_mul_pow2 by lia.
    rewrite (land_mod b0 mask2 5) by (reflexivity || lia).
    change (2 ^ 5) with 32. change (2 ^ 6) with 64.
    Z.to_euclidean_division_equations. lia. }
  assert (B : 0 <= Z.land b1 maskx) by (apply Z.land_nonneg; lia).
  assert (A0 : 0 <= Z.shiftl (Z.land b0 mask2) 6) by lia.
  pose proof (lor_ge_l _ _ A0 B). lia.
Qed.

Lemma rune3_ge b0 b1 b2 :
  0xE0 <= b0 <= 0xEF -> (b0 = 0xE0 -> 0xA0 <= b1) -> 0x80 <= b1 <= 0xBF ->
  0 <= b2 ->
  0x80 <= Z.lor (Z.lor (Z.shiftl (Z.land b0 mask3) 12)
                       (Z.shiftl (Z.land b1 maskx) 6))
                (Z.land b2 maskx).
Proof.
  intros H0 HE H1 H2.
  assert (A : 0 <= Z.shiftl (Z.land b0 mask3) 12 /\
              0 <= Z.shiftl (Z.land b1 maskx) 6 /\
              0x80 <= Z.shiftl (Z.land b0 mask3) 12 + Z.shiftl (Z.land b1 maskx) 6
              /\ (Z.shiftl (Z.land b0 mask3) 12 = 0 \/ 0x80 <= Z.shiftl (Z.land b0 mask3) 12)).
  { rewrite !Z.shiftl_mul_pow2 by lia.
    rewrite (land_mod b0 mask3 4), (land_mod b1 maskx 6) by (reflexivity || lia).
    change (2 ^ 4) with 16. change (2 ^ 6) with 64. change (2 ^ 12) with 4096.
    Z.to_euclidean_division_equations. lia. }
  destruct A as (A0 & A1 & A2 & A3).
  assert (B : 0 <= Z.land b2 maskx) by (apply Z.land_nonneg; lia).
  pose proof (lor_ge_l _ _ A0 A1) as L1. pose proof (lor_ge_r _ _ A0 A1) as L2.
  assert (L3 : 0 <= Z.lor (Z.shiftl (Z.land b0 mask3) 12)
                          (Z.shiftl (Z.land b1 maskx) 6)) by lia.
  pose proof (lor_ge_l _ _ L3 B). lia.
Qed.

Lemma rune4_ge b0 b1 b2 b3 :
  0xF0 <= b0 <= 0xF4 -> (b0 = 0xF0 -> 0x90 <= b1) -> 0x80 <= b1 <= 0xBF ->
  0 <= b2 -> 0 <= b3 ->
  0x80 <= Z.lor (Z.lor (Z.lor (Z.shiftl (Z.land b0 mask4) 18)
                              (Z.shiftl (Z.land b1 maskx) 12))
                       (Z.shiftl (Z.land b2 maskx) 6))
                (Z.land b3 maskx).
Proof.
  intros H0 HE H1 H2 H3.
  assert (A : 0 <= Z.shiftl (Z.land b0 mask4) 18 /\
              0 <= Z.shiftl (Z.land b1 maskx) 12 /\
              (Z.shiftl (Z.land b0 mask4) 18 = 0 -> 0x80 <= Z.shiftl (Z.land b1 maskx) 12)
              /\ (Z.shiftl (Z.land b0 mask4) 18 = 0 \/ 0x80 <= Z.shiftl (Z.land b0 mask4) 18)).
  { rewrite !Z.shiftl_mul_pow2 by lia.
    rewrite (land_mod b0 mask4 3), (land_mod b1 maskx 6) by (reflexivity || lia).
    change (2 ^ 3) with 8. change (2 ^ 6) with 64. change (2 ^ 12) with 4096.
    change (2 ^ 18) with 262144.
    Z.to_euclidean_division_equations. lia. }
  destruct A as (A0 & A1 & A2 & A3).
  assert (B : 0 <= Z.shiftl (Z.land b2 maskx) 6).
  { apply Z.shiftl_nonneg, Z.land_nonneg; lia. }
  assert (C : 0 <= Z.land b3 maskx) by (apply Z.land_nonneg; lia).
  pose proof (lor_ge_l _ _ A0 A1) as L1. pose proof (lor_ge_r _ _ A0 A1) as L2.
  assert (L3 : 0 <= Z.lor (Z.shiftl (Z.land b0 mask4) 18)
                          (Z.shiftl (Z.land b1 maskx) 12)) by lia.
  pose proof (lor_ge_l _ _ L3 B) as L4.
  assert (L5 : 0 <= Z.lor (Z.lor (Z.shiftl (Z.land b0 mask4) 18)
                                 (Z.shiftl (Z.land b1 maskx) 12))
                          (Z.shiftl (Z.land b2 maskx) 6)) by lia.
  pose proof (lor_ge_l _ _ L5 C). lia.
Qed.

Ltac const_class x :=
  let v1 := eval compute in (as_ <=? x) in change (as_ <=? x) with v1;
  let v2 := eval compute in (Z.land x 7) in change (Z.land x 7) with v2;
  let v3 := eval compute in (acceptRanges (Z.shiftr x 4)) in
  change (acceptRanges (Z.shiftr x 4)) with v3;
  cbv beta iota zeta.

Lemma DecodeRune_cases c0 t r w :
  DecodeRuneInString (c0 :: t) = (r, w) ->
  (rune c0 < 0x80 /\ r = rune c0 /\ w = 1) \/
  (0x80 <= rune c0 /\ 0x80 <= r /\ 1 <= w <= len (c0 :: t) /\
   Forall (fun b => 0x80 <= rune b) (firstn (Z.to_nat w) (c0 :: t))).
Proof.
  unfold DecodeRuneInString.
  pose proof (rune_range c0) as R0.
  set (b0 := rune c0) in *.
  unfold first.
  destruct (b0 <? 0x80) eqn:A1.
  { change (as_ <=? as_) with true. cbv iota.
    change (- Z.land as_ 1) with 0. change (Z.lnot 0) with (-1).
    rewrite Z.land_m1_r. change (Z.land RuneError 0) with 0. rewrite Z.lor_0_r.
    intros H; inversion H; subst. bool_to_prop. left. lia. }
  intros Hd. right. bool_to_prop. revert Hd.
  assert (Bad : (RuneError, 1) = (r, w) ->
      128 <= b0 /\ 128 <= r /\ 1 <= w <= len (c0 :: t) /\
      Forall (fun b => 128 <= rune b) (firstn (Z.to_nat w) (c0 :: t))).
  { intros H; inversion H; subst. rewrite len_cons. pose proof (len_nonneg t).
    unfold RuneError. repeat split; try lia.
    cbn. constructor; [exact A1 | constructor]. }
  repeat match goal with
  | |- context [if (b0 <? ?k) then _ else _] => destruct (b0 <? k) eqn:?
  | |- context [if (b0 =? ?k) then _ else _] => destruct (b0 =? k) eqn:?
  end;
  match goal with
  | |- context [Z.land ?x 7] => const_class x
  | _ => idtac
  end.
  all: try (change (- Z.land xx 1) with (-1); change (Z.lnot (-1)) with 0;
            rewrite Z.land_0_r; exact Bad).
  all: repeat match goal with
       | |- (if ?c then _ else _) = _ -> _ => destruct c eqn:?
       | |- (match ?l with [] => _ | _ :: _ => _ end) = _ -> _ => destruct l
       end; try exact Bad.
  all: unfold locb, hicb in *; bool_to_prop; try lia.
  all: intros Hrw; inversion Hrw; subst r w; clear Hrw Bad.
  all: repeat match goal with c : byte |- _ =>
         lazymatch goal with
         | _ : 0 <= rune c <= 255 |- _ => fail
         | _ => pose proof (rune_range c)
         end end.
  all: split; [lia|]; split;
       [ first [apply rune2_ge | apply rune3_ge | apply rune4_ge]; lia |].
  all: split; [rewrite !len_cons; pose proof (len_nonneg t); 
               repeat match goal with l : list byte |- _ => pose proof (len_nonneg l); revert l end; intros; lia|].
  all: cbn [Z.to_nat Pos.to_nat Pos.iter_op Nat.add firstn]; repeat constructor; lia.
Qed.

(** ** Slices *)

Lemma len_drop s a : 0 <= a <= len s -> len (drop a s) = len s - a.
Proof. unfold len, drop. intros. rewrite length_skipn. lia. Qed.

Lemma len_slice s a b : 0 <= a <= b -> b <= len s -> len (slice s a b) = b - a.
Proof.
  unfold len, slice, drop. intros. rewrite length_firstn, length_skipn. lia.
Qed.

Lemma firstn_slice s a b :
  0 <= a <= b ->
  firstn (Z.to_nat a) s ++ slice s a b = firstn (Z.to_nat b) s.
Proof.
  intros. unfold slice, drop.
  rewrite <- (firstn_skipn (Z.to_nat a) (firstn (Z.to_nat b) s)).
  rewrite firstn_firstn, skipn_firstn_comm.
  replace (Nat.min (Z.to_nat a) (Z.to_nat b)) with (Z.to_nat a) by lia.
  replace (Z.to_nat (b - a)) with (Z.to_nat b - Z.to_nat a)%nat by lia.
  reflexivity.
Qed.

Lemma slice_slice s a b :
  0 <= a <= b -> b <= len s -> slice s a (a + len (slice s a b)) = slice s a b.
Proof. intros. rewrite len_slice by lia. f_equal. lia. Qed.

Lemma drop_cons_lt s a c t : 0 <= a -> drop a s = c :: t -> a < len s.
Proof.
  unfold drop, len. intros Ha H.
  destruct (Z_lt_ge_dec a (Z.of_nat (List.length s))) as [L|G]; [exact L|].
  rewrite skipn_all2 in H by lia. discriminate.
Qed.

Lemma drop_nil_ge s a : 0 <= a -> drop a s = [] -> len s <= a.
Proof.
  unfold drop, len. intros Ha H.
  apply (f_equal (@List.length byte)) in H. rewrite length_skipn in H.
  cbn in H. lia.
Qed.

Lemma drop_drop s a k : 0 <= a -> 0 <= k -> drop k (drop a s) = drop (a + k) s.
Proof.
  intros. unfold drop. rewrite skipn_skipn. f_equal. lia.
Qed.

Lemma drop_succ s a c t : 0 <= a -> drop a s = c :: t -> drop (a + 1) s = t.
Proof.
  intros Ha H. rewrite <- drop_drop by lia. rewrite H. reflexivity.
Qed.

Lemma slice_app s a b c :
  0 <= a <= b -> b <= c -> slice s a b ++ slice s b c = slice s a c.
Proof.
  intros. unfold slice. unfold drop at 2.
  replace (Z.to_nat b) with (Z.to_nat (b - a) + Z.to_nat a)%nat by lia.
  rewrite <- skipn_skipn. fold (drop a s).
  rewrite <- (firstn_skipn (Z.to_nat (b - a)) (firstn (Z.to_nat (c - a)) (drop a s))).
  rewrite firstn_firstn, skipn_firstn_comm.
  replace (Nat.min (Z.to_nat (b - a)) (Z.to_nat (c - a))) with (Z.to_nat (b - a)) by lia.
  replace (Z.to_nat (c - a) - Z.to_nat (b - a))%nat with (Z.to_nat (c - b)) by lia.
  reflexivity.
Qed.

Lemma slice_firstn_drop s a k : 0 <= k -> slice s a (a + k) = firstn (Z.to_nat k) (drop a s).
Proof. intros. unfold slice. f_equal. lia. Qed.

(** ** The primitives of the scanner *)

Ltac simp_lexer :=
  unfold at_pos, emit, backup, ignore, set_pos, set_start, set_width, send,
         set_arrayDepth, set_dictDepth in *;
  cbn [input pos start width items arrayDepth dictDepth fst snd] in *.

Ltac no_wrap :=
  unfold addi, subi in *;
  repeat match goal with
  | |- context [int_wrap ?z] =>
    rewrite (int_wrap_id z) in * by (unfold max_int in *; lia)
  | H : context [int_wrap ?z] |- _ =>
    rewrite (int_wrap_id z) in * by (unfold max_int in *; lia)
  end.

Lemma rune_at_width l r w : rune_at l r w -> 0 <= w /\ pos l + w <= len (input l).
Proof.
  intros [(? & ? & ?)|(c & t & ? & ? & ? & ? & ?)]; lia.
Qed.

Lemma rune_at_eof l r w : rune_at l r w -> (r = eof <-> w = 0) /\ -1 <= r.
Proof.
  unfold rune_at, eof.
  intros [(? & ? & ?)|(c & t & ? & ? & ? & ? & Cs)]; [lia|].
  pose proof (rune_range c).
  destruct Cs as [(? & ? & ?)|(? & ? & ?)]; lia.
Qed.

(** A rune below [RuneSelf] is one byte wide. *)
Lemma rune_at_ascii l r w : rune_at l r w -> 0 <= r < 0x80 -> w = 1.
Proof.
  unfold rune_at, eof.
  intros [(? & ? & ?)|(c & t & ? & ? & ? & ? & Cs)] R; [lia|].
  destruct Cs as [(? & ? & ?)|(? & ? & ?)]; lia.
Qed.

Lemma adv_refl l : wfb l -> adv l l.
Proof.
  unfold wfb. intros. exists (pos l), (width l). split; [|lia].
  destruct l; reflexivity.
Qed.

Lemma adv_trans a b c : adv a b -> adv b c -> adv a c.
Proof.
  intros (p & w & -> & P) (p' & w' & -> & P'). simp_lexer.
  exists p', w'. split; [reflexivity | lia].
Qed.

Lemma adv_wfb l l' : wfb l -> adv l l' -> wfb l'.
Proof.
  unfold wfb. intros (A & B & C) (p & w & -> & P). simp_lexer. lia.
Qed.

(** What [next] returns: [eof] at the end of the input, else the rune that
    the bytes at [pos] decode to, with [pos] moved past it. *)
Lemma next_spec l :
  wfb l ->
  exists r w, next l = (r, at_pos l (pos l + w) w) /\ rune_at l r w.
Proof.
  unfold wfb, next, rune_at. intros (M & S & P).
  destruct (len (input l) <=? pos l) eqn:Q; bool_to_prop.
  - exists eof, 0. split.
    + rewrite Z.add_0_r. destruct l; reflexivity.
    + left. repeat split; lia.
  - destruct (drop (pos l) (input l)) as [|c t] eqn:D.
    + apply drop_nil_ge in D; lia.
    + destruct (DecodeRuneInString (c :: t)) as [r w] eqn:Dec.
      pose proof (DecodeRune_cases _ _ _ _ Dec) as Cs.
      assert (L : len (c :: t) = len (input l) - pos l).
      { rewrite <- D. apply len_drop. lia. }
      assert (W : 1 <= w <= len (c :: t)).
      { destruct Cs as [(? & ? & ?)|(? & ? & ? & ?)]; [|lia].
        rewrite len_cons. pose proof (len_nonneg t). lia. }
      no_wrap. exists r, w. split; [reflexivity|]. right.
      exists c, t. split; [reflexivity|]. split; [exact Dec|].
      split; [lia|]. split; [lia|].
      destruct Cs as [(? & ? & ?)|(? & ? & ? & ?)]; [left|right]; auto.
Qed.

(** [peek] leaves [pos] where it was. *)
Lemma peek_spec l :
  wfb l ->
  exists r w, peek l = (r, at_pos l (pos l) w) /\ rune_at l r w.
Proof.
  intros W. destruct (next_spec l W) as (r & w & N & R).
  exists r, w. split; [|exact R]. unfold peek. rewrite N.
  destruct W as (M & S & P). destruct (rune_at_width _ _ _ R).
  simp_lexer. no_wrap. do 3 f_equal. lia.
Qed.

Lemma next_adv l r l' : wfb l -> next l = (r, l') -> adv l l'.
Proof.
  intros W H. destruct (next_spec l W) as (r0 & w & N & R).
  rewrite N in H. inversion H; subst. destruct W as (M & S & P).
  destruct (rune_at_width _ _ _ R). exists (pos l + w), w. split; [reflexivity|lia].
Qed.

Lemma peek_adv l r l' : wfb l -> peek l = (r, l') -> adv l l'.
Proof.
  intros W H. destruct (peek_spec l W) as (r0 & w & N & R).
  rewrite N in H. inversion H; subst. destruct W as (M & S & P).
  exists (pos l), w. split; [reflexivity|lia].
Qed.

Lemma accept_adv l valid b l' : wfb l -> accept l valid = (b, l') -> adv l l'.
Proof.
  unfold accept. intros W H. destruct (next l) as [r l1] eqn:N.
  destruct (0 <=? IndexRune valid r); inversion H; subst; clear H.
  - eapply next_adv; eauto.
  - eapply peek_adv; eauto. unfold peek. rewrite N. reflexivity.
Qed.

Lemma acceptRun_loop_last fuel valid : forall l l',
  wfb l -> acceptRun_loop fuel l valid = Some l' ->
  exists l0 r, adv l l0 /\ next l0 = (r, l').
Proof.
  induction fuel as [|n IH]; intros l l' W H; [discriminate|].
  cbn [acceptRun_loop] in H. destruct (next l) as [r l1] eqn:N.
  destruct (0 <=? IndexRune valid r).
  - assert (A : adv l l1) by (eapply next_adv; eauto).
    destruct (IH _ _ (adv_wfb _ _ W A) H) as (l0 & r0 & A0 & N0).
    exists l0, r0. split; [eapply adv_trans; eauto | exact N0].
  - inversion H; subst. exists l, r. split; [apply adv_refl; exact W | exact N].
Qed.

Lemma acceptRun_adv fuel l valid l' :
  wfb l -> acceptRun fuel l valid = Some l' -> adv l l'.
Proof.
  unfold acceptRun. intros W H.
  destruct (acceptRun_loop fuel l valid) as [l1|] eqn:A; [|discriminate].
  inversion H; subst; clear H.
  destruct (acceptRun_loop_last _ _ _ _ W A) as (l0 & r & A0 & N).
  eapply adv_trans; [exact A0|]. eapply peek_adv; [eapply adv_wfb; eauto|].
  unfold peek. rewrite N. reflexivity.
Qed.

(** ** The invariant of a scan *)

Lemma itemType_eqb_eq a b : itemType_eqb a b = true <-> a = b.
Proof. split; [destruct a, b; (reflexivity || discriminate) | intros ->; destruct b; reflexivity]. Qed.

Lemma non_error_true t p v : t <> itemError -> non_error (Item.mk t p v) = true.
Proof.
  intros H. unfold non_error. cbn. destruct (itemType_eqb t itemError) eqn:Q; [|reflexivity].
  apply itemType_eqb_eq in Q. contradiction.
Qed.

Lemma good_item_mono inp a b it : a <= b -> good_item inp a it -> good_item inp b it.
Proof. unfold good_item. intros L G T. destruct (G T) as (? & ? & ?). repeat split; auto; lia. Qed.

Lemma items_inv_emit inp s p its t :
  items_inv inp s its -> 0 <= s <= p -> p <= len inp -> t <> itemError ->
  items_inv inp p (its ++ [Item.mk t s (slice inp s p)]).
Proof.
  intros (F & C) S P T. split.
  - apply Forall_app. split.
    + eapply Forall_impl; [|exact F]. intros it. apply good_item_mono. lia.
    + constructor; [|constructor]. intros _. cbn [Item.pos Item.val].
      rewrite len_slice by lia. repeat split; try lia. f_equal. lia.
  - rewrite filter_app, map_app, concat_app, C. cbn [filter].
    rewrite non_error_true by exact T. cbn [map List.concat Item.val].
    rewrite app_nil_r. apply firstn_slice. lia.
Qed.

Lemma items_inv_error inp s its p v :
  items_inv inp s its -> items_inv inp s (its ++ [Item.mk itemError p v]).
Proof.
  intros (F & C). split.
  - apply Forall_app. split; [exact F|]. constructor; [|constructor].
    intros T. cbn in T. contradiction.
  - rewrite filter_app, map_app, concat_app, C. cbn. apply app_nil_r.
Qed.

Lemma no_error_snoc_error (its : list item) p v :
  (forall it, In it (its ++ [Item.mk itemError p v]) -> Item.typ it <> itemError) ->
  False.
Proof.
  intros F. apply (F (Item.mk itemError p v)); [|reflexivity].
  apply in_or_app. right. left. reflexivity.
Qed.

Lemma keytoks_not_error k t : map_lookup keytoks k = Some t -> t <> itemError.
Proof.
  unfold keytoks. cbn [map_lookup].
  repeat match goal with
  | |- context [if ?c then _ else _] => destruct c
  end; intros H; inversion H; discriminate.
Qed.

Section Invariant.

Variable E : GoLib.
Variable inp : list byte.

Ltac inv_leaf :=
  unfold Inv, InvB, input_is, wfb, pre, depth_ok, errorf, lexDefault_eof in *;
  simp_lexer; no_wrap;
  repeat match goal with
  | |- _ /\ _ => split
  | |- items_inv _ _ (_ ++ [Item.mk itemError _ _]) => apply items_inv_error
  | |- items_inv _ _ (_ ++ [_]) => apply items_inv_emit
  | |- items_inv _ _ _ => assumption
  | |- _ <> _ => discriminate
  | |- True => exact I
  | |- (forall it, In it (_ ++ [Item.mk itemError _ _]) -> _) -> _ =>
    let F := fresh in intros F; destruct (no_error_snoc_error _ _ _ F)
  | |- (forall it, In it _ -> _) -> _ => intros _
  end; try lia; try assumption; try reflexivity.

Lemma lexDefault_inv l st' l' :
  Inv inp (Some LexDefault) l -> lexDefault E l = (st', l') -> Inv inp st' l'.
Proof.
  intros (Ei & W & I & P & D) H. unfold lexDefault in H.
  destruct (next_spec l W) as (r & w & N & R). rewrite N in H.
  cbv beta iota in H.
  pose proof (rune_at_width _ _ _ R) as (W0 & W1).
  pose proof (rune_at_eof _ _ _ R) as (W2 & W3).
  pose proof (rune_at_ascii _ _ _ R) as W4.
  assert (W' : wfb (at_pos l (pos l + w) w)).
  { unfold wfb in *; simp_lexer; lia. }
  destruct (peek_spec _ W') as (r2 & w2 & N2 & R2).
  rewrite N2 in H. cbv beta iota in H.
  pose proof (rune_at_width _ _ _ R2) as (V0 & V1).
  pose proof (rune_at_ascii _ _ _ R2) as V4.
  clear N N2 R R2.
  unfold lexDefault_eof, errorf in H.
  repeat match type of H with
  | context [if ?c then _ else _] => destruct c eqn:?
  end; inversion H; subst; clear H; bool_to_prop; unfold eof in *.
  all: inv_leaf.
Qed.

Lemma Inv_InvB f l : f <> LexLeftDict -> Inv inp (Some f) l -> InvB inp l.
Proof.
  intros F (Ei & W & I & P & D). unfold InvB. destruct f; try contradiction; cbn in D; tauto.
Qed.

Lemma InvB_adv l l' : InvB inp l -> adv l l' -> InvB inp l'.
Proof.
  intros (Ei & W & I & A & D) (p & w & -> & P). unfold InvB, input_is, wfb in *. simp_lexer.
  split; [exact Ei | split; [lia | split; [exact I | split; lia]]].
Qed.

Lemma InvB_emit l t f :
  InvB inp l -> t <> itemError -> f <> LexLeftDict -> f <> LexRightDict ->
  Inv inp (Some f) (emit l t).
Proof.
  intros (Ei & W & I & A & D) T F1 F2.
  assert (Inv inp (Some LexDefault) (emit l t)) as (Ei' & W' & I' & P' & D')
    by inv_leaf.
  split; [exact Ei'|]. split; [exact W'|]. split; [exact I'|].
  destruct f; try contradiction; cbn in *; auto.
Qed.

Lemma InvB_errorf l format args :
  InvB inp l -> Inv inp None (snd (errorf E l format args)).
Proof. intros (Ei & W & I & A & D). inv_leaf. Qed.

Lemma HasPrefix_len s sub : HasPrefix s sub = true -> len sub <= len s.
Proof.
  revert s. induction sub as [|p sub IH]; intros s H.
  - pose proof (len_nonneg s). unfold len; cbn; lia.
  - destruct s as [|c s]; [discriminate|]. cbn in H.
    apply andb_true_iff in H. destruct H as (_ & H). apply IH in H.
    rewrite !len_cons. lia.
Qed.

Lemma Index_from_bound sub : forall s k i,
  Index_from k s sub = i -> 0 <= k -> i = -1 \/ (k <= i /\ i - k + len sub <= len s).
Proof.
  induction s as [|c s IH]; intros k i H K; cbn [Index_from] in H.
  - destruct (HasPrefix [] sub) eqn:P; [|left; lia].
    right. apply HasPrefix_len in P. lia.
  - destruct (HasPrefix (c :: s) sub) eqn:P.
    + right. apply HasPrefix_len in P. lia.
    + destruct (IH _ _ H ltac:(lia)) as [?|(? & ?)]; [left; assumption|right].
      rewrite len_cons. lia.
Qed.

Lemma lexStream_inv l st' l' :
  Inv inp (Some LexStream) l -> lexStream E l = (st', l') -> Inv inp st' l'.
Proof.
  intros V H. apply Inv_InvB in V; [|discriminate]. unfold lexStream in H.
  pose proof V as (Ei & W & I & A & D). pose proof W as (M & S & P).
  assert (K : 0 <= 0) by lia.
  destruct (Index_from_bound rightStream (drop (pos l) (input l)) 0 _ eq_refl K)
    as [B|B];
    fold (Index (drop (pos l) (input l)) rightStream) in B;
    set (i := Index (drop (pos l) (input l)) rightStream) in *.
  - rewrite B in H. cbn in H. inversion H; subst.
    apply (InvB_errorf l "unclosed stream" []). exact V.
  - rewrite len_drop in B by lia.
    destruct (i <? 0) eqn:Q; bool_to_prop; [lia|].
    inversion H; subst; clear H.
    change (len rightStream) with 9 in *. inv_leaf.
Qed.

Lemma lexLeftDict_inv l st' l' :
  Inv inp (Some LexLeftDict) l -> lexLeftDict l = (st', l') -> Inv inp st' l'.
Proof.
  intros (Ei & W & I & P & D) H. unfold lexLeftDict in H. inversion H; subst.
  change (len leftDict) with 2. inv_leaf.
Qed.

Lemma lexRightDict_inv l st' l' :
  Inv inp (Some LexRightDict) l -> lexRightDict l = (st', l') -> Inv inp st' l'.
Proof.
  intros (Ei & W & I & P & D) H. unfold lexRightDict in H. inversion H; subst.
  change (len rightDict) with 2. inv_leaf.
Qed.

Lemma lexComment_loop_adv fuel : forall r l r' l',
  wfb l -> lexComment_loop fuel r l = Some (r', l') -> adv l l'.
Proof.
  induction fuel as [|n IH]; intros r l r' l' W H; [discriminate|].
  cbn [lexComment_loop] in H. destruct (peek l) as [p l1] eqn:Pk.
  assert (A1 : adv l l1) by (eapply peek_adv; eauto).
  destruct (negb (isEndOfLine p)).
  - destruct (next l1) as [r1 l2] eqn:N.
    assert (A2 : adv l1 l2) by (eapply next_adv; eauto using adv_wfb).
    eapply adv_trans; [exact A1|]. eapply adv_trans; [exact A2|].
    eapply IH; [|exact H]. eauto using adv_wfb.
  - inversion H; subst. exact A1.
Qed.

Lemma lexComment_inv fuel l st' l' :
  Inv inp (Some LexComment) l -> lexComment fuel l = Some (st', l') -> Inv inp st' l'.
Proof.
  intros V H. apply Inv_InvB in V; [|discriminate]. unfold lexComment in H.
  destruct (lexComment_loop fuel 0 l) as [[r l1]|] eqn:L; [|discriminate].
  pose proof V as (_ & W & _).
  assert (A1 : adv l l1) by (eapply lexComment_loop_adv; eauto).
  inversion H; subst; clear H. apply InvB_emit; try discriminate.
  destruct (r =? 13).
  - destruct (accept l1 [x0a]) as [b l2] eqn:Ac. cbn [snd].
    eapply InvB_adv; [eapply InvB_adv; [exact V|exact A1]|].
    eapply accept_adv; [|exact Ac]. eauto using adv_wfb.
  - eapply InvB_adv; eauto.
Qed.

Lemma lexName_inv fuel : forall l st' l',
  InvB inp l -> lexName E fuel l = Some (st', l') -> Inv inp st' l'.
Proof.
  induction fuel as [|n IH]; intros l st' l' V H; [discriminate|].
  cbn [lexName] in H. destruct (next l) as [r l1] eqn:N.
  pose proof V as (_ & W & _).
  assert (A1 : adv l l1) by (eapply next_adv; eauto).
  assert (A2 : adv l (backup l1)).
  { eapply peek_adv; [exact W|]. unfold peek. rewrite N. reflexivity. }
  destruct (isDelim r || IsSpace E r || (r =? eof)).
  - inversion H; subst. apply InvB_emit; try discriminate. eapply InvB_adv; eauto.
  - destruct ((32 <? r) && (r <? 127)).
    + eapply IH; [|exact H]. eapply InvB_adv; eauto.
    + inversion H; subst.
      apply (InvB_errorf l1 "illegal character in name: %#U" [ArgRune r]).
      eapply InvB_adv; eauto.
Qed.

Lemma lexStringObj_loop_inv fuel : forall balance l st' l',
  InvB inp l -> lexStringObj_loop E fuel balance l = Some (st', l') -> Inv inp st' l'.
Proof.
  induction fuel as [|n IH]; intros balance l st' l' V H; [discriminate|].
  cbn [lexStringObj_loop] in H. destruct (next l) as [r l1] eqn:N.
  pose proof V as (_ & W & _).
  assert (A1 : adv l l1) by (eapply next_adv; eauto).
  assert (V1 : InvB inp l1) by (eapply InvB_adv; eauto).
  destruct (r =? 92).
  - destruct (accept l1 (bytes "()")) as [b l2] eqn:Ac.
    eapply IH; [|exact H]. eapply InvB_adv; [exact V1|].
    eapply accept_adv; [|exact Ac]. eauto using adv_wfb.
  - destruct (r =? 40); [eapply IH; eauto|].
    destruct (r =? 41).
    + destruct (subi balance 1 <=? 0); [|eapply IH; eauto].
      inversion H; subst. apply InvB_emit; try discriminate. exact V1.
    + destruct (r =? eof); [|eapply IH; eauto].
      inversion H; subst.
      apply (InvB_errorf l1 "unterminated string object" []). exact V1.
Qed.

Lemma lexHexObj_inv fuel : forall l st' l',
  InvB inp l -> lexHexObj E fuel l = Some (st', l') -> Inv inp st' l'.
Proof.
  induction fuel as [|n IH]; intros l st' l' V H; [discriminate|].
  cbn [lexHexObj] in H. destruct (next l) as [r l1] eqn:N.
  pose proof V as (_ & W & _).
  assert (A1 : adv l l1) by (eapply next_adv; eauto).
  assert (V1 : InvB inp l1) by (eapply InvB_adv; eauto).
  destruct ((0 <=? IndexRune (bytes "0123456789abcdefABCDEF") r) || IsSpace E r);
    [eapply IH; eauto|].
  destruct (r =? 62).
  - inversion H; subst. apply InvB_emit; try discriminate. exact V1.
  - destruct (r =? eof); inversion H; subst.
    + apply (InvB_errorf l1 "unterminated hexstring" []). exact V1.
    + apply (InvB_errorf l1 "illegal character in hexstring: %#U" [ArgRune r]).
      exact V1.
Qed.

Lemma lexSpace_loop_adv fuel : forall l l',
  wfb l -> lexSpace_loop E fuel l = Some l' -> adv l l'.
Proof.
  induction fuel as [|n IH]; intros l l' W H; [discriminate|].
  cbn [lexSpace_loop] in H. destruct (peek l) as [p l1] eqn:Pk.
  assert (A1 : adv l l1) by (eapply peek_adv; eauto).
  destruct (IsSpace E p).
  - destruct (next l1) as [r1 l2] eqn:N.
    assert (A2 : adv l1 l2) by (eapply next_adv; eauto using adv_wfb).
    eapply adv_trans; [exact A1|]. eapply adv_trans; [exact A2|].
    eapply IH; [|exact H]. eauto using adv_wfb.
  - inversion H; subst. exact A1.
Qed.

Lemma lexSpace_inv fuel l st' l' :
  Inv inp (Some LexSpace) l -> lexSpace E fuel l = Some (st', l') -> Inv inp st' l'.
Proof.
  intros V H. apply Inv_InvB in V; [|discriminate]. unfold lexSpace in H.
  destruct (lexSpace_loop E fuel l) as [l1|] eqn:L; [|discriminate].
  inversion H; subst. apply InvB_emit; try discriminate.
  eapply InvB_adv; [exact V|]. eapply lexSpace_loop_adv; [apply V|exact L].
Qed.

Lemma lexWord_loop_adv fuel : forall l l',
  wfb l -> lexWord_loop E fuel l = Some l' -> adv l l'.
Proof.
  induction fuel as [|n IH]; intros l l' W H; [discriminate|].
  cbn [lexWord_loop] in H. destruct (peek l) as [p l1] eqn:Pk.
  assert (A1 : adv l l1) by (eapply peek_adv; eauto).
  destruct (isAlphaNumeric E p).
  - destruct (next l1) as [r1 l2] eqn:N.
    assert (A2 : adv l1 l2) by (eapply next_adv; eauto using adv_wfb).
    eapply adv_trans; [exact A1|]. eapply adv_trans; [exact A2|].
    eapply IH; [|exact H]. eauto using adv_wfb.
  - inversion H; subst. exact A1.
Qed.

Lemma lexWord_inv fuel l st' l' :
  Inv inp (Some LexWord) l -> lexWord E fuel l = Some (st', l') -> Inv inp st' l'.
Proof.
  intros V H. apply Inv_InvB in V; [|discriminate]. unfold lexWord in H.
  destruct (lexWord_loop E fuel l) as [l1|] eqn:L; [|discriminate].
  assert (V1 : InvB inp l1).
  { eapply InvB_adv; [exact V|]. eapply lexWord_loop_adv; [apply V|exact L]. }
  destruct (map_lookup keytoks (slice (input l1) (start l1) (pos l1)))
    as [tok|] eqn:K.
  - apply keytoks_not_error in K.
    destruct tok; inversion H; subst; apply InvB_emit; (discriminate || assumption).
  - inversion H; subst. apply InvB_emit; (discriminate || assumption).
Qed.

Lemma scanNumber_adv fuel l ok l' :
  wfb l -> scanNumber E fuel l = Some (ok, l') -> adv l l'.
Proof.
  intros W H. unfold scanNumber in H.
  destruct (accept l (bytes "+-")) as [b0 l0] eqn:A0.
  assert (S0 : adv l l0) by (eapply accept_adv; eauto).
  destruct (acceptRun fuel l0 (bytes "0123456789")) as [l1|] eqn:A1; [|discriminate].
  assert (S1 : adv l0 l1) by (eapply acceptRun_adv; eauto using adv_wfb).
  destruct (accept l1 (bytes ".")) as [b2 l2] eqn:A2.
  assert (W1 : wfb l1) by eauto using adv_wfb.
  assert (S2 : adv l1 l2) by (eapply accept_adv; eauto).
  assert (W2 : wfb l2) by eauto using adv_wfb.
  assert (S02 : adv l l2) by eauto using adv_trans.
  match type of H with
  | match ?x with _ => _ end = _ => destruct x as [l3|] eqn:A3; [|discriminate]
  end.
  assert (S3 : adv l2 l3).
  { destruct b2; [eapply acceptRun_adv; eauto|].
    inversion A3; subst. apply adv_refl; exact W2. }
  assert (W3 : wfb l3) by eauto using adv_wfb.
  destruct (peek l3) as [p4 l4] eqn:P4.
  assert (S4 : adv l3 l4) by (eapply peek_adv; eauto).
  assert (W4 : wfb l4) by eauto using adv_wfb.
  assert (S04 : adv l l4) by eauto using adv_trans.
  destruct (isDelim p4); [inversion H; subst; exact S04|].
  destruct (peek l4) as [p5 l5] eqn:P5.
  assert (S5 : adv l4 l5) by (eapply peek_adv; eauto).
  assert (W5 : wfb l5) by eauto using adv_wfb.
  assert (S05 : adv l l5) by eauto using adv_trans.
  destruct (IsSpace E p5); [inversion H; subst; exact S05|].
  destruct (peek l5) as [p6 l6] eqn:P6.
  assert (S6 : adv l5 l6) by (eapply peek_adv; eauto).
  assert (W6 : wfb l6) by eauto using adv_wfb.
  assert (S06 : adv l l6) by eauto using adv_trans.
  destruct (p6 =? eof); [inversion H; subst; exact S06|].
  destruct (next l6) as [p7 l7] eqn:P7.
  assert (S7 : adv l6 l7) by (eapply next_adv; eauto).
  inversion H; subst. eauto using adv_trans.
Qed.

Lemma lexNumber_inv fuel l st' l' :
  Inv inp (Some LexNumber) l -> lexNumber E fuel l = Some (st', l') -> Inv inp st' l'.
Proof.
  intros V H. apply Inv_InvB in V; [|discriminate]. unfold lexNumber in H.
  destruct (scanNumber E fuel l) as [[ok l1]|] eqn:Sc; [|discriminate].
  assert (V1 : InvB inp l1).
  { eapply InvB_adv; [exact V|]. eapply scanNumber_adv; [apply V|exact Sc]. }
  destruct ok; cbn [negb] in H; inversion H; subst.
  - apply InvB_emit; (discriminate || assumption).
  - apply (InvB_errorf l1 "bad number syntax: %q"). exact V1.
Qed.

(** Every call of a state function keeps the invariant. *)
Lemma call_inv fuel f l st' l' :
  Inv inp (Some f) l -> call E fuel f l = Some (st', l') -> Inv inp st' l'.
Proof.
  intros V H. destruct f; cbn [call] in H.
  - inversion H as [H']. eapply lexDefault_inv; eauto.
  - inversion H as [H']. eapply lexStream_inv; eauto.
  - inversion H as [H']. eapply lexLeftDict_inv; eauto.
  - eapply lexComment_inv; eauto.
  - inversion H as [H']. eapply lexRightDict_inv; eauto.
  - eapply lexName_inv; [|exact H]. eapply Inv_InvB; [|exact V]; discriminate.
  - eapply lexStringObj_loop_inv; [|exact H]. eapply Inv_InvB; [|exact V]; discriminate.
  - eapply lexHexObj_inv; [|exact H]. eapply Inv_InvB; [|exact V]; discriminate.
  - eapply lexSpace_inv; eauto.
  - eapply lexWord_inv; eauto.
  - eapply lexNumber_inv; eauto.
Qed.

Lemma run_from_inv n fuel : forall st l,
  Inv inp st l -> Inv_outcome inp (run_from E n fuel st l).
Proof.
  induction n as [|n IH]; intros st l V; destruct st as [f|]; cbn [run_from];
    try exact V.
  destruct (call E fuel f l) as [[st' l']|] eqn:C; [|exact V].
  apply IH. eapply call_inv; eauto.
Qed.

Lemma lex_inv : len inp <= max_int -> Inv inp (Some LexDefault) (lex inp).
Proof.
  intros M. pose proof (len_nonneg inp).
  unfold Inv, input_is, wfb, lex, items_inv, pre, depth_ok. simp_lexer.
  split; [reflexivity|]. split; [lia|]. split; [|lia].
  split; [constructor | reflexivity].
Qed.

Lemma run_inv n fuel :
  len inp <= max_int -> Inv_outcome inp (run E n fuel (lex inp)).
Proof. intros M. apply run_from_inv, lex_inv, M. Qed.

End Invariant.

(** ** Reading one byte *)

Ltac lexer_eq :=
  unfold at_pos, emit, backup, set_pos, set_start, set_width, send,
         set_arrayDepth, set_dictDepth;
  cbn [input pos start width items arrayDepth dictDepth];
  repeat match goal with
  | |- (_, _) = (_, _) => f_equal
  | |- Some _ = Some _ => f_equal
  | |- mkLexer _ _ _ _ _ _ _ = mkLexer _ _ _ _ _ _ _ => f_equal
  end; try reflexivity; try lia.

Lemma next_byte l c t :
  wfb l -> drop (pos l) (input l) = c :: t -> rune c < 0x80 ->
  next l = (rune c, at_pos l (pos l + 1) 1).
Proof.
  intros W D A. destruct (next_spec l W) as (r & w & N & R). rewrite N.
  destruct R as [(? & ? & Q)|(c' & t' & D' & _ & _ & _ & Cs)].
  - destruct W as (_ & S & _). apply drop_cons_lt in D; lia.
  - rewrite D in D'. inversion D'; subst c' t'.
    destruct Cs as [(? & -> & ->)|(? & _)]; [reflexivity|lia].
Qed.

Lemma peek_byte l c t :
  wfb l -> drop (pos l) (input l) = c :: t -> rune c < 0x80 ->
  peek l = (rune c, at_pos l (pos l) 1).
Proof.
  intros W D A. unfold peek. rewrite (next_byte l c t W D A).
  destruct W as (M & S & P). apply drop_cons_lt in D; [|lia].
  simp_lexer. no_wrap. lexer_eq.
Qed.

Lemma next_at_end l :
  wfb l -> drop (pos l) (input l) = [] -> next l = (eof, at_pos l (pos l) 0).
Proof.
  intros W D. destruct W as (M & S & P). apply drop_nil_ge in D; [|lia].
  unfold next. destruct (len (input l) <=? pos l) eqn:Q; bool_to_prop; [|lia].
  destruct l; reflexivity.
Qed.

Lemma peek_at_end l :
  wfb l -> drop (pos l) (input l) = [] -> peek l = (eof, at_pos l (pos l) 0).
Proof.
  intros W D. unfold peek. rewrite (next_at_end l W D).
  destruct W as (M & S & P). simp_lexer. no_wrap. lexer_eq.
Qed.

(** ** The loop of [run] *)

Section Run.

Variable E : GoLib.

Lemma run_from_app fuel m : forall n st l,
  run_from E (n + m) fuel st l =
  match run_from E n fuel st l with
  | Done l' => Done l'
  | Busy f l' => run_from E m fuel (Some f) l'
  end.
Proof.
  induction n as [|n IH]; intros st l; destruct st as [f|]; cbn [run_from Nat.add].
  - reflexivity.
  - destruct m; reflexivity.
  - destruct (call E fuel f l) as [[st' l']|] eqn:C; [apply IH|].
    destruct m; cbn [run_from]; [reflexivity|]. rewrite C. reflexivity.
  - reflexivity.
Qed.

(** A [']'] read at array depth zero. *)
Lemma lexDefault_array_terminator l t :
  wfb l -> drop (pos l) (input l) = x5d :: t -> arrayDepth l = 0 ->
  lexDefault E l =
  errorf E (set_arrayDepth (at_pos l (pos l + 1) 1) (-1))
         "unexexpected array terminator" [].
Proof.
  intros W D A. unfold lexDefault.
  rewrite (next_byte l x5d t W D) by (cbv; reflexivity).
  change (rune x5d) with 93. cbv beta iota.
  change (IsSpace E 93) with false. change (isAlphaNumeric E 93) with false.
  cbn [Z.eqb Pos.eqb Z.leb Z.ltb Z.compare Pos.compare Pos.compare_cont
       andb orb negb].
  simp_lexer. rewrite A. change (subi 0 1) with (-1). reflexivity.
Qed.

(** A ['>>'] read at dict depth zero. *)
Lemma lexDefault_dict_terminator l t :
  wfb l -> drop (pos l) (input l) = x3e :: x3e :: t -> dictDepth l = 0 ->
  lexDefault E l =
  errorf E (set_dictDepth (at_pos l (pos l + 1) 1) (-1))
         "unexexpected dict terminator" [].
Proof.
  intros W D A. unfold lexDefault.
  rewrite (next_byte l x3e _ W D) by (cbv; reflexivity).
  change (rune x3e) with 62. cbv beta iota.
  change (IsSpace E 62) with false. change (isAlphaNumeric E 62) with false.
  cbn [Z.eqb Pos.eqb Z.leb Z.ltb Z.compare Pos.compare Pos.compare_cont
       andb orb negb].
  assert (W' : wfb (at_pos l (pos l + 1) 1)).
  { destruct W as (M & S & P). apply drop_cons_lt in D; [|lia].
    unfold wfb. simp_lexer. lia. }
  assert (D' : drop (pos (at_pos l (pos l + 1) 1))
                    (input (at_pos l (pos l + 1) 1)) = x3e :: t).
  { simp_lexer. destruct W as (M & S & P). eapply drop_succ; [lia|exact D]. }
  rewrite (peek_byte _ x3e t W' D') by (cbv; reflexivity).
  change (rune x3e) with 62. cbv beta iota.
  cbn [Z.eqb Pos.eqb].
  simp_lexer. rewrite A. change (subi 0 1) with (-1). reflexivity.
Qed.

End Run.

(** ** Sets of ASCII characters *)

Lemma IndexByte_from_spec c : forall v k,
  0 <= k ->
  (0 <=? IndexByte_from k v c) = existsb (fun b => rune b =? c) v.
Proof.
  induction v as [|b v IH]; intros k K; cbn [IndexByte_from existsb].
  - reflexivity.
  - destruct (rune b =? c); cbn [orb]; [|apply IH; lia].
    apply Z.leb_le. exact K.
Qed.

Lemma find_rune_ascii r : forall v k,
  ascii_only v -> r < 0 \/ 0x80 <= r ->
  find_rune (range_runes 0 k v) r = -1.
Proof.
  induction v as [|b v IH]; intros k A R; [reflexivity|].
  inversion A as [|? ? Hb Hv]; subst.
  cbn [range_runes].
  destruct (DecodeRuneInString (b :: v)) as [c w] eqn:D.
  destruct (DecodeRune_cases _ _ _ _ D) as [(_ & -> & ->)|(? & _)]; [|lia].
  cbn [find_rune]. pose proof (rune_range b).
  destruct (rune b =? r) eqn:Q; bool_to_prop; [lia|].
  change (Z.to_nat 1 - 1)%nat with 0%nat. apply IH; assumption.
Qed.

(** On a set of ASCII characters [strings.IndexRune] finds exactly the
    runes that are bytes of the set. *)
Lemma IndexRune_ascii v r :
  ascii_only v ->
  (0 <=? IndexRune v r) = existsb (fun b => rune b =? r) v.
Proof.
  intros A. unfold IndexRune, RuneSelf.
  destruct ((0 <=? r) && (r <? 128)) eqn:Q.
  - apply IndexByte_from_spec. lia.
  - assert (R : r < 0 \/ 0x80 <= r).
    { apply andb_false_iff in Q. destruct Q; bool_to_prop; lia. }
    assert (X : existsb (fun b => rune b =? r) v = false).
    { clear Q. induction A as [|b v Hb Hv IH]; [reflexivity|].
      cbn [existsb]. rewrite IH. pose proof (rune_range b).
      destruct (rune b =? r) eqn:Q; bool_to_prop; [lia|reflexivity]. }
    rewrite X. destruct (ValidRune r); [|reflexivity].
    rewrite find_rune_ascii by assumption. reflexivity.
Qed.

Ltac eval_bytes :=
  repeat match goal with
  | |- context [bytes ?s] =>
    let v := eval vm_compute in (bytes s) in change (bytes s) with v
  end.

Ltac ascii_set r :=
  eval_bytes; rewrite IndexRune_ascii by (repeat constructor);
  cbn [existsb]; cbv [rune Byte.to_N Z.of_N];
  rewrite ?orb_false_r;
  repeat match goal with
  | |- context [Z.eqb ?a r] => rewrite (Z.eqb_sym a r)
  end;
  rewrite ?orb_assoc.

Lemma in_sign r :
  (0 <=? IndexRune (bytes "+-") r) = (r =? 0x2B) || (r =? 0x2D).
Proof. ascii_set r. reflexivity. Qed.

Lemma in_point r : (0 <=? IndexRune (bytes ".") r) = (r =? 0x2E).
Proof. ascii_set r. reflexivity. Qed.

Lemma in_newline r : (0 <=? IndexRune [x0a] r) = (r =? 0x0A).
Proof. ascii_set r. reflexivity. Qed.

Lemma in_parens r :
  (0 <=? IndexRune (bytes "()") r) = (r =? 0x28) || (r =? 0x29).
Proof. ascii_set r. reflexivity. Qed.

Lemma in_digits r : (0 <=? IndexRune (bytes "0123456789") r) = digit_rune r.
Proof.
  ascii_set r. unfold digit_rune.
  destruct ((48 <=? r) && (r <=? 57)) eqn:Q.
  - bool_to_prop.
    assert (r = 48 \/ r = 49 \/ r = 50 \/ r = 51 \/ r = 52 \/ r = 53 \/
            r = 54 \/ r = 55 \/ r = 56 \/ r = 57) as D by lia.
    repeat (destruct D as [->|D]; [reflexivity|]). subst. reflexivity.
  - repeat match goal with
    | |- context [r =? ?k] =>
      let Q' := fresh in destruct (r =? k) eqn:Q'; bool_to_prop;
      [subst; discriminate Q|]
    end. reflexivity.
Qed.

Lemma isDelim_spec r : isDelim r = delim_rune r.
Proof. unfold isDelim, delim_rune. ascii_set r. reflexivity. Qed.

(** ** [accept] and [acceptRun] on a set of ASCII characters *)

Lemma run_len_bound p s : 0 <= run_len p s <= len s.
Proof.
  induction s as [|c t IH]; cbn [run_len].
  - unfold len; cbn; lia.
  - rewrite len_cons. destruct (p (rune c)); lia.
Qed.

Lemma at_pos_at_pos l a b c d : at_pos (at_pos l a b) c d = at_pos l c d.
Proof. reflexivity. Qed.

Lemma char_set_sign : char_set (bytes "+-") (fun r => (r =? 0x2B) || (r =? 0x2D)).
Proof.
  split; [apply in_sign|]. intros r H.
  apply orb_true_iff in H. destruct H; bool_to_prop; lia.
Qed.

Lemma char_set_point : char_set (bytes ".") (fun r => r =? 0x2E).
Proof. split; [apply in_point|]. intros r H. bool_to_prop. lia. Qed.

Lemma char_set_digits : char_set (bytes "0123456789") digit_rune.
Proof.
  split; [apply in_digits|]. unfold digit_rune. intros r H. bool_to_prop. lia.
Qed.

Lemma char_set_parens :
  char_set (bytes "()") (fun r => (r =? 0x28) || (r =? 0x29)).
Proof.
  split; [apply in_parens|]. intros r H.
  apply orb_true_iff in H. destruct H; bool_to_prop; lia.
Qed.

(** What [rune_at] says when the head of the input is known. *)
Lemma rune_at_head l r w p :
  (forall r, p r = true -> 0 <= r < 0x80) ->
  rune_at l r w ->
  p r = head_is p (drop (pos l) (input l)) /\ (p r = true -> w = 1).
Proof.
  intros A [(-> & -> & Q)|(c & t & D & _ & _ & _ & Cs)].
  - assert (D : drop (pos l) (input l) = []).
    { unfold drop. apply skipn_all2. unfold len in Q. lia. }
    rewrite D. cbn [head_is]. unfold eof.
    destruct (p (-1)) eqn:X; [apply A in X; lia|]. split; [reflexivity|discriminate].
  - rewrite D. cbn [head_is].
    destruct Cs as [(? & -> & ->)|(? & ? & _)]; [split; reflexivity|].
    destruct (p r) eqn:X; [apply A in X; lia|].
    destruct (p (rune c)) eqn:Y; [apply A in Y; lia|].
    split; [reflexivity|discriminate].
Qed.

Lemma accept_spec l v p :
  wfb l -> char_set v p ->
  let b := head_is p (drop (pos l) (input l)) in
  exists w, accept l v = (b, at_pos l (pos l + (if b then 1 else 0)) w).
Proof.
  intros W (A & B) b. unfold accept.
  destruct (next_spec l W) as (r & w & N & R). rewrite N, A.
  destruct (rune_at_head l r w p B R) as (H & H1). fold b in H. rewrite H.
  destruct b.
  - rewrite H1 by exact H. exists 1. reflexivity.
  - exists w. destruct W as (M & S & P). destruct (rune_at_width _ _ _ R).
    simp_lexer. no_wrap. lexer_eq.
Qed.

Lemma acceptRun_loop_spec v p :
  char_set v p ->
  forall fuel l,
    wfb l -> (Z.to_nat (len (input l) - pos l) < fuel)%nat ->
    exists w,
      acceptRun_loop fuel l v =
        Some (at_pos l (pos l + run_len p (drop (pos l) (input l)) + w) w) /\
      0 <= w /\
      pos l + run_len p (drop (pos l) (input l)) + w <= len (input l).
Proof.
  intros (A & B). induction fuel as [|n IH]; intros l W F; [lia|].
  cbn [acceptRun_loop].
  destruct (next_spec l W) as (r & w & N & R). rewrite N, A.
  destruct (rune_at_head l r w p B R) as (H & H1).
  pose proof W as (M & S & P). destruct (rune_at_width _ _ _ R) as (W0 & W1).
  destruct (p r) eqn:X.
  - rewrite (H1 eq_refl) in *. 
    destruct (drop (pos l) (input l)) as [|c t] eqn:D; [discriminate|].
    cbn [head_is] in H. cbn [run_len]. rewrite <- H.
    assert (W' : wfb (at_pos l (pos l + 1) 1)) by (unfold wfb; simp_lexer; lia).
    destruct (IH _ W') as (w' & L & L0 & L1).
    { simp_lexer. lia. }
    assert (D' : drop (pos l + 1) (input l) = t) by (eapply drop_succ; [lia|exact D]).
    simp_lexer. rewrite D' in *.
    exists w'. split; [|lia]. fold (at_pos l (pos l + 1) 1). rewrite L.
    lexer_eq.
  - assert (Z0 : run_len p (drop (pos l) (input l)) = 0).
    { destruct (drop (pos l) (input l)) as [|c t]; [reflexivity|].
      cbn [head_is] in H. cbn [run_len]. rewrite <- H. reflexivity. }
    rewrite Z0. exists w. split; [|lia]. lexer_eq.
Qed.

Lemma acceptRun_spec v p fuel l :
  char_set v p -> wfb l -> (Z.to_nat (len (input l) - pos l) < fuel)%nat ->
  exists w,
    acceptRun fuel l v =
      Some (at_pos l (pos l + run_len p (drop (pos l) (input l))) w).
Proof.
  intros C W F. unfold acceptRun.
  destruct (acceptRun_loop_spec v p C fuel l W F) as (w & L & L0 & L1).
  rewrite L. exists w. cbn [option_map]. destruct W as (M & S & P).
  pose proof (run_len_bound p (drop (pos l) (input l))).
  simp_lexer. no_wrap. lexer_eq.
Qed.

(** ** The number scan *)

Lemma next_width_nonneg s : 0 <= next_width s.
Proof.
  destruct s as [|c t]; cbn [next_width]; [lia|].
  destruct (DecodeRuneInString (c :: t)) as [r w] eqn:D. cbn [snd].
  destruct (DecodeRune_cases _ _ _ _ D) as [(_ & _ & ->)|(_ & _ & ? & _)]; lia.
Qed.

Lemma rune_at_next l r w :
  wfb l -> rune_at l r w ->
  r = next_rune (drop (pos l) (input l)) /\
  w = next_width (drop (pos l) (input l)).
Proof.
  intros (M & S & P) [(-> & -> & Q)|(c & t & D & Dec & _)].
  - assert (D : drop (pos l) (input l) = []).
    { unfold drop. apply skipn_all2. unfold len in Q. lia. }
    rewrite D. split; reflexivity.
  - rewrite D. cbn [next_rune next_width]. rewrite Dec. split; reflexivity.
Qed.

Lemma next_rest l :
  wfb l ->
  let s := drop (pos l) (input l) in
  next l = (next_rune s, at_pos l (pos l + next_width s) (next_width s)) /\
  0 <= next_width s /\ pos l + next_width s <= len (input l).
Proof.
  intros W s. destruct (next_spec l W) as (r & w & N & R).
  destruct (rune_at_next l r w W R) as (-> & ->).
  split; [exact N|]. apply (rune_at_width _ _ _ R).
Qed.

Lemma peek_rest l :
  wfb l ->
  let s := drop (pos l) (input l) in
  peek l = (next_rune s, at_pos l (pos l) (next_width s)).
Proof.
  intros W s. destruct (peek_spec l W) as (r & w & N & R).
  destruct (rune_at_next l r w W R) as (-> & ->). exact N.
Qed.

Lemma wfb_at l q w : wfb l -> pos l <= q <= len (input l) -> wfb (at_pos l q w).
Proof. unfold wfb. intros (M & S & P) Q. simp_lexer. lia. Qed.

Lemma at_pos_self l : at_pos l (pos l) (width l) = l.
Proof. destruct l; reflexivity. Qed.

Lemma head_is_lt p s q : 0 <= q -> head_is p (drop q s) = true -> q + 1 <= len s.
Proof.
  intros Q H. destruct (drop q s) as [|c t] eqn:D; [discriminate|].
  apply drop_cons_lt in D; lia.
Qed.

Lemma accept_at l q w v p :
  wfb l -> pos l <= q <= len (input l) -> char_set v p ->
  let b := head_is p (drop q (input l)) in
  exists w',
    accept (at_pos l q w) v = (b, at_pos l (q + (if b then 1 else 0)) w') /\
    q + (if b then 1 else 0) <= len (input l).
Proof.
  intros W Q C b. destruct (accept_spec _ v p (wfb_at l q w W Q) C) as (w' & A).
  exists w'. split; [exact A|]. fold b.
  destruct b eqn:B; [|lia]. destruct W as (_ & ? & _).
  apply (head_is_lt p (input l) q); [lia|exact B].
Qed.

Lemma acceptRun_at l q w v p fuel :
  wfb l -> pos l <= q <= len (input l) -> char_set v p ->
  (List.length (input l) < fuel)%nat ->
  let d := run_len p (drop q (input l)) in
  exists w',
    acceptRun fuel (at_pos l q w) v = Some (at_pos l (q + d) w') /\
    0 <= d /\ q + d <= len (input l).
Proof.
  intros W Q C F d.
  destruct (acceptRun_spec v p fuel _ C (wfb_at l q w W Q)) as (w' & A).
  { destruct W as (_ & ? & _). simp_lexer. unfold len. lia. }
  exists w'. split; [exact A|]. destruct W as (_ & ? & _).
  pose proof (run_len_bound p (drop q (input l))) as B. fold d in B.
  rewrite len_drop in B by lia. lia.
Qed.

Lemma peek_at l q w :
  wfb l -> pos l <= q <= len (input l) ->
  let s := drop q (input l) in
  peek (at_pos l q w) = (next_rune s, at_pos l q (next_width s)).
Proof. intros W Q s. apply (peek_rest _ (wfb_at l q w W Q)). Qed.

Lemma next_at l q w :
  wfb l -> pos l <= q <= len (input l) ->
  let s := drop q (input l) in
  next (at_pos l q w) =
    (next_rune s, at_pos l (q + next_width s) (next_width s)) /\
  0 <= next_width s /\ q + next_width s <= len (input l).
Proof. intros W Q s. apply (next_rest _ (wfb_at l q w W Q)). Qed.

Section Number.

Variable E : GoLib.

Lemma scanNumber_spec fuel l :
  wfb l -> (List.length (input l) < fuel)%nat ->
  let s := drop (pos l) (input l) in
  let k := number_len s in
  let rest := drop k s in
  exists w,
    scanNumber E fuel l =
      Some (boundary E rest,
            at_pos l (pos l + k + (if boundary E rest then 0 else next_width rest))
                   w) /\
    0 <= k /\ pos l + k + next_width rest <= len (input l).
Proof.
  intros W F s k rest. pose proof W as (M & S & P).
  unfold scanNumber.
  replace (accept l (bytes "+-"))
    with (accept (at_pos l (pos l) (width l)) (bytes "+-"))
    by (rewrite at_pos_self; reflexivity).
  (* the sign *)
  destruct (accept_at l (pos l) (width l) _ _ W ltac:(lia) char_set_sign)
    as (w0 & A0 & B0).
  fold s in A0, B0. fold sign_rune in A0, B0.
  set (a := if head_is sign_rune s then 1 else 0) in *.
  rewrite A0. clear A0.
  assert (Ha : 0 <= a) by (unfold a; destruct (head_is sign_rune s); lia).
  (* the digits *)
  destruct (acceptRun_at l (pos l + a) w0 _ _ fuel W ltac:(lia) char_set_digits F)
    as (w1 & A1 & D0 & D1).
  rewrite <- (drop_drop (input l) (pos l) a) in A1, D0, D1 by lia.
  fold s in A1, D0, D1.
  set (d := run_len digit_rune (drop a s)) in *.
  rewrite A1. clear A1.
  (* the point *)
  destruct (accept_at l (pos l + a + d) w1 _ _ W ltac:(lia) char_set_point)
    as (w2 & A2 & B2).
  replace (drop (pos l + a + d) (input l)) with (drop (a + d) s) in A2, B2
    by (unfold s; rewrite drop_drop by lia; f_equal; lia).
  fold point_rune in A2, B2. rewrite A2. clear A2.
  assert (K : exists w3,
    (if head_is point_rune (drop (a + d) s)
     then acceptRun fuel
            (at_pos l (pos l + a + d +
                       (if head_is point_rune (drop (a + d) s) then 1 else 0)) w2)
            (bytes "0123456789")
     else Some (at_pos l (pos l + a + d +
                       (if head_is point_rune (drop (a + d) s) then 1 else 0)) w2))
    = Some (at_pos l (pos l + k) w3) /\ 0 <= k /\ pos l + k <= len (input l)).
  { unfold k, number_len. fold a d.
    destruct (head_is point_rune (drop (a + d) s)).
    - destruct (acceptRun_at l (pos l + a + d + 1) w2 _ _ fuel W ltac:(lia)
                  char_set_digits F) as (w3 & A3 & D2 & D3).
      replace (drop (pos l + a + d + 1) (input l)) with (drop (a + d + 1) s)
        in A3, D2, D3 by (unfold s; rewrite drop_drop by lia; f_equal; lia).
      exists w3. rewrite A3. split; [lexer_eq|lia].
    - exists w2. split; [lexer_eq|lia]. }
  destruct K as (w3 & K & K0 & K1). rewrite K. clear K.
  (* what follows *)
  assert (R : drop (pos l + k) (input l) = rest).
  { unfold rest, s. rewrite drop_drop by lia. reflexivity. }
  pose proof (peek_at l (pos l + k)) as Pk. cbv zeta in Pk. rewrite R in Pk.
  destruct (next_at l (pos l + k) (next_width rest) W ltac:(lia)) as (N & N0 & N1).
  rewrite R in N, N0, N1.
  rewrite !Pk by (exact W || lia). unfold boundary. cbv zeta.
  destruct (isDelim (next_rune rest)); cbn [orb].
  { eexists. split; [|lia]. f_equal. f_equal. lexer_eq. }
  destruct (IsSpace E (next_rune rest)); cbn [orb].
  { eexists. split; [|lia]. f_equal. f_equal. lexer_eq. }
  destruct (next_rune rest =? eof).
  { eexists. split; [|lia]. f_equal. f_equal. lexer_eq. }
  rewrite N. eexists. split; [reflexivity|lia].
Qed.

End Number.

(** ** The literal string scan *)

Lemma string_len_other balance c t :
  0x80 <= rune c ->
  string_len balance (c :: t) = option_map (Z.add 1) (string_len balance t).
Proof.
  intros H. cbn [string_len].
  destruct (rune c =? 92) eqn:A; bool_to_prop; [lia|].
  destruct (rune c =? 40) eqn:B; bool_to_prop; [lia|].
  destruct (rune c =? 41) eqn:C; bool_to_prop; [lia|]. reflexivity.
Qed.

Lemma option_map_add a b (x : option Z) :
  option_map (Z.add a) (option_map (Z.add b) x) = option_map (Z.add (a + b)) x.
Proof. destruct x; cbn; [f_equal; lia|reflexivity]. Qed.

(** Bytes of a rune that is not ASCII are passed over one by one. *)
Lemma string_len_skip balance : forall (n : nat) s,
  (n <= List.length s)%nat ->
  Forall (fun b => 0x80 <= rune b) (firstn n s) ->
  string_len balance s =
  option_map (Z.add (Z.of_nat n)) (string_len balance (skipn n s)).
Proof.
  induction n as [|n IH]; intros s L F.
  - cbn [skipn]. destruct (string_len balance s); reflexivity.
  - destruct s as [|c t]; [cbn in L; lia|]. cbn [firstn skipn] in *.
    inversion F; subst. rewrite string_len_other by assumption.
    rewrite (IH t) by (assumption || (cbn in L; lia)).
    rewrite option_map_add. f_equal. f_equal. lia.
Qed.

Section StringObj.

Variable E : GoLib.

Lemma string_result_shift l q d b b' :
  string_len b (drop q (input l)) =
    option_map (Z.add d) (string_len b' (drop (q + d) (input l))) ->
  string_result E l q b = string_result E l (q + d) b'.
Proof.
  intros H. unfold string_result. rewrite H.
  destruct (string_len b' (drop (q + d) (input l))) as [k|]; cbn [option_map];
    [|reflexivity].
  replace (q + (d + k)) with (q + d + k) by lia. reflexivity.
Qed.

Lemma lexStringObj_loop_spec : forall fuel l q w balance,
  wfb l -> pos l <= q <= len (input l) -> 0 <= balance <= q ->
  (Z.to_nat (len (input l) - q) < fuel)%nat ->
  lexStringObj_loop E fuel balance (at_pos l q w) =
  Some (string_result E l q balance).
Proof.
  induction fuel as [|n IH]; intros l q w balance W Q B F; [lia|].
  pose proof W as (M & S & P).
  cbn [lexStringObj_loop].
  destruct (next_at l q w W Q) as (N & N0 & N1). rewrite N. clear N.
  destruct (drop q (input l)) as [|c t] eqn:D.
  - (* the end of the input *)
    apply drop_nil_ge in D; [|lia]. cbn [next_rune next_width].
    unfold eof. cbn [Z.eqb Pos.eqb]. unfold string_result.
    replace (drop q (input l)) with (@nil byte)
      by (symmetry; apply skipn_all2; unfold len in D; lia).
    cbn [string_len]. f_equal. unfold errorf. lexer_eq.
  - assert (Lt : q < len (input l)) by (eapply drop_cons_lt; [|exact D]; lia).
    assert (D1 : drop (q + 1) (input l) = t) by (eapply drop_succ; [|exact D]; lia).
    cbn [next_rune next_width] in *.
    destruct (DecodeRuneInString (c :: t)) as [r nw] eqn:Dec. cbn [fst snd] in *.
    destruct (DecodeRune_cases _ _ _ _ Dec) as [(A & -> & ->)|(A & R & Wd & Fa)].
    + (* an ASCII byte *)
      destruct (rune c =? 92) eqn:T1.
      { destruct (accept_at l (q + 1) 1 _ _ W ltac:(lia) char_set_parens)
          as (w' & Ac & Le).
        fold paren_rune in Ac, Le. rewrite D1 in Ac, Le. rewrite Ac.
        assert (Hs : string_len balance (c :: t) =
                     option_map (Z.add (1 + (if head_is paren_rune t then 1 else 0)))
                       (string_len balance
                          (drop (q + (1 + (if head_is paren_rune t then 1 else 0)))
                                (input l)))).
        { cbn [string_len]. rewrite T1.
          destruct t as [|c' t']; cbn [head_is].
          - replace (drop (q + (1 + 0)) (input l)) with (@nil byte)
              by (rewrite <- D1; f_equal; lia).
            reflexivity.
          - destruct (paren_rune (rune c')).
            + replace (drop (q + (1 + 1)) (input l)) with t'; [reflexivity|].
              symmetry. replace (q + (1 + 1)) with (q + 1 + 1) by lia.
              eapply drop_succ; [|exact D1]. lia.
            + replace (drop (q + (1 + 0)) (input l)) with (c' :: t')
                by (rewrite <- D1; f_equal; lia).
              reflexivity. }
        rewrite <- D in Hs. apply string_result_shift in Hs. rewrite Hs.
        replace (q + 1 + (if head_is paren_rune t then 1 else 0))
          with (q + (1 + (if head_is paren_rune t then 1 else 0))) in * by lia.
        destruct (head_is paren_rune t); (rewrite IH; [reflexivity|exact W|lia|lia|lia]). }
      destruct (rune c =? 40) eqn:T2.
      { no_wrap. rewrite IH; [|exact W|lia|lia|lia]. f_equal. symmetry.
        apply string_result_shift. rewrite D, D1. cbn [string_len].
        rewrite T1, T2. reflexivity. }
      destruct (rune c =? 41) eqn:T3.
      { no_wrap. destruct (balance - 1 <=? 0) eqn:T4.
        - f_equal. unfold string_result. rewrite D. cbn [string_len].
          rewrite T1, T2, T3, T4. reflexivity.
        - assert (T5 : 0 < balance - 1) by (apply Z.leb_gt; exact T4).
          rewrite IH; [|exact W|lia|lia|lia]. f_equal. symmetry.
          apply string_result_shift. rewrite D, D1. cbn [string_len].
          rewrite T1, T2, T3, T4. reflexivity. }
      pose proof (rune_range c).
      destruct (rune c =? eof) eqn:T4; [unfold eof in T4; bool_to_prop; lia|].
      rewrite IH; [|exact W|lia|lia|lia]. f_equal. symmetry.
      apply string_result_shift. rewrite D, D1. cbn [string_len].
      rewrite T1, T2, T3. reflexivity.
    + (* a rune that is not ASCII *)
      destruct (r =? 92) eqn:T1; bool_to_prop; [lia|].
      destruct (r =? 40) eqn:T2; bool_to_prop; [lia|].
      destruct (r =? 41) eqn:T3; bool_to_prop; [lia|].
      destruct (r =? eof) eqn:T4; [unfold eof in T4; bool_to_prop; lia|].
      rewrite IH; [|exact W|lia|lia|lia]. f_equal. symmetry.
      apply string_result_shift. rewrite D.
      rewrite (string_len_skip balance (Z.to_nat nw) (c :: t)).
      * rewrite Z2Nat.id by lia. f_equal. f_equal.
        rewrite <- D. unfold drop. rewrite skipn_skipn. f_equal. lia.
      * unfold len in Wd. lia.
      * exact Fa.
Qed.

End StringObj.

(** ** Dispatch on one ASCII byte *)

Section Dispatch.

Variable E : GoLib.

Lemma IsSpace_latin1 r :
  0 <= r <= 0xFF ->
  IsSpace E r =
  (r =? 0x09) || (r =? 0x0A) || (r =? 0x0B) || (r =? 0x0C) ||
  (r =? 0x0D) || (r =? 0x20) || (r =? 0x85) || (r =? 0xA0).
Proof.
  intros R. unfold IsSpace, MaxLatin1.
  destruct (0 <=? r) eqn:A; bool_to_prop; [|lia].
  destruct (r <=? 255) eqn:B; bool_to_prop; [|lia]. reflexivity.
Qed.

Lemma lexDefault_open_paren l t :
  wfb l -> drop (pos l) (input l) = x28 :: t ->
  lexDefault E l = (Some LexStringObj, at_pos l (pos l + 1) 1).
Proof.
  intros W D. unfold lexDefault.
  rewrite (next_byte l x28 t W D) by (cbv; reflexivity).
  change (rune x28) with 40. cbv beta iota.
  change (IsSpace E 40) with false. change (isAlphaNumeric E 40) with false.
  cbn [Z.eqb Pos.eqb Z.leb Z.ltb Z.compare Pos.compare Pos.compare_cont
       andb orb negb].
  reflexivity.
Qed.

Lemma lexDefault_sign_point l c t :
  c = x2b \/ c = x2d \/ c = x2e ->
  wfb l -> drop (pos l) (input l) = c :: t ->
  lexDefault E l = (Some LexNumber, at_pos l (pos l) 1).
Proof.
  intros C W D. unfold lexDefault.
  rewrite (next_byte l c t W D) by (destruct C as [-> | [-> | ->]]; cbv; reflexivity).
  destruct W as (M & S & P). apply drop_cons_lt in D; [|lia].
  destruct C as [-> | [-> | ->]];
    match goal with |- context [rune ?b] =>
      let v := eval cbv in (rune b) in change (rune b) with v
    end; cbv beta iota;
    match goal with |- context [IsSpace E ?r] =>
      change (IsSpace E r) with false
    end;
    cbn [Z.eqb Pos.eqb Z.leb Z.ltb Z.compare Pos.compare Pos.compare_cont
         andb orb negb];
    f_equal; simp_lexer; no_wrap; lexer_eq.
Qed.

Lemma boundary_head rest :
  boundary E rest = true ->
  head_is digit_rune rest = false /\ head_is point_rune rest = false.
Proof.
  unfold boundary. destruct rest as [|c t]; [split; reflexivity|].
  cbn [next_rune head_is].
  destruct (DecodeRuneInString (c :: t)) as [r w] eqn:Dec. cbn [fst].
  pose proof (rune_range c).
  destruct (DecodeRune_cases _ _ _ _ Dec) as [(A & -> & _)|(A & R & _)].
  - rewrite isDelim_spec, IsSpace_latin1 by lia.
    unfold delim_rune, digit_rune, point_rune, eof. intros Hb.
    split.
    + destruct ((48 <=? rune c) && (rune c <=? 57)) eqn:Q; [|reflexivity].
      bool_to_prop. exfalso. revert Hb.
      repeat match goal with
      | |- context [rune c =? ?k] =>
        let Q' := fresh in destruct (rune c =? k) eqn:Q'; bool_to_prop; [lia|]
      end. discriminate.
    + destruct (rune c =? 46) eqn:Q; [|reflexivity].
      bool_to_prop. exfalso. revert Hb.
      repeat match goal with
      | |- context [rune c =? ?k] =>
        let Q' := fresh in destruct (rune c =? k) eqn:Q'; bool_to_prop; [lia|]
      end. discriminate.
  - intros _. unfold digit_rune, point_rune. split.
    + destruct ((48 <=? rune c) && (rune c <=? 57)) eqn:Q; [|reflexivity].
      bool_to_prop. lia.
    + destruct (rune c =? 46) eqn:Q; [|reflexivity]. bool_to_prop. lia.
Qed.

Lemma run_len_head_false p s : head_is p s = false -> run_len p s = 0.
Proof.
  destruct s as [|c t]; [reflexivity|]. cbn [head_is run_len]. intros ->.
  reflexivity.
Qed.

Lemma drop_0 s : drop 0 s = s.
Proof. reflexivity. Qed.

Lemma drop_1_cons c s : drop 1 (c :: s) = s.
Proof. reflexivity. Qed.

Lemma number_len_lone c rest :
  c = x2b \/ c = x2d \/ c = x2e ->
  boundary E rest = true ->
  number_len (c :: rest) = 1.
Proof.
  intros C B. destruct (boundary_head rest B) as (Hd & Hp).
  unfold number_len.
  destruct C as [-> | [-> | ->]]; cbn [head_is];
    match goal with |- context [sign_rune (rune ?b)] =>
      let v := eval cbv in (sign_rune (rune b)) in
      change (sign_rune (rune b)) with v
    end; cbv iota zeta.
  - rewrite drop_1_cons, (run_len_head_false _ _ Hd).
    change (1 + 0) with 1. rewrite drop_1_cons, Hp. reflexivity.
  - rewrite drop_1_cons, (run_len_head_false _ _ Hd).
    change (1 + 0) with 1. rewrite drop_1_cons, Hp. reflexivity.
  - rewrite drop_0. cbn [run_len].
    change (digit_rune (rune x2e)) with false. cbv iota.
    change (0 + 0) with 0. rewrite drop_0. cbn [head_is].
    change (point_rune (rune x2e)) with true. cbv iota.
    change (0 + 1) with 1. rewrite drop_1_cons, (run_len_head_false _ _ Hd).
    reflexivity.
Qed.

End Dispatch.

(** ** The end of the input, [strings.Index] and the length of a string body *)

Section Comment.

Variable E : GoLib.

(** At the end of the input [peek] returns [eof], which is no end of line:
    the loop of [lexComment] goes round without moving. *)
Lemma lexComment_loop_at_end : forall fuel r l,
  wfb l -> drop (pos l) (input l) = [] -> lexComment_loop fuel r l = None.
Proof.
  induction fuel as [|n IH]; intros r l W D; [reflexivity|].
  cbn [lexComment_loop]. rewrite (peek_at_end l W D).
  change (negb (isEndOfLine eof)) with true. cbv iota.
  assert (W' : wfb (at_pos l (pos l) 0)).
  { apply wfb_at; [exact W|]. destruct W as (_ & ? & ?). lia. }
  rewrite (next_at_end _ W' D). apply IH; [|exact D].
  apply wfb_at; [exact W'|]. destruct W' as (_ & ? & ?). simp_lexer. lia.
Qed.

End Comment.

Lemma HasPrefix_firstn sub : forall s,
  HasPrefix s sub = true -> firstn (List.length sub) s = sub.
Proof.
  induction sub as [|p sub IH]; intros s H; [reflexivity|].
  destruct s as [|c s]; [discriminate|]. cbn [HasPrefix] in H.
  apply andb_true_iff in H. destruct H as (H1 & H2).
  apply Byte.byte_dec_bl in H1. subst. cbn [List.length firstn].
  f_equal. apply IH. exact H2.
Qed.

(** [strings.Index] returns the offset of an instance, and of the first
    one. *)
Lemma Index_from_found sub : forall s k i,
  Index_from k s sub = i -> 0 <= k -> 0 <= i ->
  HasPrefix (drop (i - k) s) sub = true /\
  forall j, 0 <= j < i - k -> HasPrefix (drop j s) sub = false.
Proof.
  induction s as [|c s IH]; intros k i H K I; cbn [Index_from] in H.
  - destruct (HasPrefix [] sub) eqn:P; [|lia]. subst i.
    rewrite Z.sub_diag. split; [exact P|]. intros j J. lia.
  - destruct (HasPrefix (c :: s) sub) eqn:P.
    + subst i. rewrite Z.sub_diag. split; [exact P|]. intros j J. lia.
    + destruct (Index_from_bound sub s (k + 1) i H ltac:(lia)) as [?|(B & _)];
        [lia|].
      destruct (IH _ _ H ltac:(lia) I) as (F & N).
      replace (drop (i - k) (c :: s)) with (drop (i - (k + 1)) s).
      * split; [exact F|]. intros j J.
        destruct (Z.eq_dec j 0) as [->|Nz]; [exact P|].
        replace (drop j (c :: s)) with (drop (j - 1) s); [apply N; lia|].
        unfold drop. replace (Z.to_nat j) with (S (Z.to_nat (j - 1))) by lia.
        reflexivity.
      * unfold drop.
        replace (Z.to_nat (i - k)) with (S (Z.to_nat (i - (k + 1)))) by lia.
        reflexivity.
Qed.

Lemma Some_Z_inj (a b : Z) : Some a = Some b -> a = b.
Proof. congruence. Qed.

Lemma string_len_bound : forall (n : nat) s balance k,
  (List.length s <= n)%nat -> string_len balance s = Some k ->
  1 <= k <= len s.
Proof.
  induction n as [|n IH]; intros s balance k L H.
  - destruct s; [discriminate|cbn in L; lia].
  - destruct s as [|c t]; [discriminate|]. cbn [List.length] in L.
    rewrite len_cons. pose proof (len_nonneg t).
    assert (Step : forall b j, string_len b t = Some j -> 1 <= j <= len t).
    { intros b j. apply IH. lia. }
    cbn [string_len] in H.
    destruct (rune c =? 92).
    + destruct t as [|c' t']; [discriminate|]. rewrite len_cons in *.
      destruct (paren_rune (rune c')).
      * destruct (string_len balance t') as [j|] eqn:Q; [|discriminate].
        apply IH in Q; [|cbn in L; lia]. cbn [option_map] in H. apply Some_Z_inj in H. lia.
      * destruct (string_len balance (c' :: t')) as [j|] eqn:Q; [|discriminate].
        apply Step in Q. cbn [option_map] in H. apply Some_Z_inj in H. lia.
    + destruct (rune c =? 40).
      * destruct (string_len (balance + 1) t) as [j|] eqn:Q; [|discriminate].
        apply Step in Q. cbn [option_map] in H. apply Some_Z_inj in H. lia.
      * destruct (rune c =? 41).
        -- destruct (balance - 1 <=? 0); [apply Some_Z_inj in H; lia|].
           destruct (string_len (balance - 1) t) as [j|] eqn:Q; [|discriminate].
           apply Step in Q. cbn [option_map] in H. apply Some_Z_inj in H. lia.
        -- destruct (string_len balance t) as [j|] eqn:Q; [|discriminate].
           apply Step in Q. cbn [option_map] in H. apply Some_Z_inj in H. lia.
Qed.

Lemma plain_scan_array_terminator :
  run plainLib 1 0 (lex (bytes "]")) =
  Done (mkLexer (bytes "]") 1 0 1
          [Item.mk itemError 0 (bytes "unexexpected array terminator")]
          (-1) 0).
Proof. vm_compute. reflexivity. Qed.

(** * The claims *)

(** ** C1: termination *)

(** C1: the scan of the input "%", a comment that the end of the input
    cuts short, never ends: whatever the number of calls and the fuel,
    [run] has not returned and no item has been sent, neither the
    end-of-input item nor an error item. *)
Theorem C1_comment_at_end_of_input_never_returns
  (E : GoLib) (n fuel : nat) :
  exists f l,
    run E n fuel (lex (bytes "%")) = Busy f l /\ items l = [].
Proof.
  destruct n as [|n]; [exists LexDefault, (lex (bytes "%")); split; reflexivity|].
  exists LexComment, (mkLexer (bytes "%") 1 0 1 [] 0 0).
  split; [|reflexivity].
  unfold run. cbn [run_from call].
  change (lexDefault E (lex (bytes "%")))
    with (Some LexComment, mkLexer (bytes "%") 1 0 1 [] 0 0).
  destruct n as [|n]; cbn [run_from call]; [reflexivity|].
  unfold lexComment. rewrite lexComment_loop_at_end; [reflexivity| |reflexivity].
  unfold wfb. cbn. unfold max_int. lia.
Qed.

(** ** C2: the values of the items and the consumed input *)

(** C2, counterexample: on the input "]" the only item sent is the error
    item, whose value is the text of the error; the concatenation of the
    values of all items sent is no prefix of the input. *)
Lemma C2_error_value_is_no_prefix :
  ~ exists k : nat,
      List.concat
        (map Item.val (items (lexer_of (run plainLib 1 0 (lex (bytes "]"))))))
      = firstn k (bytes "]").
Proof.
  rewrite plain_scan_array_terminator. intros (k & H).
  destruct k as [|[|k]]; vm_compute in H; discriminate.
Qed.

(** C2, amended: for every input, at every point of the scan, the
    concatenation of the values of the items sent other than the error
    item, in the order sent, is the input up to the start of the pending
    item, [input[:start]], with [0 <= start <= pos <= len(input)]; and when
    the scan has ended without an error item this is all the consumed
    input, [start = pos]. *)
Theorem C2_values_tile_consumed_input
  (E : GoLib) (inp : list byte) (n fuel : nat) :
  len inp <= max_int ->
  let o := run E n fuel (lex inp) in
  List.concat (map Item.val (filter non_error (items (lexer_of o)))) =
    firstn (Z.to_nat (start (lexer_of o))) inp /\
  0 <= start (lexer_of o) <= pos (lexer_of o) /\
  pos (lexer_of o) <= len inp /\
  (forall l, o = Done l ->
     (forall it, In it (items l) -> Item.typ it <> itemError) ->
     start l = pos l).
Proof.
  intros M o. pose proof (run_inv E inp n fuel M) as V. fold o in V.
  assert (B : input_is inp (lexer_of o) /\ wfb (lexer_of o) /\
              items_inv (input (lexer_of o)) (start (lexer_of o))
                        (items (lexer_of o))).
  { destruct o; cbn in *; unfold Inv in V; tauto. }
  destruct B as (Ei & (_ & S & P) & (_ & C)). unfold input_is in Ei.
  rewrite Ei in *. split; [exact C|]. split; [exact S|]. split; [exact P|].
  intros l Ho N. rewrite Ho in V. destruct V as (_ & _ & _ & Pre & _).
  symmetry. apply Pre. exact N.
Qed.

(** C2, witness: the scan of "[1]". *)
Lemma C2_values_tile_consumed_input_witness :
  let o := run plainLib 9 9 (lex (bytes "[1]")) in
  List.concat (map Item.val (filter non_error (items (lexer_of o)))) =
    firstn (Z.to_nat (start (lexer_of o))) (bytes "[1]") /\
  0 <= start (lexer_of o) <= pos (lexer_of o) /\
  pos (lexer_of o) <= len (bytes "[1]") /\
  (forall l, o = Done l ->
     (forall it, In it (items l) -> Item.typ it <> itemError) ->
     start l = pos l).
Proof.
  apply (C2_values_tile_consumed_input plainLib (bytes "[1]") 9 9).
  vm_compute. discriminate.
Defined.

(** ** C3: comments *)

(** C3: the comment item holds the text from the [%] up to the first line
    terminator and not the terminator, which is sent as white space: the
    scan of "%PDF-1.1\n" sends the comment "%PDF-1.1" and the white space
    "\n", and in the scan of "%a\r\nb" the CR and the LF are both in the
    white space item. *)
Theorem C3_comment_leaves_terminator (E : GoLib) :
  scan E 9 20 (bytes "%PDF-1.1" ++ [x0a]) =
    [ Item.mk itemComment 0 (bytes "%PDF-1.1");
      Item.mk itemSpace 8 [x0a];
      Item.mk itemEOF 9 [] ] /\
  scan E 9 20 (bytes "%a" ++ [x0d; x0a] ++ bytes "b") =
    [ Item.mk itemComment 0 (bytes "%a");
      Item.mk itemSpace 2 [x0d; x0a];
      Item.mk itemWord 4 (bytes "b");
      Item.mk itemEOF 5 [] ].
Proof. split; vm_compute; reflexivity. Qed.

(** ** C4: a stray ['>'] *)

(** C4: a ['>'] that no second ['>'] follows is handled by the clause for
    the end of the input: with both depths zero the scan of ">" sends the
    end-of-input item with the value ">" and no error item; inside an
    array the error is "unterminated array", inside a dict "unterminated
    dict"; "illegal character" is not reported. *)
Theorem C4_stray_close_angle (E : GoLib) :
  run E 9 20 (lex (bytes ">")) =
    Done (mkLexer (bytes ">") 1 1 0 [Item.mk itemEOF 0 (bytes ">")] 0 0) /\
  scan E 9 20 (bytes "[>") =
    [ Item.mk itemLeftArray 0 (bytes "[");
      Item.mk itemError 1 (Sprintf E "unterminated array" []) ] /\
  scan E 9 20 (bytes "<<>") =
    [ Item.mk itemLeftDict 0 (bytes "<<");
      Item.mk itemError 2 (Sprintf E "unterminated dict" []) ].
Proof. repeat split; vm_compute; reflexivity. Qed.

(** ** C5: the depth counters *)

(** C5, counterexample: after the scan of "]" the array depth is -1. *)
Lemma C5_array_depth_negative :
  arrayDepth (lexer_of (run plainLib 1 0 (lex (bytes "]")))) < 0.
Proof. rewrite plain_scan_array_terminator. cbn. lia. Qed.

(** C5, amended: throughout every scan, whenever a state function is
    about to be called the array depth and the dict depth are not
    negative.  A [']'] read at array depth zero, and a ['>>'] read at dict
    depth zero, takes its counter to -1 and ends the scan: the error item
    "unexexpected array terminator" (or "unexexpected dict terminator") is
    the only item sent from there on, so the close token is never sent and
    nothing follows.  In the scanner that has ended the counters are not
    below -1. *)
Theorem C5_depth_counters
  (E : GoLib) (inp : list byte) (n fuel : nat) :
  len inp <= max_int ->
  match run E n fuel (lex inp) with
  | Busy f l =>
    (0 <= arrayDepth l /\ 0 <= dictDepth l) /\
    (forall t m,
       f = LexDefault -> drop (pos l) (input l) = x5d :: t ->
       arrayDepth l = 0 ->
       exists l',
         run E (n + S m) fuel (lex inp) = Done l' /\
         items l' =
           items l ++
           [Item.mk itemError (start l)
                    (Sprintf E "unexexpected array terminator" [])] /\
         arrayDepth l' = -1) /\
    (forall t m,
       f = LexDefault -> drop (pos l) (input l) = x3e :: x3e :: t ->
       dictDepth l = 0 ->
       exists l',
         run E (n + S m) fuel (lex inp) = Done l' /\
         items l' =
           items l ++
           [Item.mk itemError (start l)
                    (Sprintf E "unexexpected dict terminator" [])] /\
         dictDepth l' = -1)
  | Done l => -1 <= arrayDepth l /\ -1 <= dictDepth l
  end.
Proof.
  intros M. pose proof (run_inv E inp n fuel M) as V.
  destruct (run E n fuel (lex inp)) as [l|f l] eqn:R; cbn in V.
  - destruct V as (_ & _ & _ & _ & D). exact D.
  - destruct V as (_ & W & _ & _ & D). split.
    { destruct f; cbn in D; lia. }
    split; intros t m -> Dr Z0; unfold run in *;
      rewrite run_from_app, R; cbn [run_from call].
    + rewrite (lexDefault_array_terminator E l t W Dr Z0). unfold errorf.
      destruct m; cbn [run_from]; eexists; (split; [reflexivity|]);
        simp_lexer; split; reflexivity.
    + rewrite (lexDefault_dict_terminator E l t W Dr Z0). unfold errorf.
      destruct m; cbn [run_from]; eexists; (split; [reflexivity|]);
        simp_lexer; split; reflexivity.
Qed.

(** C5, witness: the scan of "[]]" before its second [']'] is read. *)
Lemma C5_depth_counters_witness :
  match run plainLib 2 0 (lex (bytes "[]]")) with
  | Busy f l =>
    (0 <= arrayDepth l /\ 0 <= dictDepth l) /\
    (forall t m,
       f = LexDefault -> drop (pos l) (input l) = x5d :: t ->
       arrayDepth l = 0 ->
       exists l',
         run plainLib (2 + S m) 0 (lex (bytes "[]]")) = Done l' /\
         items l' =
           items l ++
           [Item.mk itemError (start l)
                    (Sprintf plainLib "unexexpected array terminator" [])] /\
         arrayDepth l' = -1) /\
    (forall t m,
       f = LexDefault -> drop (pos l) (input l) = x3e :: x3e :: t ->
       dictDepth l = 0 ->
       exists l',
         run plainLib (2 + S m) 0 (lex (bytes "[]]")) = Done l' /\
         items l' =
           items l ++
           [Item.mk itemError (start l)
                    (Sprintf plainLib "unexexpected dict terminator" [])] /\
         dictDepth l' = -1)
  | Done l => -1 <= arrayDepth l /\ -1 <= dictDepth l
  end.
Proof.
  apply (C5_depth_counters plainLib (bytes "[]]") 2 0).
  vm_compute. discriminate.
Defined.

(** ** C6: the value of an item is a slice of the input *)

(** C6, counterexample: the error item sent on the input "]" has a value
    of 29 bytes, which is not the slice of the input at its position. *)
Lemma C6_error_value_is_no_slice :
  exists it,
    In it (scan plainLib 1 0 (bytes "]")) /\
    Item.val it <>
    slice (bytes "]") (Item.pos it) (Item.pos it + len (Item.val it)).
Proof.
  unfold scan. rewrite plain_scan_array_terminator.
  eexists. split; [left; reflexivity|]. vm_compute. discriminate.
Qed.

(** C6, amended: for every item sent other than the error item (the
    end-of-input item included), the value is the slice
    [input[pos:pos+len(val)]] of the input at the recorded position of the
    item, and that slice is in range.  The value of the error item is the
    text of the error. *)
Theorem C6_value_is_input_slice
  (E : GoLib) (inp : list byte) (n fuel : nat) (it : Item.item) :
  len inp <= max_int ->
  In it (scan E n fuel inp) ->
  Item.typ it <> itemError ->
  0 <= Item.pos it /\ Item.pos it + len (Item.val it) <= len inp /\
  Item.val it = slice inp (Item.pos it) (Item.pos it + len (Item.val it)).
Proof.
  intros M I T. unfold scan in I.
  pose proof (run_inv E inp n fuel M) as V.
  set (o := run E n fuel (lex inp)) in *.
  assert (B : input_is inp (lexer_of o) /\ wfb (lexer_of o) /\
              items_inv (input (lexer_of o)) (start (lexer_of o))
                        (items (lexer_of o))).
  { destruct o; cbn in *; unfold Inv in V; tauto. }
  destruct B as (Ei & (_ & S & P) & (F & _)). unfold input_is in Ei.
  rewrite Ei in *. rewrite Forall_forall in F.
  destruct (F it I T) as (A & B & C). repeat split; [exact A|lia|exact C].
Qed.

(** C6, witness: the left-array item of the scan of "[1]". *)
Lemma C6_value_is_input_slice_witness :
  0 <= 0 /\ 0 + len (bytes "[") <= len (bytes "[1]") /\
  bytes "[" = slice (bytes "[1]") 0 (0 + len (bytes "[")).
Proof.
  apply (C6_value_is_input_slice plainLib (bytes "[1]") 9 9
           (Item.mk itemLeftArray 0 (bytes "["))).
  - vm_compute. discriminate.
  - vm_compute. left. reflexivity.
  - discriminate.
Defined.

(** ** C7: numbers *)

(** C7: when the number scan is entered at offset [pos], with [text] the
    longest text at [pos] made of an optional sign, a run of digits, an
    optional single point and a run of digits, and [rest] the input after
    it: if the rune at the head of [rest] is a delimiter or white space,
    or [rest] is empty, the scan sends the number item [text] and goes
    back to dispatch; otherwise it sends an error item whose message
    formats [text] followed by the bytes of that rune, and ends.  In
    particular "-12.5 " gives one number item "-12.5", and "12.5x" gives
    the error item for "12.5x". *)
Theorem C7_number_scan (E : GoLib) :
  (forall (inp : list byte) (n fuel : nat) (l : lexer),
     len inp <= max_int -> (List.length inp < fuel)%nat ->
     run E n fuel (lex inp) = Busy LexNumber l ->
     let k := number_len (drop (pos l) inp) in
     let text := slice inp (pos l) (pos l + k) in
     let rest := drop (pos l + k) inp in
     exists l',
       run E (n + 1) fuel (lex inp) =
         (if boundary E rest then Busy LexDefault l' else Done l') /\
       items l' =
         items l ++
         [if boundary E rest then Item.mk itemNumber (pos l) text
          else
            Item.mk itemError (pos l)
              (Sprintf E "bad number syntax: %q"
                 [ArgString
                    (text ++
                     slice inp (pos l + k) (pos l + k + next_width rest))])])
  /\
  scan E 9 20 (bytes "-12.5 ") =
    [ Item.mk itemNumber 0 (bytes "-12.5");
      Item.mk itemSpace 5 (bytes " ");
      Item.mk itemEOF 6 [] ] /\
  scan E 9 20 (bytes "12.5x") =
    [ Item.mk itemError 0
        (Sprintf E "bad number syntax: %q" [ArgString (bytes "12.5x")]) ].
Proof.
  split; [|split; vm_compute; reflexivity].
  intros inp n fuel l M F R k text rest.
  pose proof (run_inv E inp n fuel M) as V. rewrite R in V.
  destruct V as (Ei & W & _ & Pre & _). unfold input_is in Ei. cbn in Pre.
  pose proof W as (_ & S & P).
  destruct (scanNumber_spec E fuel l W) as (w & Sc & K0 & K1).
  { rewrite Ei. exact F. }
  rewrite Ei in Sc, K0, K1. fold k in Sc, K0, K1.
  replace (drop k (drop (pos l) inp)) with rest in Sc, K1
    by (unfold rest; rewrite drop_drop by lia; reflexivity).
  unfold run in *. rewrite run_from_app, R. cbn [run_from call].
  unfold lexNumber. rewrite Sc. unfold text.
  destruct (boundary E rest); cbn [negb].
  - eexists. split; [reflexivity|]. simp_lexer. rewrite Ei, Pre, Z.add_0_r.
    reflexivity.
  - unfold errorf. eexists. split; [reflexivity|]. simp_lexer.
    pose proof (next_width_nonneg rest).
    rewrite Ei, Pre. rewrite slice_app by lia. reflexivity.
Qed.

(** C7, witness: the number scan of "12.5x", entered at offset 0. *)
Lemma C7_number_scan_witness :
  exists l',
    run plainLib (1 + 1) 9 (lex (bytes "12.5x")) = Done l' /\
    items l' =
      [Item.mk itemError 0
         (Sprintf plainLib "bad number syntax: %q"
            [ArgString (bytes "12.5" ++ bytes "x")])].
Proof.
  destruct (proj1 (C7_number_scan plainLib) (bytes "12.5x") 1%nat 9%nat
              (mkLexer (bytes "12.5x") 0 0 1 [] 0 0))
    as (l' & R & I).
  - vm_compute. discriminate.
  - vm_compute. lia.
  - vm_compute. reflexivity.
  - exists l'. split; [exact R | exact I].
Defined.

(** ** C8: literal strings *)

(** C8, counterexample: the string item of the scan of "(a(b)c)" is 7
    bytes long, as the input is; no string item of 8 bytes is sent. *)
Lemma C8_string_item_is_7_bytes :
  ~ exists it,
      In it (scan plainLib 9 20 (bytes "(a(b)c)")) /\
      Item.typ it = itemString /\ len (Item.val it) = 8.
Proof.
  intros (it & I & T & L). vm_compute in I.
  destruct I as [<-|[<-|[]]]; vm_compute in L; discriminate.
Qed.

(** C8, amended: when dispatch reads a ['('] at offset [pos], with [body]
    the input after it: a backslash takes a paren that follows it out of
    the count, a bare ['('] adds one to the balance and a bare [')'] takes
    one off, starting from balance 1.  If [body] brings the balance to
    zero after [k] bytes, the scan sends one string item whose value is
    the [1 + k] bytes from the ['('] to that [')'], and goes back to
    dispatch; if not, it sends the error item "unterminated string object"
    and ends.  In particular "(a(b)c)" gives one string item of all its 7
    bytes, and in "(a\)b)" the escaped paren does not close the string. *)
Theorem C8_string_scan (E : GoLib) :
  (forall (inp : list byte) (n fuel : nat) (l : lexer) (body : list byte),
     len inp <= max_int -> (List.length inp < fuel)%nat ->
     run E n fuel (lex inp) = Busy LexDefault l ->
     drop (pos l) inp = x28 :: body ->
     match string_len 1 body with
     | Some k =>
       1 <= k <= len body /\
       exists l',
         run E (n + 2) fuel (lex inp) = Busy LexDefault l' /\
         items l' =
           items l ++
           [Item.mk itemString (pos l) (slice inp (pos l) (pos l + 1 + k))]
     | None =>
       exists l',
         run E (n + 2) fuel (lex inp) = Done l' /\
         items l' =
           items l ++
           [Item.mk itemError (pos l)
                    (Sprintf E "unterminated string object" [])]
     end)
  /\
  scan E 9 20 (bytes "(a(b)c)") =
    [ Item.mk itemString 0 (bytes "(a(b)c)"); Item.mk itemEOF 7 [] ] /\
  len (bytes "(a(b)c)") = 7 /\
  scan E 9 20 (bytes "(a\)b)") =
    [ Item.mk itemString 0 (bytes "(a\)b)"); Item.mk itemEOF 6 [] ].
Proof.
  split; [|repeat split; vm_compute; reflexivity].
  intros inp n fuel l body M F R D.
  pose proof (run_inv E inp n fuel M) as V. rewrite R in V.
  destruct V as (Ei & W & _ & Pre & _). unfold input_is in Ei. cbn in Pre.
  pose proof W as (_ & S & P). rewrite <- Ei in D.
  assert (Lt : pos l < len (input l)) by (eapply drop_cons_lt; [|exact D]; lia).
  assert (D1 : drop (pos l + 1) (input l) = body)
    by (eapply drop_succ; [|exact D]; lia).
  assert (Run : run_from E 2 fuel (Some LexDefault) l =
                run_from E 0 fuel (fst (string_result E l (pos l + 1) 1))
                         (snd (string_result E l (pos l + 1) 1))).
  { cbn [run_from call]. rewrite (lexDefault_open_paren E l body W D).
    cbn [run_from call]. unfold lexStringObj. rewrite lexStringObj_loop_spec.
    - destruct (string_result E l (pos l + 1) 1). reflexivity.
    - exact W.
    - lia.
    - lia.
    - rewrite Ei. unfold len. lia. }
  unfold run in *. rewrite run_from_app, R, Run. clear Run.
  unfold string_result. rewrite D1.
  destruct (string_len 1 body) as [k|] eqn:Q.
  - pose proof (string_len_bound _ _ _ _ (le_n _) Q) as B.
    split; [exact B|]. cbn [fst snd run_from].
    eexists. split; [reflexivity|]. simp_lexer. rewrite Ei, Pre. reflexivity.
  - unfold errorf. cbn [fst snd run_from].
    eexists. split; [reflexivity|]. simp_lexer. rewrite Pre. reflexivity.
Qed.

(** C8, witness: dispatch at the ['('] of "(a(b)c)". *)
Lemma C8_string_scan_witness :
  1 <= 6 <= len (bytes "a(b)c)") /\
  exists l',
    run plainLib (0 + 2) 20 (lex (bytes "(a(b)c)")) = Busy LexDefault l' /\
    items l' = [Item.mk itemString 0 (bytes "(a(b)c)")].
Proof.
  exact (proj1 (C8_string_scan plainLib) (bytes "(a(b)c)") 0%nat 20%nat
           (lex (bytes "(a(b)c)")) (bytes "a(b)c)")
           ltac:(vm_compute; discriminate) ltac:(vm_compute; lia)
           eq_refl eq_refl).
Defined.

(** ** C9: streams *)

(** C9: the scan of "stream\nBINARYDATAendstream" sends, in order, the
    keyword item "stream", one stream-body item "\nBINARYDATA", the
    end-stream item "endstream", and then the end-of-input item.  In every
    scan that enters the stream-body skip, if the marker "endstream"
    occurs in the input from [pos] on, with its first instance [i] bytes
    after [pos], the scan sends the input up to the marker as one
    stream-body item and the marker itself as the end-stream item, and
    goes back to dispatch; if it does not occur the scan sends the error
    item "unclosed stream" and ends. *)
Theorem C9_stream_body (E : GoLib) :
  scan E 9 20 (bytes "stream" ++ [x0a] ++ bytes "BINARYDATAendstream") =
    [ Item.mk itemStream 0 (bytes "stream");
      Item.mk itemStreamBody 6 (x0a :: bytes "BINARYDATA");
      Item.mk itemEndStream 17 (bytes "endstream");
      Item.mk itemEOF 26 [] ] /\
  forall (inp : list byte) (n fuel : nat) (l : lexer),
    len inp <= max_int ->
    run E n fuel (lex inp) = Busy LexStream l ->
    let i := Index (drop (pos l) inp) rightStream in
    if i <? 0 then
      exists l',
        run E (n + 1) fuel (lex inp) = Done l' /\
        items l' =
          items l ++
          [Item.mk itemError (start l) (Sprintf E "unclosed stream" [])]
    else
      (forall j, 0 <= j < i ->
         HasPrefix (drop (pos l + j) inp) rightStream = false) /\
      slice inp (pos l + i) (pos l + i + len rightStream) = rightStream /\
      exists l',
        run E (n + 1) fuel (lex inp) = Busy LexDefault l' /\
        items l' =
          items l ++
          [ Item.mk itemStreamBody (start l) (slice inp (start l) (pos l + i));
            Item.mk itemEndStream (pos l + i) rightStream ].
Proof.
  split; [vm_compute; reflexivity|].
  intros inp n fuel l M R i.
  pose proof (run_inv E inp n fuel M) as V. rewrite R in V.
  destruct V as (Ei & W & _ & _ & _). unfold input_is in Ei.
  pose proof W as (_ & S & P). rewrite Ei in *.
  unfold run in *. rewrite run_from_app, R. cbn [run_from call].
  unfold lexStream. rewrite Ei. fold i.
  assert (K : 0 <= 0) by lia.
  destruct (i <? 0) eqn:Q; bool_to_prop.
  - unfold errorf. eexists. split; [reflexivity|]. reflexivity.
  - destruct (Index_from_bound rightStream (drop (pos l) inp) 0 i eq_refl K)
      as [B|(_ & B)]; [lia|].
    rewrite len_drop in B by lia.
    destruct (Index_from_found rightStream (drop (pos l) inp) 0 i eq_refl K Q)
      as (F & N).
    rewrite Z.sub_0_r in F, N, B. rewrite drop_drop in F by lia.
    assert (Sl : slice inp (pos l + i) (pos l + i + len rightStream) = rightStream).
    { rewrite slice_firstn_drop by (unfold len; lia).
      unfold len. rewrite Nat2Z.id. apply HasPrefix_firstn. exact F. }
    split.
    { intros j J. rewrite <- drop_drop by lia. apply N. lia. }
    split; [exact Sl|].
    change (len rightStream) with 9 in *.
    eexists. split; [reflexivity|]. simp_lexer. no_wrap. rewrite Ei.
    rewrite <- app_assoc. cbn [app]. rewrite Sl. reflexivity.
Qed.

(** C9, witness: the stream-body skip of "stream\nBINARYDATAendstream",
    entered at offset 6 with the marker 11 bytes on. *)
Lemma C9_stream_body_witness :
  let inp := bytes "stream" ++ [x0a] ++ bytes "BINARYDATAendstream" in
  let l := mkLexer inp 6 6 1 [Item.mk itemStream 0 (bytes "stream")] 0 0 in
  (forall j, 0 <= j < 11 ->
     HasPrefix (drop (pos l + j) inp) rightStream = false) /\
  slice inp (pos l + 11) (pos l + 11 + len rightStream) = rightStream /\
  exists l',
    run plainLib (2 + 1) 20 (lex inp) = Busy LexDefault l' /\
    items l' =
      items l ++
      [ Item.mk itemStreamBody (start l) (slice inp (start l) (pos l + 11));
        Item.mk itemEndStream (pos l + 11) rightStream ].
Proof.
  intros inp l.
  exact (proj2 (C9_stream_body plainLib) inp 2%nat 20%nat l
           ltac:(vm_compute; discriminate) eq_refl).
Defined.

(** ** C10: a sign or a point with no digits *)

(** C10: for every input that is one sign or one decimal point followed
    by a delimiter, white space or the end of the input, the scan sends
    the number item whose value is that one byte, a value with no digit,
    and goes back to dispatch; no error item is sent. *)
Theorem C10_lone_sign_or_point
  (E : GoLib) (c : byte) (rest : list byte) (fuel : nat) :
  c = x2b \/ c = x2d \/ c = x2e ->
  boundary E rest = true ->
  len (c :: rest) <= max_int ->
  (List.length (c :: rest) < fuel)%nat ->
  exists l',
    run E 2 fuel (lex (c :: rest)) = Busy LexDefault l' /\
    items l' = [Item.mk itemNumber 0 [c]] /\
    existsb (fun b => digit_rune (rune b)) [c] = false.
Proof.
  intros C B M F. pose proof (len_nonneg (c :: rest)) as L0.
  assert (W : wfb (lex (c :: rest))).
  { unfold wfb, lex. cbn [input pos start]. lia. }
  assert (W1 : wfb (at_pos (lex (c :: rest)) 0 1)).
  { apply wfb_at; [exact W|]. unfold lex. cbn [input pos]. lia. }
  destruct (scanNumber_spec E fuel _ W1) as (w & Sc & K0 & K1).
  { exact F. }
  unfold at_pos, set_pos, set_width, lex in Sc.
  cbn [pos input start width items arrayDepth dictDepth] in Sc.
  rewrite !drop_0 in Sc.
  rewrite (number_len_lone E c rest C B) in Sc.
  rewrite drop_1_cons, B in Sc.
  unfold run. cbn [run_from call].
  rewrite (lexDefault_sign_point E (lex (c :: rest)) c rest C W eq_refl).
  cbn [run_from call]. unfold lexNumber.
  unfold at_pos, set_pos, set_width, lex.
  cbn [pos input start width items arrayDepth dictDepth].
  rewrite Sc. cbn [negb].
  eexists. split; [reflexivity|]. split; [reflexivity|].
  destruct C as [-> | [-> | ->]]; reflexivity.
Qed.

(** C10, witness: the input "+". *)
Lemma C10_lone_sign_or_point_witness :
  exists l',
    run plainLib 2 9 (lex [x2b]) = Busy LexDefault l' /\
    items l' = [Item.mk itemNumber 0 [x2b]] /\
    existsb (fun b => digit_rune (rune b)) [x2b] = false.
Proof.
  apply (C10_lone_sign_or_point plainLib x2b [] 9).
  - left. reflexivity.
  - reflexivity.
  - vm_compute. discriminate.
  - vm_compute. lia.
Defined.

(** * Further properties *)


(** ** The item sequence *)

Lemma chain_snoc its : forall s e it,
  chain s its e -> Item.pos it = e ->
  chain s (its ++ [it]) (e + len (Item.val it)).
Proof.
  induction its as [|a r IH]; intros s e it C P; cbn [chain app] in *.
  - rewrite C. split; [exact P | reflexivity].
  - destruct C as (A & C). split; [exact A|]. apply IH; assumption.
Qed.

Lemma tiled_emit inp its s p t :
  tiled its s -> 0 <= s <= p -> p <= len inp ->
  terminal_type t = false -> (t <> itemStreamBody -> s < p) ->
  tiled (its ++ [Item.mk t s (slice inp s p)]) p.
Proof.
  intros (P & S & C) B L T N. unfold tiled.
  split; [|split].
  - apply Forall_app. split; [exact P|]. constructor; [exact T|constructor].
  - apply Forall_app. split; [exact S|]. constructor; [|constructor].
    intros Q. cbn [Item.typ Item.val] in *. rewrite len_slice by lia.
    specialize (N Q). lia.
  - pose proof (chain_snoc its 0 s (Item.mk t s (slice inp s p)) C eq_refl)
      as H.
    cbn [Item.val] in H. rewrite len_slice in H by lia.
    replace (s + (p - s)) with p in H by lia. exact H.
Qed.

Lemma count_typ_snoc t its it :
  count_typ t (its ++ [it]) =
  count_typ t its + (if itemType_eqb (Item.typ it) t then 1 else 0).
Proof.
  unfold count_typ. rewrite filter_app, length_app. cbn [filter].
  destruct (itemType_eqb (Item.typ it) t); cbn [List.length]; lia.
Qed.

Lemma open_arrays_snoc its t p v :
  open_arrays (its ++ [Item.mk t p v]) =
  open_arrays its +
  match t with itemLeftArray => 1 | itemRightArray => -1 | _ => 0 end.
Proof.
  unfold open_arrays. rewrite !count_typ_snoc. cbn [Item.typ].
  destruct t; cbn [itemType_eqb]; lia.
Qed.

Lemma open_dicts_snoc its t p v :
  open_dicts (its ++ [Item.mk t p v]) =
  open_dicts its +
  match t with itemLeftDict => 1 | itemRightDict => -1 | _ => 0 end.
Proof.
  unfold open_dicts. rewrite !count_typ_snoc. cbn [Item.typ].
  destruct t; cbn [itemType_eqb]; lia.
Qed.

Lemma never_negative_snoc its it :
  never_negative its ->
  0 <= open_arrays (its ++ [it]) -> 0 <= open_dicts (its ++ [it]) ->
  never_negative (its ++ [it]).
Proof.
  intros N A D k. rewrite firstn_app.
  destruct (Nat.le_gt_cases k (List.length its)) as [L|L].
  - replace (k - List.length its)%nat with 0%nat by lia.
    cbn [firstn]. rewrite app_nil_r. apply N.
  - rewrite firstn_all2 by lia.
    destruct (k - List.length its)%nat as [|m] eqn:Q; [lia|].
    cbn [firstn]. rewrite firstn_nil. split; assumption.
Qed.

Lemma never_negative_nil : never_negative [].
Proof.
  intros k. rewrite firstn_nil. split; reflexivity.
Qed.

Lemma never_negative_all its :
  never_negative its -> 0 <= open_arrays its /\ 0 <= open_dicts its.
Proof.
  intros N. specialize (N (List.length its)). rewrite firstn_all in N. exact N.
Qed.

Lemma keytoks_keyword k t :
  map_lookup keytoks k = Some t -> keyword_type t = true.
Proof.
  unfold keytoks. cbn [map_lookup].
  repeat match goal with
  | |- context [if ?c then _ else _] => destruct c
  end; intros H; inversion H; reflexivity.
Qed.

Lemma rune_eq_byte a b : rune a = rune b -> a = b.
Proof.
  unfold rune. intros H. apply N2Z.inj in H.
  pose proof (Byte.of_to_N a) as A. pose proof (Byte.of_to_N b) as B.
  rewrite H in A. congruence.
Qed.

Lemma slice_head s a c t : 0 <= a -> drop a s = c :: t -> slice s a (a + 1) = [c].
Proof.
  intros A D. unfold slice. rewrite D.
  replace (a + 1 - a) with 1 by lia. reflexivity.
Qed.

Lemma head_is_slice p s a b :
  0 <= a < b -> head_is p (slice s a b) = head_is p (drop a s).
Proof.
  intros A. unfold slice. destruct (drop a s) as [|c t].
  - rewrite firstn_nil. reflexivity.
  - destruct (Z.to_nat (b - a)) as [|n] eqn:Q; [lia|]. reflexivity.
Qed.

(** A rune below [RuneSelf] is the first byte of the input. *)
Lemma next_rune_ascii s :
  0 <= next_rune s < 0x80 ->
  exists c t, s = c :: t /\ rune c = next_rune s /\ next_width s = 1.
Proof.
  destruct s as [|c t]; cbn [next_rune next_width]; [unfold eof; lia|].
  destruct (DecodeRuneInString (c :: t)) as [r w] eqn:D. cbn [fst snd].
  intros R. exists c, t.
  destruct (DecodeRune_cases _ _ _ _ D) as [(_ & -> & ->)|(_ & ? & _)]; [|lia].
  repeat split.
Qed.

Lemma next_width_pos s : 0 <= next_rune s -> 0 < next_width s.
Proof.
  destruct s as [|c t]; cbn [next_rune next_width]; [unfold eof; lia|].
  destruct (DecodeRuneInString (c :: t)) as [r w] eqn:D. cbn [fst snd].
  intros _.
  destruct (DecodeRune_cases _ _ _ _ D) as [(_ & _ & ->)|(_ & _ & ? & _)]; lia.
Qed.

(** The byte at the head of the input when the rune read is the ASCII
    character [c]. *)
Lemma next_rune_is s c :
  0 <= c < 0x80 -> next_rune s = c ->
  starts_with c s /\ next_width s = 1 /\
  exists b t, s = b :: t /\ rune b = c.
Proof.
  intros C R. destruct (next_rune_ascii s) as (b & t & -> & B & W); [lia|].
  unfold starts_with. cbn [head_is]. rewrite B, R, Z.eqb_refl.
  split; [reflexivity|]. split; [exact W|]. exists b, t.
  split; [reflexivity|congruence].
Qed.

Section Shape.

Variable E : GoLib.
Variable inp : list byte.

Lemma IsSpace_nonneg r : IsSpace E r = true -> 0 <= r.
Proof.
  intros H. destruct (Z_lt_ge_dec r 0) as [N|N]; [|lia].
  unfold IsSpace, isExcludingLatin in H.
  destruct (0 <=? r) eqn:A; bool_to_prop; [lia|]. cbn [andb] in H.
  destruct (r <? 0) eqn:B; bool_to_prop; [discriminate|lia].
Qed.

Lemma isAlphaNumeric_nonneg r : isAlphaNumeric E r = true -> 0 <= r.
Proof.
  intros H. destruct (Z_lt_ge_dec r 0) as [N|N]; [|lia].
  unfold isAlphaNumeric, IsLetter, IsDigit, isExcludingLatin, MaxLatin1 in H.
  destruct (r =? 95) eqn:A; bool_to_prop; [lia|].
  destruct (0 <=? r) eqn:B; bool_to_prop; [lia|].
  destruct (r <? 0) eqn:C; bool_to_prop; [|lia].
  destruct (r <=? 255) eqn:D; bool_to_prop; [|lia].
  destruct (48 <=? r) eqn:F; bool_to_prop; [lia|]. discriminate.
Qed.

Lemma item_ok_snoc s its it :
  Forall (item_ok E s) its -> item_ok E s it ->
  Forall (item_ok E s) (its ++ [it]).
Proof.
  intros A B. apply Forall_app. split; [exact A|]. constructor; [exact B|].
  constructor.
Qed.

(** The item that a state function with a loop sends fits its type. *)
Lemma emitted_item_ok f l q t :
  wfb l -> entered E f l -> pos l <= q -> start l < q ->
  emitted_by f t (slice (input l) (start l) q) ->
  item_ok E (input l) (Item.mk t (start l) (slice (input l) (start l) q)) /\
  terminal_type t = false /\ bracket_type t = false.
Proof.
  intros (M & S & P) En Q Lt Em.
  assert (Hd : forall p,
             head_is p (slice (input l) (start l) q) =
             head_is p (drop (start l) (input l))).
  { intros p. apply head_is_slice. lia. }
  unfold item_ok, starts_with in *. cbn [Item.typ Item.val Item.pos].
  destruct f; cbn [emitted_by entered] in Em, En; try contradiction;
    try (subst t; rewrite ?Hd; repeat split; tauto).
  destruct (map_lookup keytoks (slice (input l) (start l) q)) as [k|] eqn:K.
  - subst t. pose proof (keytoks_keyword _ _ K) as Kw.
    destruct k; try discriminate; repeat split; exact K.
  - subst t. repeat split; tauto.
Qed.

(** A state function of that shape keeps the second invariant. *)
Lemma shape_inv2 f l st' l' :
  Inv inp (Some f) l -> Inv2 E (Some f) l -> dict_ahead f = 0 ->
  shape E f l st' l' -> Inv2 E st' l'.
Proof.
  intros (Ei & W & _ & _ & D) (T & Nn & A & Dd & En & Ok) F S.
  pose proof W as (M & B & P).
  pose proof (never_negative_all _ Nn) as (Na & Nd).
  destruct S as [l1 t (p & w & -> & Q) Lt Em|l1 format args (p & w & -> & Q)].
  - simp_lexer.
    destruct (emitted_item_ok f l p t W En ltac:(lia) Lt Em) as (Io & Tt & Bt).
    unfold Inv2. simp_lexer.
    split; [apply tiled_emit; (assumption || lia)|].
    split; [apply never_negative_snoc; [exact Nn| |];
            rewrite ?open_arrays_snoc, ?open_dicts_snoc;
            destruct t; try discriminate; lia|].
    rewrite open_arrays_snoc, open_dicts_snoc.
    split; [destruct t; try discriminate; cbn [itemType_eqb dict_ahead]; lia|].
    split; [destruct t; try discriminate; cbn [itemType_eqb dict_ahead]; lia|].
    split; [destruct (itemType_eqb t itemStream); exact I|].
    apply item_ok_snoc; assumption.
  - unfold Inv2, errorf. simp_lexer.
    eexists _, _. split; [reflexivity|]. cbn [Item.pos Item.typ].
    split; [exact T|]. split; [exact Nn|]. split; [exact Ok|].
    left. reflexivity.
Qed.

End Shape.


(** ** The shape of the state functions with a loop *)

Lemma adv_progress l l1 : adv l l1 -> start l < pos l -> start l1 < pos l1.
Proof. intros (p & w & -> & Q) H. simp_lexer. lia. Qed.

Lemma accept_true_progress l v l' :
  wfb l -> accept l v = (true, l') -> pos l + 1 <= pos l'.
Proof.
  intros W H. unfold accept in H.
  destruct (next_spec l W) as (r & w & N & R). rewrite N in H.
  destruct (0 <=? IndexRune v r) eqn:Q; [|discriminate].
  inversion H; subst. simp_lexer.
  destruct (rune_at_eof _ _ _ R) as (Ef & _).
  destruct (rune_at_width _ _ _ R) as (W0 & _).
  assert (r <> eof).
  { intros ->. unfold IndexRune, eof in Q. cbn in Q. discriminate. }
  assert (w <> 0) by tauto. lia.
Qed.

Lemma acceptRun_progress v p fuel l l' :
  char_set v p -> wfb l ->
  head_is p (drop (pos l) (input l)) = true ->
  acceptRun fuel l v = Some l' -> pos l + 1 <= pos l'.
Proof.
  intros (A & B) W H R. unfold acceptRun in R.
  destruct (acceptRun_loop fuel l v) as [l1|] eqn:L; [|discriminate].
  inversion R; subst; clear R.
  destruct fuel as [|n]; [discriminate|]. cbn [acceptRun_loop] in L.
  destruct (next_spec l W) as (r & w & N & Ra). rewrite N, A in L.
  destruct (rune_at_head l r w p B Ra) as (Hp & H1). rewrite H in Hp.
  rewrite Hp in L. rewrite (H1 Hp) in *.
  pose proof W as (M & S & P). destruct (rune_at_width _ _ _ Ra) as (_ & W1).
  assert (W' : wfb (at_pos l (pos l + 1) 1)) by (apply wfb_at; [exact W|lia]).
  destruct (acceptRun_loop_last _ _ _ _ W' L) as (l0 & r0 & (q & w0 & -> & Q) & N0).
  assert (Pk : peek (at_pos (at_pos l (pos l + 1) 1) q w0) = (r0, backup l1)).
  { unfold peek. rewrite N0. reflexivity. }
  assert (W0 : wfb (at_pos (at_pos l (pos l + 1) 1) q w0)).
  { apply wfb_at; [exact W'|exact Q]. }
  destruct (peek_spec _ W0) as (r1 & w1 & Pk1 & _). rewrite Pk1 in Pk.
  inversion Pk; subst. simp_lexer. lia.
Qed.

Section Shapes.

Variable E : GoLib.

Ltac by_emit :=
  match goal with
  | |- shape ?e ?f ?l _ (emit ?a ?t) => apply (shape_emit e f l a t)
  end.

Lemma lexComment_shape fuel l st' l' :
  wfb l -> start l < pos l ->
  lexComment fuel l = Some (st', l') -> shape E LexComment l st' l'.
Proof.
  intros W Lt H. unfold lexComment in H.
  destruct (lexComment_loop fuel 0 l) as [[r l1]|] eqn:L; [|discriminate].
  assert (A1 : adv l l1) by (eapply lexComment_loop_adv; eauto).
  inversion H; subst; clear H.
  assert (A2 : adv l (if r =? 13 then snd (accept l1 [x0a]) else l1)).
  { destruct (r =? 13); [|exact A1].
    destruct (accept l1 [x0a]) as [b l2] eqn:Ac. cbn [snd].
    eapply adv_trans; [exact A1|].
    eapply accept_adv; [|exact Ac]. eauto using adv_wfb. }
  by_emit; eauto using adv_progress; reflexivity.
Qed.

Lemma lexName_shape fuel : forall l0 l st' l',
  wfb l0 -> start l0 < pos l0 -> adv l0 l ->
  lexName E fuel l = Some (st', l') -> shape E LexName l0 st' l'.
Proof.
  induction fuel as [|n IH]; intros l0 l st' l' W0 Lt A H; [discriminate|].
  cbn [lexName] in H. destruct (next l) as [r l1] eqn:N.
  assert (W : wfb l) by eauto using adv_wfb.
  assert (A1 : adv l0 l1) by (eapply adv_trans; [exact A|eapply next_adv; eauto]).
  assert (A2 : adv l0 (backup l1)).
  { eapply adv_trans; [exact A|]. eapply peek_adv; [exact W|].
    unfold peek. rewrite N. reflexivity. }
  destruct (isDelim r || IsSpace E r || (r =? eof)).
  - inversion H; subst. by_emit; eauto using adv_progress; reflexivity.
  - destruct ((32 <? r) && (r <? 127)).
    + eapply IH; [exact W0|exact Lt|exact A1|exact H].
    + inversion H; subst.
      apply (shape_error E _ l0 l1 "illegal character in name: %#U" [ArgRune r]).
      exact A1.
Qed.

Lemma lexStringObj_loop_shape fuel : forall balance l0 l st' l',
  wfb l0 -> start l0 < pos l0 -> adv l0 l ->
  lexStringObj_loop E fuel balance l = Some (st', l') -> shape E LexStringObj l0 st' l'.
Proof.
  induction fuel as [|n IH]; intros balance l0 l st' l' W0 Lt A H; [discriminate|].
  cbn [lexStringObj_loop] in H. destruct (next l) as [r l1] eqn:N.
  assert (W : wfb l) by eauto using adv_wfb.
  assert (A1 : adv l0 l1) by (eapply adv_trans; [exact A|eapply next_adv; eauto]).
  destruct (r =? 92).
  - destruct (accept l1 (bytes "()")) as [b l2] eqn:Ac.
    eapply IH; [exact W0|exact Lt| |exact H].
    eapply adv_trans; [exact A1|].
    eapply accept_adv; [|exact Ac]. eauto using adv_wfb.
  - destruct (r =? 40); [eapply IH; [exact W0|exact Lt|exact A1|exact H]|].
    destruct (r =? 41).
    + destruct (subi balance 1 <=? 0); [|eapply IH; [exact W0|exact Lt|exact A1|exact H]].
      inversion H; subst. by_emit; eauto using adv_progress; reflexivity.
    + destruct (r =? eof); [|eapply IH; [exact W0|exact Lt|exact A1|exact H]].
      inversion H; subst.
      apply (shape_error E _ l0 l1 "unterminated string object" []). exact A1.
Qed.

Lemma lexHexObj_shape fuel : forall l0 l st' l',
  wfb l0 -> start l0 < pos l0 -> adv l0 l ->
  lexHexObj E fuel l = Some (st', l') -> shape E LexHexObj l0 st' l'.
Proof.
  induction fuel as [|n IH]; intros l0 l st' l' W0 Lt A H; [discriminate|].
  cbn [lexHexObj] in H. destruct (next l) as [r l1] eqn:N.
  assert (W : wfb l) by eauto using adv_wfb.
  assert (A1 : adv l0 l1) by (eapply adv_trans; [exact A|eapply next_adv; eauto]).
  destruct ((0 <=? IndexRune (bytes "0123456789abcdefABCDEF") r) || IsSpace E r);
    [eapply IH; [exact W0|exact Lt|exact A1|exact H]|].
  destruct (r =? 62).
  - inversion H; subst. by_emit; eauto using adv_progress; reflexivity.
  - destruct (r =? eof); inversion H; subst.
    + apply (shape_error E _ l0 l1 "unterminated hexstring" []). exact A1.
    + apply (shape_error E _ l0 l1 "illegal character in hexstring: %#U"
                         [ArgRune r]).
      exact A1.
Qed.

Lemma lexSpace_shape fuel l st' l' :
  wfb l -> start l < pos l ->
  lexSpace E fuel l = Some (st', l') -> shape E LexSpace l st' l'.
Proof.
  intros W Lt H. unfold lexSpace in H.
  destruct (lexSpace_loop E fuel l) as [l1|] eqn:L; [|discriminate].
  inversion H; subst.
  assert (A1 : adv l l1) by (eapply lexSpace_loop_adv; eauto).
  by_emit; eauto using adv_progress; reflexivity.
Qed.

Lemma lexWord_shape fuel l st' l' :
  wfb l -> start l < pos l ->
  lexWord E fuel l = Some (st', l') -> shape E LexWord l st' l'.
Proof.
  intros W Lt H. unfold lexWord in H.
  destruct (lexWord_loop E fuel l) as [l1|] eqn:L; [|discriminate].
  assert (A1 : adv l l1) by (eapply lexWord_loop_adv; eauto).
  destruct (map_lookup keytoks (slice (input l1) (start l1) (pos l1)))
    as [tok|] eqn:K.
  - destruct tok; inversion H; subst;
      match goal with
      | |- shape _ _ _ _ (emit ?a ?t) => apply (shape_emit E LexWord l a t)
      end; eauto using adv_progress;
      unfold emitted_by; rewrite K; reflexivity.
  - inversion H; subst. by_emit; eauto using adv_progress.
    unfold emitted_by. rewrite K. reflexivity.
Qed.

Lemma scanNumber_tail_adv l3 ok l' :
  wfb l3 ->
  (let '(p, l) := peek l3 in
   if isDelim p then Some (true, l)
   else
     let '(p, l) := peek l in
     if IsSpace E p then Some (true, l)
     else
       let '(p, l) := peek l in
       if p =? eof then Some (true, l)
       else let '(_, l) := next l in Some (false, l)) = Some (ok, l') ->
  adv l3 l'.
Proof.
  intros W3 H.
  destruct (peek l3) as [p4 l4] eqn:P4.
  assert (S4 : adv l3 l4) by (eapply peek_adv; eauto).
  assert (W4 : wfb l4) by eauto using adv_wfb.
  destruct (isDelim p4); [inversion H; subst; exact S4|].
  destruct (peek l4) as [p5 l5] eqn:P5.
  assert (S5 : adv l4 l5) by (eapply peek_adv; eauto).
  assert (W5 : wfb l5) by eauto using adv_wfb.
  destruct (IsSpace E p5); [inversion H; subst; eauto using adv_trans|].
  destruct (peek l5) as [p6 l6] eqn:P6.
  assert (S6 : adv l5 l6) by (eapply peek_adv; eauto).
  assert (W6 : wfb l6) by eauto using adv_wfb.
  destruct (p6 =? eof); [inversion H; subst; eauto using adv_trans|].
  destruct (next l6) as [p7 l7] eqn:P7.
  assert (S7 : adv l6 l7) by (eapply next_adv; eauto).
  inversion H; subst. eauto using adv_trans.
Qed.

(** The number scan reads at least the byte it was entered for. *)
Lemma scanNumber_progress fuel l ok l' :
  wfb l -> head_is number_start (drop (pos l) (input l)) = true ->
  scanNumber E fuel l = Some (ok, l') -> pos l + 1 <= pos l'.
Proof.
  intros W Hd H. pose proof W as (M & S & P). unfold scanNumber in H.
  replace (accept l (bytes "+-"))
    with (accept (at_pos l (pos l) (width l)) (bytes "+-")) in H
    by (rewrite at_pos_self; reflexivity).
  destruct (accept_at l (pos l) (width l) _ _ W ltac:(lia) char_set_sign)
    as (w0 & A0 & B0).
  fold sign_rune in A0, B0. rewrite A0 in H. clear A0.
  set (s := drop (pos l) (input l)) in *.
  set (a := if head_is sign_rune s then 1 else 0) in *.
  assert (Ha : 0 <= a) by (unfold a; destruct (head_is sign_rune s); lia).
  assert (W0 : wfb (at_pos l (pos l + a) w0)) by (apply wfb_at; [exact W|lia]).
  destruct (acceptRun fuel (at_pos l (pos l + a) w0) (bytes "0123456789"))
    as [l1|] eqn:A1; [|discriminate].
  pose proof (acceptRun_adv _ _ _ _ W0 A1) as Ad1. unfold adv in Ad1.
  destruct Ad1 as (q1 & w1 & Eq1 & Q1). rewrite at_pos_at_pos in Eq1.
  subst l1. cbn [pos input at_pos set_pos set_width] in Q1.
  assert (W1 : wfb (at_pos l q1 w1)) by (apply wfb_at; [exact W|lia]).
  destruct (accept (at_pos l q1 w1) (bytes ".")) as [b2 l2] eqn:A2.
  pose proof (accept_adv _ _ _ _ W1 A2) as Ad2. unfold adv in Ad2.
  destruct Ad2 as (q2 & w2 & Eq2 & Q2). rewrite at_pos_at_pos in Eq2.
  subst l2. cbn [pos input at_pos set_pos set_width] in Q2.
  assert (W2 : wfb (at_pos l q2 w2)) by (apply wfb_at; [exact W|lia]).
  assert (Ge : q2 <= pos l').
  { destruct b2.
    - destruct (acceptRun fuel (at_pos l q2 w2) (bytes "0123456789"))
        as [l3|] eqn:A3; [|discriminate].
      pose proof (acceptRun_adv _ _ _ _ W2 A3) as S3.
      pose proof (scanNumber_tail_adv _ _ _ (adv_wfb _ _ W2 S3) H) as Fin.
      destruct (adv_trans _ _ _ S3 Fin) as (q & w & -> & Q).
      cbn [pos input at_pos set_pos set_width] in *. lia.
    - destruct (scanNumber_tail_adv _ _ _ W2 H) as (q & w & -> & Q).
      cbn [pos input at_pos set_pos set_width] in *. lia. }
  (* one of the three has read a byte *)
  destruct (head_is sign_rune s) eqn:Sg; [unfold a in *; lia|].
  replace (pos l + a) with (pos l) in * by (unfold a; lia).
  destruct (head_is digit_rune s) eqn:Dg.
  { pose proof (acceptRun_progress _ _ _ _ _ char_set_digits W0 Dg A1) as Pr.
    cbn [pos input at_pos set_pos set_width] in Pr. lia. }
  assert (Pt : head_is point_rune s = true).
  { unfold number_start in Hd. destruct s as [|c t]; [discriminate|].
    cbn [head_is] in *. rewrite Sg, Dg in Hd.
    rewrite orb_false_l, orb_false_r in Hd. exact Hd. }
  destruct (Z.eq_dec q1 (pos l)) as [->|Ne]; [|lia].
  destruct (accept_at l (pos l) w1 _ _ W ltac:(lia) char_set_point)
    as (w2' & A2' & _).
  fold point_rune in A2'. fold s in A2'. rewrite Pt in A2'.
  rewrite A2' in A2. inversion A2. lia.
Qed.

Lemma lexNumber_shape fuel l st' l' :
  wfb l -> pos l = start l ->
  head_is number_start (drop (pos l) (input l)) = true ->
  lexNumber E fuel l = Some (st', l') -> shape E LexNumber l st' l'.
Proof.
  intros W Eq Hd H. unfold lexNumber in H.
  destruct (scanNumber E fuel l) as [[ok l1]|] eqn:Sc; [|discriminate].
  pose proof (scanNumber_adv E _ _ _ _ W Sc) as A.
  pose proof (scanNumber_progress _ _ _ _ W Hd Sc) as Pr.
  assert (Lt : start l1 < pos l1).
  { destruct A as (q & w & -> & Q). simp_lexer. lia. }
  destruct ok; cbn [negb] in H; inversion H; subst.
  - by_emit; auto. reflexivity.
  - apply shape_error. exact A.
Qed.

End Shapes.

(** ** The second invariant *)

Lemma number_start_ascii r : number_start r = true -> 0 <= r < 0x80.
Proof.
  unfold number_start, sign_rune, point_rune, digit_rune. intros H.
  repeat match type of H with
  | (_ || _) = true => apply orb_true_iff in H; destruct H as [H|H]
  end; bool_to_prop; lia.
Qed.

Section Invariant2.

Variable E : GoLib.
Variable inp : list byte.

(** What [lexDefault] has read when it hands over. *)
Lemma entered_intro f l l' r w :
  wfb l -> pos l = start l -> rune_at l r w ->
  input l' = input l -> start l' = start l -> pos l' = pos l + w ->
  match f with
  | LexComment => r = 0x25
  | LexName => r = 0x2F
  | LexStringObj => r = 0x28
  | LexHexObj => r = 0x3C
  | LexSpace => IsSpace E r = true
  | LexWord => isAlphaNumeric E r = true
  | _ => False
  end ->
  entered E f l'.
Proof.
  intros W P R Ei Es Ep C.
  destruct (rune_at_next l r w W R) as (Er & Ew).
  unfold entered. rewrite Ei, Es, Ep, <- P.
  destruct f; try contradiction;
    try (destruct (next_rune_is (drop (pos l) (input l)) r) as (Sw & Nw & _);
         [lia|congruence|]; subst r; split; [lia|exact Sw]).
  - rewrite <- Er, <- Ew. split; [lia|]. split; [|exact C].
    rewrite Ew. apply next_width_pos. rewrite <- Er.
    apply IsSpace_nonneg with (E := E). exact C.
  - rewrite <- Er, <- Ew. split; [lia|]. split; [|exact C].
    rewrite Ew. apply next_width_pos. rewrite <- Er.
    apply isAlphaNumeric_nonneg with (E := E). exact C.
Qed.

Lemma entered_number l l' r w :
  wfb l -> pos l = start l -> rune_at l r w ->
  input l' = input l -> start l' = start l ->
  number_start r = true -> entered E LexNumber l'.
Proof.
  intros W P R Ei Es C. unfold entered. rewrite Ei, Es, <- P.
  destruct (rune_at_head l r w number_start number_start_ascii R) as (Hn & _).
  congruence.
Qed.

Lemma two_bytes l r w r2 w2 c :
  wfb l -> rune_at l r w -> rune_at (at_pos l (pos l + w) w) r2 w2 ->
  0 <= c < 0x80 -> r = c -> r2 = c ->
  exists b, rune b = c /\ firstn 2 (drop (pos l) (input l)) = [b; b].
Proof.
  intros W R R2 C Hr Hr2. pose proof W as (M & S & P).
  destruct (rune_at_next l r w W R) as (Er & Ew).
  destruct (next_rune_is (drop (pos l) (input l)) c C ltac:(congruence))
    as (_ & Nw & b & t & D & B).
  assert (W1 : wfb (at_pos l (pos l + w) w)).
  { apply wfb_at; [exact W|]. destruct (rune_at_width _ _ _ R). lia. }
  destruct (rune_at_next _ r2 w2 W1 R2) as (Er2 & _).
  simp_lexer. rewrite Ew, Nw in Er2.
  rewrite (drop_succ (input l) (pos l) b t ltac:(lia) D) in Er2.
  destruct (next_rune_is t c C ltac:(congruence)) as (_ & _ & b2 & t2 & D2 & B2).
  exists b. split; [exact B|]. rewrite D, D2. cbn [firstn].
  f_equal. f_equal. apply rune_eq_byte. congruence.
Qed.

Lemma entered_dict f l l' r w r2 w2 :
  wfb l -> pos l = start l -> rune_at l r w ->
  rune_at (at_pos l (pos l + w) w) r2 w2 ->
  input l' = input l -> start l' = start l ->
  match f with
  | LexLeftDict => r = 0x3C /\ r2 = 0x3C
  | LexRightDict => r = 0x3E /\ r2 = 0x3E
  | _ => False
  end ->
  entered E f l'.
Proof.
  intros W P R R2 Ei Es C. unfold entered. rewrite Ei, Es, <- P.
  destruct f; try contradiction; destruct C as (C1 & C2).
  - destruct (two_bytes l r w r2 w2 0x3C W R R2 ltac:(lia) C1 C2) as (b & B & F).
    rewrite F. replace b with x3c; [reflexivity|].
    apply rune_eq_byte. rewrite B. reflexivity.
  - destruct (two_bytes l r w r2 w2 0x3E W R R2 ltac:(lia) C1 C2) as (b & B & F).
    rewrite F. replace b with x3e; [reflexivity|].
    apply rune_eq_byte. rewrite B. reflexivity.
Qed.

Lemma bracket_ok t l r w :
  wfb l -> pos l = start l -> rune_at l r w ->
  match t with
  | itemLeftArray => r = 0x5B
  | itemRightArray => r = 0x5D
  | _ => False
  end ->
  item_ok E (input l)
          (Item.mk t (start l) (slice (input l) (start l) (pos l + w))).
Proof.
  intros W P R C. pose proof W as (M & S & Q).
  destruct (rune_at_next l r w W R) as (Er & Ew).
  unfold item_ok. cbn [Item.typ Item.val]. rewrite <- P.
  destruct t; try contradiction.
  - destruct (next_rune_is (drop (pos l) (input l)) 0x5B)
      as (_ & Nw & b & t & D & B); [lia|congruence|].
    rewrite Ew, Nw, (slice_head (input l) (pos l) b t ltac:(lia) D).
    replace b with x5b; [reflexivity|].
    apply rune_eq_byte. rewrite B. reflexivity.
  - destruct (next_rune_is (drop (pos l) (input l)) 0x5D)
      as (_ & Nw & b & t & D & B); [lia|congruence|].
    rewrite Ew, Nw, (slice_head (input l) (pos l) b t ltac:(lia) D).
    replace b with x5d; [reflexivity|].
    apply rune_eq_byte. rewrite B. reflexivity.
Qed.

Ltac inv2_arith :=
  unfold Inv, input_is, wfb, pre, depth_ok, errorf, lexDefault_eof,
         dict_ahead in *;
  simp_lexer; no_wrap;
  rewrite ?open_arrays_snoc, ?open_dicts_snoc, ?Z.add_simpl_r;
  repeat match goal with
  | H : IsSpace E _ = true |- _ => apply IsSpace_nonneg in H
  | H : isAlphaNumeric E _ = true |- _ => apply isAlphaNumeric_nonneg in H
  end.

Ltac inv2_parts :=
  repeat match goal with
  | |- _ /\ _ => split
  | |- tiled (_ ++ [_]) _ => eapply tiled_emit
  | |- tiled _ _ => eassumption
  | |- never_negative (_ ++ [_]) =>
    apply never_negative_snoc;
    rewrite ?open_arrays_snoc, ?open_dicts_snoc, ?Z.add_simpl_r
  | |- never_negative _ => eassumption
  | |- Forall (item_ok _ _) (_ ++ [_]) => apply item_ok_snoc
  | |- Forall (item_ok _ _) _ => eassumption
  | |- terminal_type _ = false => reflexivity
  | |- True => exact I
  | |- ?a <> ?a -> _ =>
    let N := fresh "N" in intros N; exfalso; apply N; reflexivity
  | |- _ <> _ -> _ => intros _
  end; try lia; try assumption; try congruence.

(** The first four parts of the invariant, and the items when none is
    sent. *)
Ltac inv2_leaf :=
  unfold Inv2; inv2_arith;
  first
    [ eexists _, _; split; [reflexivity|]; cbn [Item.typ Item.pos];
      split; [eassumption|]; split; [eassumption|]; split; [eassumption|];
      first [ left; reflexivity
            | right; split; [reflexivity|]; repeat split; lia ]
    | inv2_parts ].

Lemma lexDefault_inv2 l st' l' :
  Inv inp (Some LexDefault) l -> Inv2 E (Some LexDefault) l ->
  lexDefault E l = (st', l') -> Inv2 E st' l'.
Proof.
  intros (Ei & W & _ & P & D) (T & Nn & A & Dd & _ & Ok) H.
  unfold lexDefault in H.
  destruct (next_spec l W) as (r & w & N & R). rewrite N in H.
  cbv beta iota in H.
  pose proof (rune_at_width _ _ _ R) as (W0 & W1).
  pose proof (rune_at_eof _ _ _ R) as (W2 & W3).
  pose proof (rune_at_ascii _ _ _ R) as W4.
  assert (W' : wfb (at_pos l (pos l + w) w)).
  { unfold wfb in *; simp_lexer; lia. }
  destruct (peek_spec _ W') as (r2 & w2 & N2 & R2).
  rewrite N2 in H. cbv beta iota in H.
  pose proof (rune_at_width _ _ _ R2) as (V0 & V1).
  pose proof (rune_at_ascii _ _ _ R2) as V4.
  clear N N2.
  change ((r =? 43) || (r =? 45) || (r =? 46) || ((48 <=? r) && (r <=? 57)))
    with (number_start r) in H.
  cbn [pre] in P.
  pose proof (entered_intro LexSpace l (at_pos l (pos l + w) w) r w W P R
                            eq_refl eq_refl eq_refl)
    as E1.
  pose proof (entered_intro LexName l (at_pos l (pos l + w) w) r w W P R
                            eq_refl eq_refl eq_refl)
    as E2.
  pose proof (entered_intro LexWord l (at_pos l (pos l + w) w) r w W P R
                            eq_refl eq_refl eq_refl)
    as E3.
  pose proof (entered_intro LexStringObj l (at_pos l (pos l + w) w) r w W P R
                            eq_refl eq_refl eq_refl)
    as E4.
  pose proof (entered_intro LexHexObj l (at_pos l (pos l + w) w2) r w W P R
                            eq_refl eq_refl eq_refl) as E5.
  pose proof (entered_intro LexComment l (at_pos l (pos l + w) w) r w W P R
                            eq_refl eq_refl eq_refl)
    as E6.
  pose proof (fun l' => entered_number l l' r w W P R) as E7.
  pose proof (fun f l' => entered_dict f l l' r w r2 w2 W P R R2) as E8.
  pose proof (fun t => bracket_ok t l r w W P R) as B1.
  cbv beta iota in E1, E2, E3, E4, E5, E6.
  unfold lexDefault_eof, errorf in H.
  repeat match type of H with
  | context [if ?c then _ else _] => destruct c eqn:?
  end; inversion H; subst st' l'; clear H; bool_to_prop; unfold eof in *.
  all: try (unfold Inv2;
            split; [|split; [|split; [|split; [|split]]]];
            [inv2_arith; inv2_parts ..| |]).
  all: try solve [inv2_leaf].
  all: try exact I.
  all: try solve [ apply E1; reflexivity | apply E2; assumption
                 | apply E3; reflexivity | apply E4; assumption
                 | apply E5; assumption | apply E6; assumption
                 | apply E7; reflexivity
                 | apply E8; [reflexivity|reflexivity|split; assumption] ].
  all: unfold set_arrayDepth, emit, at_pos, set_start, send, set_pos,
              set_width;
    cbn [input items start pos arrayDepth];
    apply item_ok_snoc; [exact Ok|]; apply B1; assumption.
Qed.

Lemma lexStream_inv2 l st' l' :
  Inv inp (Some LexStream) l -> Inv2 E (Some LexStream) l ->
  lexStream E l = (st', l') -> Inv2 E st' l'.
Proof.
  intros (Ei & W & _ & P & D) (T & Nn & A & Dd & _ & Ok) H.
  unfold lexStream in H.
  pose proof W as (M & S & B).
  assert (K : 0 <= 0) by lia.
  pose proof (Index_from_found rightStream (drop (pos l) (input l)) 0 _
                               eq_refl K) as Fd.
  destruct (Index_from_bound rightStream (drop (pos l) (input l)) 0 _ eq_refl K)
    as [Q|Q];
    fold (Index (drop (pos l) (input l)) rightStream) in Q, Fd;
    set (i := Index (drop (pos l) (input l)) rightStream) in *.
  - rewrite Q in H. cbn in H. inversion H; subst. inv2_leaf.
  - rewrite len_drop in Q by lia.
    destruct (i <? 0) eqn:Lt; bool_to_prop; [lia|].
    inversion H; subst; clear H.
    destruct (Fd Lt) as (Hp & _). rewrite Z.sub_0_r in Hp.
    apply HasPrefix_firstn in Hp. rewrite drop_drop in Hp by lia.
    change (len rightStream) with 9 in *.
    change (List.length rightStream) with 9%nat in Hp.
    unfold Inv2. split; [|split; [|split; [|split; [|split]]]];
      [inv2_arith; inv2_parts ..|exact I|].
    inv2_arith. apply item_ok_snoc; [apply item_ok_snoc; [exact Ok|exact I]|].
    unfold item_ok, slice. cbn [Item.typ Item.val].
    replace (Z.to_nat (pos l + i + 9 - (pos l + i))) with 9%nat by lia.
    rewrite Hp. reflexivity.
Qed.

Lemma lexLeftDict_inv2 l st' l' :
  Inv inp (Some LexLeftDict) l -> Inv2 E (Some LexLeftDict) l ->
  lexLeftDict l = (st', l') -> Inv2 E st' l'.
Proof.
  intros (Ei & W & _ & P & D) (T & Nn & A & Dd & En & Ok) H.
  unfold lexLeftDict in H.
  inversion H; subst. change (len leftDict) with 2.
  unfold entered in En.
  unfold Inv2. split; [|split; [|split; [|split; [|split]]]];
    [inv2_arith; inv2_parts ..|exact I|].
  inv2_arith. apply item_ok_snoc; [exact Ok|].
  unfold item_ok, slice. cbn [Item.typ Item.val].
  destruct P as (P & _). rewrite P.
  replace (Z.to_nat (start l + 2 - start l)) with 2%nat by lia. exact En.
Qed.

Lemma lexRightDict_inv2 l st' l' :
  Inv inp (Some LexRightDict) l -> Inv2 E (Some LexRightDict) l ->
  lexRightDict l = (st', l') -> Inv2 E st' l'.
Proof.
  intros (Ei & W & _ & P & D) (T & Nn & A & Dd & En & Ok) H.
  unfold lexRightDict in H.
  inversion H; subst. change (len rightDict) with 2.
  unfold entered in En.
  unfold Inv2. split; [|split; [|split; [|split; [|split]]]];
    [inv2_arith; inv2_parts ..|exact I|].
  inv2_arith. apply item_ok_snoc; [exact Ok|].
  unfold item_ok, slice. cbn [Item.typ Item.val].
  destruct P as (P & _). rewrite P.
  replace (Z.to_nat (start l + 2 - start l)) with 2%nat by lia. exact En.
Qed.

(** The state functions with a loop have their shape. *)
Lemma call_shape fuel f l st' l' :
  Inv inp (Some f) l -> Inv2 E (Some f) l ->
  match f with
  | LexDefault | LexStream | LexLeftDict | LexRightDict => False
  | _ => True
  end ->
  call E fuel f l = Some (st', l') -> shape E f l st' l'.
Proof.
  intros V V2 Lp H.
  assert (W : wfb l) by apply V.
  assert (R : adv l l) by (apply adv_refl; exact W).
  destruct V2 as (_ & _ & _ & _ & En & _).
  destruct f; try contradiction; cbn [call] in H; cbn [entered] in En.
  - eapply lexComment_shape; [exact W|lia|exact H].
  - eapply lexName_shape; [exact W|lia|exact R|exact H].
  - unfold lexStringObj in H.
    eapply lexStringObj_loop_shape; [exact W|lia|exact R|exact H].
  - eapply lexHexObj_shape; [exact W|lia|exact R|exact H].
  - eapply lexSpace_shape; [exact W|lia|exact H].
  - eapply lexWord_shape; [exact W|lia|exact H].
  - eapply lexNumber_shape; [exact W| | |exact H].
    + apply V.
    + destruct V as (_ & _ & _ & P & _). cbn [pre] in P. rewrite P. exact En.
Qed.

(** Every call of a state function keeps the second invariant. *)
Lemma call_inv2 fuel f l st' l' :
  Inv inp (Some f) l -> Inv2 E (Some f) l ->
  call E fuel f l = Some (st', l') -> Inv2 E st' l'.
Proof.
  intros V V2 H.
  destruct f;
    try (apply (shape_inv2 E inp _ l st' l' V V2 eq_refl);
         apply (call_shape fuel _ l st' l' V V2 I H));
    cbn [call] in H;
    match type of H with
    | Some ?x = Some ?y => assert (H' : x = y) by congruence
    end.
  - eapply lexDefault_inv2; eassumption.
  - eapply lexStream_inv2; eassumption.
  - eapply lexLeftDict_inv2; eassumption.
  - eapply lexRightDict_inv2; eassumption.
Qed.

Lemma run_from_inv2 n fuel : forall st l,
  Inv inp st l -> Inv2 E st l ->
  Inv_outcome inp (run_from E n fuel st l) /\
  Inv2_outcome E (run_from E n fuel st l).
Proof.
  induction n as [|n IH]; intros st l V V2; destruct st as [f|];
    cbn [run_from]; try (split; assumption).
  destruct (call E fuel f l) as [[st' l']|] eqn:C; [|split; assumption].
  apply IH; [eapply call_inv | eapply call_inv2]; eauto.
Qed.

Lemma lex_inv2 : Inv2 E (Some LexDefault) (lex inp).
Proof.
  unfold Inv2, lex, tiled, entered. cbn.
  repeat split; try constructor; apply never_negative_nil.
Qed.

Lemma run_inv2 n fuel :
  len inp <= max_int ->
  Inv_outcome inp (run E n fuel (lex inp)) /\
  Inv2_outcome E (run E n fuel (lex inp)).
Proof.
  intros M. apply run_from_inv2; [apply lex_inv; exact M | apply lex_inv2].
Qed.

End Invariant2.

(** ** The item sequence of a scan *)

Lemma Inv2_items_plain E st l :
  Inv2 E st l ->
  match st with
  | Some _ => Forall plain (items l)
  | None =>
    exists body t,
      items l = body ++ [t] /\ terminal_type (Item.typ t) = true /\
      Forall plain body
  end.
Proof.
  destruct st as [f|]; cbn [Inv2].
  - intros ((P & _) & _). exact P.
  - intros (body & t & Ei & (P & _) & _ & _ & T). exists body, t.
    split; [exact Ei|]. split; [|exact P].
    destruct T as [T|(T & _)]; rewrite T; reflexivity.
Qed.

Lemma outcome_inv2 (E : GoLib) (inp : list byte) (n fuel : nat) :
  len inp <= max_int ->
  match run E n fuel (lex inp) with
  | Done l => Inv inp None l /\ Inv2 E None l
  | Busy f l => Inv inp (Some f) l /\ Inv2 E (Some f) l
  end.
Proof.
  intros M. pose proof (run_inv2 E inp n fuel M) as (V & V2).
  destruct (run E n fuel (lex inp)); split; assumption.
Qed.

(** X1: a scan that has ended has sent an error item or an end-of-input
    item as its last item and none before it; a scan that has not ended
    has sent neither. *)
Theorem X1_terminal_item_is_last
  (E : GoLib) (inp : list byte) (n fuel : nat) :
  len inp <= max_int ->
  match run E n fuel (lex inp) with
  | Done l =>
    exists body t,
      items l = body ++ [t] /\ terminal_type (Item.typ t) = true /\
      Forall plain body
  | Busy _ l => Forall plain (items l)
  end.
Proof.
  intros M. pose proof (outcome_inv2 E inp n fuel M) as V.
  destruct (run E n fuel (lex inp)) as [l|f l]; destruct V as (_ & V2).
  - exact (Inv2_items_plain E None l V2).
  - exact (Inv2_items_plain E (Some f) l V2).
Qed.

(** X1, witness: the scan of "[1]". *)
Lemma X1_terminal_item_is_last_witness :
  match run plainLib 9 9 (lex (bytes "[1]")) with
  | Done l =>
    exists body t,
      items l = body ++ [t] /\ terminal_type (Item.typ t) = true /\
      Forall plain body
  | Busy _ l => Forall plain (items l)
  end.
Proof.
  apply (X1_terminal_item_is_last plainLib (bytes "[1]") 9 9).
  vm_compute. discriminate.
Defined.

(** X2: the first item sent is at offset 0, and every later item, the
    terminal item included, is at the offset where the value of the item
    before it ends; while the scan runs, the pending item starts where the
    value of the last item sent ends. *)
Theorem X2_offsets_contiguous
  (E : GoLib) (inp : list byte) (n fuel : nat) :
  len inp <= max_int ->
  match run E n fuel (lex inp) with
  | Done l =>
    exists body t, items l = body ++ [t] /\ chain 0 body (Item.pos t)
  | Busy _ l => chain 0 (items l) (start l)
  end.
Proof.
  intros M. pose proof (outcome_inv2 E inp n fuel M) as V.
  destruct (run E n fuel (lex inp)) as [l|f l]; destruct V as (_ & V2);
    cbn [Inv2] in V2.
  - destruct V2 as (body & t & Ei & (_ & _ & C) & _). exists body, t.
    split; assumption.
  - destruct V2 as ((_ & _ & C) & _). exact C.
Qed.

(** X2, witness: the scan of "<<>> x". *)
Lemma X2_offsets_contiguous_witness :
  match run plainLib 9 9 (lex (bytes "<<>> x")) with
  | Done l =>
    exists body t, items l = body ++ [t] /\ chain 0 body (Item.pos t)
  | Busy _ l => chain 0 (items l) (start l)
  end.
Proof.
  apply (X2_offsets_contiguous plainLib (bytes "<<>> x") 9 9).
  vm_compute. discriminate.
Defined.

(** X3: every item sent that is neither the terminal item nor a stream
    body has a value of at least one byte. *)
Theorem X3_items_not_empty
  (E : GoLib) (inp : list byte) (n fuel : nat) :
  len inp <= max_int ->
  Forall (fun it =>
            terminal_type (Item.typ it) = false ->
            Item.typ it <> itemStreamBody -> 0 < len (Item.val it))
         (scan E n fuel inp).
Proof.
  intros M. unfold scan. pose proof (outcome_inv2 E inp n fuel M) as V.
  destruct (run E n fuel (lex inp)) as [l|f l]; destruct V as (_ & V2);
    cbn [Inv2 lexer_of] in *.
  - destruct V2 as (body & t & -> & (_ & S & _) & _ & _ & T).
    apply Forall_app. split.
    + eapply Forall_impl; [|exact S]. intros it H _. exact H.
    + constructor; [|constructor]. intros N.
      destruct T as [T|(T & _)]; rewrite T in N; discriminate.
  - destruct V2 as ((_ & S & _) & _).
    eapply Forall_impl; [|exact S]. intros it H _. exact H.
Qed.

(** X3, witness: the scan of "streamendstream", where the stream body is
    empty. *)
Lemma X3_items_not_empty_witness :
  Forall (fun it =>
            terminal_type (Item.typ it) = false ->
            Item.typ it <> itemStreamBody -> 0 < len (Item.val it))
         (scan plainLib 9 20 (bytes "streamendstream")).
Proof.
  apply (X3_items_not_empty plainLib (bytes "streamendstream") 9 20).
  vm_compute. discriminate.
Defined.

(** X4: whenever a state function is about to be called, the array depth
    is the number of left-array items sent less the number of right-array
    items sent, and the dict depth is the same for the dict items, one
    ahead when [lexLeftDict] or [lexRightDict] is the function to call. *)
Theorem X4_depths_count_brackets
  (E : GoLib) (inp : list byte) (n fuel : nat) (f : stateFn) (l : lexer) :
  len inp <= max_int ->
  run E n fuel (lex inp) = Busy f l ->
  arrayDepth l =
    count_typ itemLeftArray (items l) - count_typ itemRightArray (items l) /\
  dictDepth l =
    count_typ itemLeftDict (items l) - count_typ itemRightDict (items l) +
    dict_ahead f.
Proof.
  intros M R. pose proof (outcome_inv2 E inp n fuel M) as V.
  rewrite R in V. destruct V as (_ & (_ & _ & A & D & _)).
  split; [exact A | exact D].
Qed.

(** X4, witness: "[<<" after two calls, with [lexLeftDict] to call. *)
Lemma X4_depths_count_brackets_witness :
  let l := lexer_of (run plainLib 2 9 (lex (bytes "[<<"))) in
  arrayDepth l =
    count_typ itemLeftArray (items l) - count_typ itemRightArray (items l) /\
  dictDepth l =
    count_typ itemLeftDict (items l) - count_typ itemRightDict (items l) +
    dict_ahead LexLeftDict.
Proof.
  apply (X4_depths_count_brackets plainLib (bytes "[<<") 2 9 LexLeftDict).
  - vm_compute. discriminate.
  - vm_compute. reflexivity.
Defined.

(** X5: at no point of the item sequence have more right-array items
    than left-array items been sent, nor more right-dict items than
    left-dict items: a close bracket without its open bracket is never
    sent. *)
Theorem X5_no_close_before_open
  (E : GoLib) (inp : list byte) (n fuel k : nat) :
  len inp <= max_int ->
  let its := firstn k (scan E n fuel inp) in
  count_typ itemRightArray its <= count_typ itemLeftArray its /\
  count_typ itemRightDict its <= count_typ itemLeftDict its.
Proof.
  intros M its. unfold its, scan.
  pose proof (outcome_inv2 E inp n fuel M) as V.
  assert (N : never_negative (items (lexer_of (run E n fuel (lex inp))))).
  { destruct (run E n fuel (lex inp)) as [l|f l]; destruct V as (_ & V2);
      cbn [Inv2 lexer_of] in *.
    - destruct V2 as (body & t & -> & _ & N & _ & T).
      destruct (never_negative_all _ N) as (Na & Nd).
      destruct t as [t p v]. cbn [Item.typ] in T.
      apply never_negative_snoc; [exact N| |];
        rewrite ?open_arrays_snoc, ?open_dicts_snoc;
        destruct T as [->|(-> & _)]; lia.
    - apply V2. }
  specialize (N k). unfold open_arrays, open_dicts in N. lia.
Qed.

(** X5, witness: the scan of "[]]". *)
Lemma X5_no_close_before_open_witness :
  let its := firstn 2 (scan plainLib 9 9 (bytes "[]]")) in
  count_typ itemRightArray its <= count_typ itemLeftArray its /\
  count_typ itemRightDict its <= count_typ itemLeftDict its.
Proof.
  apply (X5_no_close_before_open plainLib (bytes "[]]") 9 9 2).
  vm_compute. discriminate.
Defined.

(** X6: a scan sends the end-of-input item only when the brackets sent
    are balanced: as many right-array items as left-array items, and as
    many right-dict items as left-dict items. *)
Theorem X6_end_of_input_balanced
  (E : GoLib) (inp : list byte) (n fuel : nat)
  (body : list Item.item) (t : Item.item) :
  len inp <= max_int ->
  scan E n fuel inp = body ++ [t] -> Item.typ t = itemEOF ->
  count_typ itemLeftArray body = count_typ itemRightArray body /\
  count_typ itemLeftDict body = count_typ itemRightDict body.
Proof.
  intros M S T. unfold scan in S.
  pose proof (outcome_inv2 E inp n fuel M) as V.
  destruct (run E n fuel (lex inp)) as [l|f l]; destruct V as (_ & V2);
    cbn [Inv2 lexer_of] in *.
  - destruct V2 as (body' & t' & Ei & _ & _ & _ & Q). rewrite Ei in S.
    apply app_inj_tail in S. destruct S as (-> & ->).
    destruct Q as [Q|(_ & A & D & _)]; [congruence|].
    unfold open_arrays, open_dicts in *. lia.
  - destruct V2 as ((P & _) & _). rewrite S in P.
    apply Forall_app in P. destruct P as (_ & P).
    inversion P as [|x y Px _]; subst. unfold plain in Px.
    rewrite T in Px. discriminate.
Qed.

(** X6, witness: the scan of "[<<>>]". *)
Lemma X6_end_of_input_balanced_witness :
  let body :=
    [ Item.mk itemLeftArray 0 (bytes "["); Item.mk itemLeftDict 1 (bytes "<<");
      Item.mk itemRightDict 3 (bytes ">>");
      Item.mk itemRightArray 5 (bytes "]") ] in
  count_typ itemLeftArray body = count_typ itemRightArray body /\
  count_typ itemLeftDict body = count_typ itemRightDict body.
Proof.
  apply (X6_end_of_input_balanced plainLib (bytes "[<<>>]") 9 9 _
           (Item.mk itemEOF 6 [])).
  - vm_compute. discriminate.
  - vm_compute. reflexivity.
  - reflexivity.
Defined.

(** ** The value of an item fits its type *)

Lemma bytes_eqb_eq a : forall b, bytes_eqb a b = true <-> a = b.
Proof.
  induction a as [|x a IH]; intros [|y b]; cbn [bytes_eqb];
    try (split; [discriminate|intros H; inversion H]); [tauto|].
  rewrite andb_true_iff, IH. split.
  - intros (H1 & ->). apply Byte.byte_dec_bl in H1. subst. reflexivity.
  - intros H. inversion H; subst. split; [apply Byte.byte_dec_lb|]; reflexivity.
Qed.

Lemma map_lookup_In m k t : map_lookup m k = Some t -> In (k, t) m.
Proof.
  induction m as [|[k' t'] m IH]; cbn [map_lookup]; [discriminate|].
  destruct (bytes_eqb k' k) eqn:Q.
  - intros H. inversion H; subst. apply bytes_eqb_eq in Q. subst.
    left. reflexivity.
  - intros H. right. apply IH. exact H.
Qed.

Lemma map_lookup_None m k t : map_lookup m k = None -> ~ In (k, t) m.
Proof.
  induction m as [|[k' t'] m IH]; cbn [map_lookup]; [intros _ []|].
  destruct (bytes_eqb k' k) eqn:Q; [discriminate|].
  intros H [X|X]; [|exact (IH H X)].
  inversion X; subst. rewrite (proj2 (bytes_eqb_eq k k) eq_refl) in Q.
  discriminate.
Qed.

Lemma scan_items_ok (E : GoLib) (inp : list byte) (n fuel : nat) :
  len inp <= max_int -> Forall (item_ok E inp) (scan E n fuel inp).
Proof.
  intros M. unfold scan. pose proof (outcome_inv2 E inp n fuel M) as V.
  destruct (run E n fuel (lex inp)) as [l|f l];
    destruct V as ((Ei & _) & V2); unfold input_is in Ei;
    cbn [Inv2 lexer_of] in *; rewrite Ei in V2.
  - destruct V2 as (body & t & -> & _ & _ & Ok & T).
    apply Forall_app. split; [exact Ok|]. constructor; [|constructor].
    unfold item_ok. destruct T as [->|(-> & _)]; exact I.
  - apply V2.
Qed.

(** X7: a bracket item holds exactly its bracket: the value of a
    left-array item is "[", of a right-array item "]", of a left-dict item
    "<<" and of a right-dict item ">>". *)
Theorem X7_bracket_items
  (E : GoLib) (inp : list byte) (n fuel : nat) :
  len inp <= max_int ->
  Forall (fun it =>
            match Item.typ it with
            | itemLeftArray => Item.val it = bytes "["
            | itemRightArray => Item.val it = bytes "]"
            | itemLeftDict => Item.val it = bytes "<<"
            | itemRightDict => Item.val it = bytes ">>"
            | _ => True
            end)
         (scan E n fuel inp).
Proof.
  intros M. eapply Forall_impl; [|exact (scan_items_ok E inp n fuel M)].
  intros it H. unfold item_ok in H.
  destruct (Item.typ it); try exact I; exact H.
Qed.

(** X7, witness: the scan of "[<<>>]". *)
Lemma X7_bracket_items_witness :
  Forall (fun it =>
            match Item.typ it with
            | itemLeftArray => Item.val it = bytes "["
            | itemRightArray => Item.val it = bytes "]"
            | itemLeftDict => Item.val it = bytes "<<"
            | itemRightDict => Item.val it = bytes ">>"
            | _ => True
            end)
         (scan plainLib 9 9 (bytes "[<<>>]")).
Proof.
  apply (X7_bracket_items plainLib (bytes "[<<>>]") 9 9).
  vm_compute. discriminate.
Defined.

(** X8: the value of an item of a keyword type is the key of that type
    in [keytoks], the value of a word item is no key of [keytoks], and no
    item has the type [itemKeyword]. *)
Theorem X8_keyword_items
  (E : GoLib) (inp : list byte) (n fuel : nat) :
  len inp <= max_int ->
  Forall (fun it =>
            (keyword_type (Item.typ it) = true ->
             In (Item.val it, Item.typ it) keytoks) /\
            (Item.typ it = itemWord ->
             forall t, ~ In (Item.val it, t) keytoks) /\
            Item.typ it <> itemKeyword)
         (scan E n fuel inp).
Proof.
  intros M. eapply Forall_impl; [|exact (scan_items_ok E inp n fuel M)].
  intros it H. unfold item_ok in H.
  destruct (Item.typ it) eqn:T; cbn [keyword_type];
    (split; [|split]); try discriminate; try contradiction;
    try (intros _; apply map_lookup_In; exact H).
  intros _ t. apply map_lookup_None. apply H.
Qed.

(** X8, witness: the scan of "1 0 obj null foo endobj". *)
Lemma X8_keyword_items_witness :
  Forall (fun it =>
            (keyword_type (Item.typ it) = true ->
             In (Item.val it, Item.typ it) keytoks) /\
            (Item.typ it = itemWord ->
             forall t, ~ In (Item.val it, t) keytoks) /\
            Item.typ it <> itemKeyword)
         (scan plainLib 40 40 (bytes "1 0 obj null foo endobj")).
Proof.
  apply (X8_keyword_items plainLib (bytes "1 0 obj null foo endobj") 40 40).
  vm_compute. discriminate.
Defined.

(** X9: the value of a name item starts with [/], of a string item with
    [(], of a hex string item with [<], of a comment item with [%], and
    of a number item with a sign, a point or a digit. *)
Theorem X9_first_byte_of_item
  (E : GoLib) (inp : list byte) (n fuel : nat) :
  len inp <= max_int ->
  Forall (fun it =>
            match Item.typ it with
            | itemName => starts_with 0x2F (Item.val it)
            | itemString => starts_with 0x28 (Item.val it)
            | itemHexString => starts_with 0x3C (Item.val it)
            | itemComment => starts_with 0x25 (Item.val it)
            | itemNumber => head_is number_start (Item.val it) = true
            | _ => True
            end)
         (scan E n fuel inp).
Proof.
  intros M. eapply Forall_impl; [|exact (scan_items_ok E inp n fuel M)].
  intros it H. unfold item_ok in H.
  destruct (Item.typ it); try exact I; exact H.
Qed.

(** X9, witness: the scan of "/N (s) <0a> -1 %c". *)
Lemma X9_first_byte_of_item_witness :
  Forall (fun it =>
            match Item.typ it with
            | itemName => starts_with 0x2F (Item.val it)
            | itemString => starts_with 0x28 (Item.val it)
            | itemHexString => starts_with 0x3C (Item.val it)
            | itemComment => starts_with 0x25 (Item.val it)
            | itemNumber => head_is number_start (Item.val it) = true
            | _ => True
            end)
         (scan plainLib 40 40 (bytes "/N (s) <0a> -1 %c")).
Proof.
  apply (X9_first_byte_of_item plainLib (bytes "/N (s) <0a> -1 %c") 40 40).
  vm_compute. discriminate.
Defined.

(** X10: the rune that the input decodes to at the offset of a white
    space item is white space ([unicode.IsSpace]), and at the offset of a
    word item it is alphanumeric ([isAlphaNumeric]). *)
Theorem X10_first_rune_of_item
  (E : GoLib) (inp : list byte) (n fuel : nat) :
  len inp <= max_int ->
  Forall (fun it =>
            let r := next_rune (drop (Item.pos it) inp) in
            match Item.typ it with
            | itemSpace => IsSpace E r = true
            | itemWord => isAlphaNumeric E r = true
            | _ => True
            end)
         (scan E n fuel inp).
Proof.
  intros M. eapply Forall_impl; [|exact (scan_items_ok E inp n fuel M)].
  intros it H. unfold item_ok in H. cbv zeta.
  destruct (Item.typ it); try exact I; [exact H|apply H].
Qed.

(** X10, witness: the scan of "a b". *)
Lemma X10_first_rune_of_item_witness :
  Forall (fun it =>
            let r := next_rune (drop (Item.pos it) (bytes "a b")) in
            match Item.typ it with
            | itemSpace => IsSpace plainLib r = true
            | itemWord => isAlphaNumeric plainLib r = true
            | _ => True
            end)
         (scan plainLib 9 9 (bytes "a b")).
Proof.
  apply (X10_first_rune_of_item plainLib (bytes "a b") 9 9).
  vm_compute. discriminate.
Defined.

(** ** Runs of runes *)

Lemma next_width_le s : next_width s <= len s.
Proof.
  destruct s as [|c t]; cbn [next_width]; [unfold len; cbn; lia|].
  destruct (DecodeRuneInString (c :: t)) as [r w] eqn:D. cbn [snd].
  destruct (DecodeRune_cases _ _ _ _ D) as [(_ & _ & ->)|(_ & _ & ? & _)];
    [|lia].
  rewrite len_cons. pose proof (len_nonneg t). lia.
Qed.

Lemma length_drop_lt s w :
  0 < w -> s <> [] -> (List.length (drop w s) < List.length s)%nat.
Proof.
  intros W N. unfold drop. rewrite length_skipn.
  destruct s as [|c t]; [congruence|]. cbn [List.length]. lia.
Qed.

Section Runs.

Variable p : Z -> bool.
Hypothesis p_eof : p eof = false.

Lemma p_true_pos s : p (next_rune s) = true -> 0 < next_width s /\ s <> [].
Proof.
  intros H. destruct s as [|c t].
  - cbn [next_rune] in H. congruence.
  - split; [|discriminate]. cbn [next_width].
    destruct (DecodeRuneInString (c :: t)) as [r w] eqn:D. cbn [snd].
    destruct (DecodeRune_cases _ _ _ _ D) as [(_ & _ & ->)|(_ & _ & ? & _)];
      lia.
Qed.

Lemma rune_run_more : forall n m s,
  (List.length s <= n)%nat -> (List.length s <= m)%nat ->
  rune_run p n s = rune_run p m s.
Proof.
  induction n as [|n IH]; intros m s Ln Lm.
  - destruct s; [|cbn in Ln; lia]. destruct m; [reflexivity|].
    cbn [rune_run next_rune]. rewrite p_eof. reflexivity.
  - destruct m as [|m].
    + destruct s; [|cbn in Lm; lia]. cbn [rune_run next_rune].
      rewrite p_eof. reflexivity.
    + cbn [rune_run]. destruct (p (next_rune s)) eqn:H; [|reflexivity].
      destruct (p_true_pos s H) as (W & N).
      pose proof (length_drop_lt s _ W N).
      f_equal. apply IH; lia.
Qed.

Lemma rune_span_step s :
  rune_span p s =
  if p (next_rune s)
  then next_width s + rune_span p (drop (next_width s) s)
  else 0.
Proof.
  unfold rune_span. destruct s as [|c t].
  - cbn [List.length rune_run next_rune]. rewrite p_eof. reflexivity.
  - cbn [List.length rune_run].
    destruct (p (next_rune (c :: t))) eqn:H; [|reflexivity].
    destruct (p_true_pos _ H) as (W & N).
    pose proof (length_drop_lt _ _ W N) as L. cbn [List.length] in L.
    f_equal. apply rune_run_more; lia.
Qed.

Lemma rune_span_bound : forall (n : nat) s,
  (List.length s <= n)%nat -> 0 <= rune_span p s <= len s.
Proof.
  induction n as [|n IH]; intros s L; rewrite rune_span_step.
  - destruct s; [|cbn in L; lia]. cbn [next_rune]. rewrite p_eof.
    unfold len. cbn. lia.
  - destruct (p (next_rune s)) eqn:H; [|pose proof (len_nonneg s); lia].
    destruct (p_true_pos s H) as (W & N).
    pose proof (length_drop_lt s _ W N) as Lt.
    pose proof (next_width_le s) as Le.
    specialize (IH (drop (next_width s) s) ltac:(lia)).
    rewrite len_drop in IH by lia. lia.
Qed.

(** The run ends before a rune that does not satisfy [p]. *)
Lemma rune_span_stop : forall (n : nat) s,
  (List.length s <= n)%nat ->
  p (next_rune (drop (rune_span p s) s)) = false.
Proof.
  induction n as [|n IH]; intros s L; rewrite rune_span_step.
  - destruct s; [|cbn in L; lia]. cbn [next_rune]. rewrite p_eof.
    exact p_eof.
  - destruct (p (next_rune s)) eqn:H; [|rewrite drop_0; exact H].
    destruct (p_true_pos s H) as (W & N).
    pose proof (length_drop_lt s _ W N) as Lt.
    pose proof (rune_span_bound (List.length (drop (next_width s) s)) _
                                (Nat.le_refl _)) as B.
    rewrite <- drop_drop by lia. apply IH. lia.
Qed.

End Runs.

(** ** The loops of [lexSpace] and [lexWord] *)

Section Loops.

Variable E : GoLib.

Lemma IsSpace_eof : IsSpace E eof = false.
Proof. reflexivity. Qed.

Lemma isAlphaNumeric_eof : isAlphaNumeric E eof = false.
Proof. reflexivity. Qed.

Lemma lexSpace_loop_spec : forall fuel l q w,
  wfb l -> pos l <= q <= len (input l) ->
  (List.length (drop q (input l)) < fuel)%nat ->
  let s := drop q (input l) in
  let k := rune_span (IsSpace E) s in
  lexSpace_loop E fuel (at_pos l q w) =
    Some (at_pos l (q + k) (next_width (drop k s))).
Proof.
  induction fuel as [|n IH]; intros l q w W Q F s k; [lia|].
  pose proof W as (M & S & P).
  cbn [lexSpace_loop].
  pose proof (peek_at l q w W Q) as Pk. cbv zeta in Pk. fold s in Pk.
  rewrite Pk. unfold k. rewrite (rune_span_step _ IsSpace_eof).
  destruct (IsSpace E (next_rune s)) eqn:H.
  - destruct (next_at l q (next_width s) W Q) as (N & N0 & N1).
    fold s in N, N0, N1. rewrite N.
    destruct (p_true_pos _ IsSpace_eof s H) as (Wp & Ne).
    pose proof (length_drop_lt s _ Wp Ne) as Lt.
    assert (D : drop (q + next_width s) (input l) = drop (next_width s) s).
    { unfold s in *. rewrite drop_drop by lia. reflexivity. }
    rewrite IH; [|exact W|lia|rewrite D; fold s in F; lia].
    rewrite D.
    pose proof (rune_span_bound _ IsSpace_eof
                  (List.length (drop (next_width s) s)) _ (Nat.le_refl _)) as B.
    rewrite drop_drop by lia. rewrite Z.add_assoc. reflexivity.
  - rewrite Z.add_0_r, drop_0. reflexivity.
Qed.

Lemma lexWord_loop_spec : forall fuel l q w,
  wfb l -> pos l <= q <= len (input l) ->
  (List.length (drop q (input l)) < fuel)%nat ->
  let s := drop q (input l) in
  let k := rune_span (isAlphaNumeric E) s in
  lexWord_loop E fuel (at_pos l q w) =
    Some (at_pos l (q + k) (next_width (drop k s))).
Proof.
  induction fuel as [|n IH]; intros l q w W Q F s k; [lia|].
  pose proof W as (M & S & P).
  cbn [lexWord_loop].
  pose proof (peek_at l q w W Q) as Pk. cbv zeta in Pk. fold s in Pk.
  rewrite Pk. unfold k. rewrite (rune_span_step _ isAlphaNumeric_eof).
  destruct (isAlphaNumeric E (next_rune s)) eqn:H.
  - destruct (next_at l q (next_width s) W Q) as (N & N0 & N1).
    fold s in N, N0, N1. rewrite N.
    destruct (p_true_pos _ isAlphaNumeric_eof s H) as (Wp & Ne).
    pose proof (length_drop_lt s _ Wp Ne) as Lt.
    assert (D : drop (q + next_width s) (input l) = drop (next_width s) s).
    { unfold s in *. rewrite drop_drop by lia. reflexivity. }
    rewrite IH; [|exact W|lia|rewrite D; fold s in F; lia].
    rewrite D.
    pose proof (rune_span_bound _ isAlphaNumeric_eof
                  (List.length (drop (next_width s) s)) _ (Nat.le_refl _)) as B.
    rewrite drop_drop by lia. rewrite Z.add_assoc. reflexivity.
  - rewrite Z.add_0_r, drop_0. reflexivity.
Qed.

End Loops.

(** ** White space and words *)

(** X11: a white space item is the longest run of white-space runes at
    its offset: when [lexSpace] is to be called with the pending item at
    [start], it sends the [k] bytes of that run as one white space item
    and goes back to dispatch; the run is not empty and the rune after it
    is no white space. *)
Theorem X11_space_item
  (E : GoLib) (inp : list byte) (n fuel : nat) (l : lexer) :
  len inp <= max_int -> (List.length inp < fuel)%nat ->
  run E n fuel (lex inp) = Busy LexSpace l ->
  let k := rune_span (IsSpace E) (drop (start l) inp) in
  0 < k /\
  IsSpace E (next_rune (drop (start l + k) inp)) = false /\
  exists l',
    run E (n + 1) fuel (lex inp) = Busy LexDefault l' /\
    items l' =
      items l ++
      [Item.mk itemSpace (start l) (slice inp (start l) (start l + k))].
Proof.
  intros M F R k. pose proof (outcome_inv2 E inp n fuel M) as V.
  rewrite R in V. destruct V as ((Ei & W & _) & (_ & _ & _ & _ & En & _)).
  unfold input_is in Ei. cbn [entered] in En. rewrite Ei in En.
  destruct En as (Ep & Wp & Sp). pose proof W as (_ & S & P).
  set (s := drop (start l) inp) in *.
  assert (D : drop (pos l) inp = drop (next_width s) s).
  { unfold s in *. rewrite drop_drop by lia. rewrite Ep. reflexivity. }
  pose proof (rune_span_step _ (IsSpace_eof E) s) as K. fold k in K.
  rewrite Sp, <- D in K.
  pose proof (rune_span_bound _ (IsSpace_eof E)
                (List.length (drop (pos l) inp)) _ (Nat.le_refl _)) as B.
  rewrite len_drop in B by (rewrite <- Ei; lia).
  split; [lia|]. split.
  { unfold s in *. rewrite <- drop_drop by lia.
    apply (rune_span_stop _ (IsSpace_eof E) (List.length (drop (start l) inp))).
    lia. }
  pose proof (lexSpace_loop_spec E fuel l (pos l) (width l) W ltac:(lia)) as L.
  cbv zeta in L. rewrite at_pos_self, Ei in L.
  unfold run in *. rewrite run_from_app, R. cbn [run_from call].
  unfold lexSpace. rewrite L.
  2:{ unfold drop. rewrite length_skipn. lia. }
  cbn [run_from]. eexists. split; [reflexivity|].
  simp_lexer. rewrite Ei.
  replace (pos l + rune_span (IsSpace E) (drop (pos l) inp))
    with (start l + k) by lia.
  reflexivity.
Qed.

(** X11, witness: the white space of "a  b", entered at offset 1. *)
Lemma X11_space_item_witness :
  let inp := bytes "a  b" in
  let l := lexer_of (run plainLib 3 9 (lex inp)) in
  let k := rune_span (IsSpace plainLib) (drop (start l) inp) in
  0 < k /\
  IsSpace plainLib (next_rune (drop (start l + k) inp)) = false /\
  exists l',
    run plainLib (3 + 1) 9 (lex inp) = Busy LexDefault l' /\
    items l' =
      items l ++
      [Item.mk itemSpace (start l) (slice inp (start l) (start l + k))].
Proof.
  intros inp l.
  apply (X11_space_item plainLib inp 3 9 l).
  - vm_compute. discriminate.
  - vm_compute. lia.
  - vm_compute. reflexivity.
Defined.

(** X12: a word is the longest run of alphanumeric runes at its offset,
    and its type is looked up in [keytoks]: when [lexWord] is to be called
    with the pending item at [start], it sends the [k] bytes of that run as
    one item, of the type that [keytoks] has for them or else of the type
    word, and hands over to [lexStream] when that type is [itemStream] and
    to dispatch otherwise; the run is not empty and the rune after it is
    not alphanumeric. *)
Theorem X12_word_item
  (E : GoLib) (inp : list byte) (n fuel : nat) (l : lexer) :
  len inp <= max_int -> (List.length inp < fuel)%nat ->
  run E n fuel (lex inp) = Busy LexWord l ->
  let k := rune_span (isAlphaNumeric E) (drop (start l) inp) in
  let text := slice inp (start l) (start l + k) in
  let t :=
    match map_lookup keytoks text with Some t => t | None => itemWord end in
  0 < k /\
  isAlphaNumeric E (next_rune (drop (start l + k) inp)) = false /\
  exists l',
    run E (n + 1) fuel (lex inp) =
      Busy (if itemType_eqb t itemStream then LexStream else LexDefault) l' /\
    items l' = items l ++ [Item.mk t (start l) text].
Proof.
  intros M F R k text t. pose proof (outcome_inv2 E inp n fuel M) as V.
  rewrite R in V. destruct V as ((Ei & W & _) & (_ & _ & _ & _ & En & _)).
  unfold input_is in Ei. cbn [entered] in En. rewrite Ei in En.
  destruct En as (Ep & Wp & Sp). pose proof W as (_ & S & P).
  set (s := drop (start l) inp) in *.
  assert (D : drop (pos l) inp = drop (next_width s) s).
  { unfold s in *. rewrite drop_drop by lia. rewrite Ep. reflexivity. }
  pose proof (rune_span_step _ (isAlphaNumeric_eof E) s) as K. fold k in K.
  rewrite Sp, <- D in K.
  pose proof (rune_span_bound _ (isAlphaNumeric_eof E)
                (List.length (drop (pos l) inp)) _ (Nat.le_refl _)) as B.
  rewrite len_drop in B by (rewrite <- Ei; lia).
  split; [lia|]. split.
  { unfold s in *. rewrite <- drop_drop by lia.
    apply (rune_span_stop _ (isAlphaNumeric_eof E)
                          (List.length (drop (start l) inp))).
    lia. }
  pose proof (lexWord_loop_spec E fuel l (pos l) (width l) W ltac:(lia)) as L.
  cbv zeta in L. rewrite at_pos_self, Ei in L.
  unfold run in *. rewrite run_from_app, R. cbn [run_from call].
  unfold lexWord. rewrite L.
  2:{ unfold drop. rewrite length_skipn. lia. }
  simp_lexer. rewrite Ei.
  replace (pos l + rune_span (isAlphaNumeric E) (drop (pos l) inp))
    with (start l + k) by lia.
  fold text. unfold t.
  destruct (map_lookup keytoks text) as [tok|];
    [destruct tok|]; cbn [run_from itemType_eqb];
    (eexists; split; [reflexivity|reflexivity]).
Qed.

(** X12, witness: the word "stream" of "stream x", entered at offset 0. *)
Lemma X12_word_item_witness :
  let inp := bytes "stream x" in
  let l := lexer_of (run plainLib 1 9 (lex inp)) in
  let k := rune_span (isAlphaNumeric plainLib) (drop (start l) inp) in
  let text := slice inp (start l) (start l + k) in
  let t :=
    match map_lookup keytoks text with Some t => t | None => itemWord end in
  0 < k /\
  isAlphaNumeric plainLib (next_rune (drop (start l + k) inp)) = false /\
  exists l',
    run plainLib (1 + 1) 9 (lex inp) =
      Busy (if itemType_eqb t itemStream then LexStream else LexDefault) l' /\
    items l' = items l ++ [Item.mk t (start l) text].
Proof.
  intros inp l.
  apply (X12_word_item plainLib inp 1 9 l).
  - vm_compute. discriminate.
  - vm_compute. lia.
  - vm_compute. reflexivity.
Defined.

(** ** Names and hex strings *)

Lemma backup_at l q w :
  wfb l -> pos l <= q -> 0 <= w -> q + w <= len (input l) ->
  backup (at_pos l (q + w) w) = at_pos l q w.
Proof.
  intros (M & S & P) Q W0 W1. simp_lexer. no_wrap. lexer_eq.
Qed.

Lemma in_hex r :
  (0 <=? IndexRune (bytes "0123456789abcdefABCDEF") r) = hex_rune r.
Proof.
  ascii_set r. unfold hex_rune.
  destruct (((48 <=? r) && (r <=? 57)) || ((97 <=? r) && (r <=? 102)) ||
            ((65 <=? r) && (r <=? 70))) eqn:Q.
  - assert (D : r = 48 \/ r = 49 \/ r = 50 \/ r = 51 \/ r = 52 \/ r = 53 \/
                r = 54 \/ r = 55 \/ r = 56 \/ r = 57 \/ r = 97 \/ r = 98 \/
                r = 99 \/ r = 100 \/ r = 101 \/ r = 102 \/ r = 65 \/
                r = 66 \/ r = 67 \/ r = 68 \/ r = 69 \/ r = 70).
    { repeat match type of Q with
      | (_ || _) = true => apply orb_true_iff in Q; destruct Q as [Q|Q]
      end; bool_to_prop; lia. }
    repeat (destruct D as [->|D]; [reflexivity|]). subst. reflexivity.
  - repeat match goal with
    | |- context [r =? ?k] =>
      let Q' := fresh in destruct (r =? k) eqn:Q'; bool_to_prop;
      [subst; cbn in *; congruence|]
    end. reflexivity.
Qed.

Section Names.

Variable E : GoLib.

Lemma regular_rune_ascii r : regular_rune r = true -> 0 <= r < 0x80.
Proof.
  unfold regular_rune. intros H.
  apply andb_true_iff in H. destruct H as (H & _).
  apply andb_true_iff in H. destruct H; bool_to_prop; lia.
Qed.

(** A regular character is no boundary. *)
Lemma regular_no_boundary r :
  regular_rune r = true ->
  isDelim r || IsSpace E r || (r =? eof) = false.
Proof.
  intros H. pose proof (regular_rune_ascii r H) as A.
  unfold regular_rune in H.
  apply andb_true_iff in H. destruct H as (H & D).
  apply andb_true_iff in H. destruct H as (Lo & Hi). bool_to_prop.
  rewrite isDelim_spec. apply negb_true_iff in D. rewrite D.
  rewrite IsSpace_latin1 by lia. unfold eof.
  repeat match goal with
  | |- context [r =? ?k] =>
    let Q := fresh in destruct (r =? k) eqn:Q; bool_to_prop; [lia|]
  end. reflexivity.
Qed.

Lemma regular_head s :
  head_is regular_rune s = true ->
  exists c t, s = c :: t /\ next_rune s = rune c /\ next_width s = 1 /\
              regular_rune (rune c) = true.
Proof.
  destruct s as [|c t]; cbn [head_is]; [discriminate|]. intros H.
  pose proof (regular_rune_ascii _ H) as A.
  exists c, t. split; [reflexivity|].
  cbn [next_rune next_width].
  destruct (DecodeRuneInString (c :: t)) as [r w] eqn:D. cbn [fst snd].
  destruct (DecodeRune_cases _ _ _ _ D) as [(_ & -> & ->)|(X & _)]; [|lia].
  repeat split. exact H.
Qed.

Lemma lexName_spec : forall fuel l q w,
  wfb l -> pos l <= q <= len (input l) ->
  (List.length (drop q (input l)) < fuel)%nat ->
  let s := drop q (input l) in
  let k := run_len regular_rune s in
  let rest := drop k s in
  lexName E fuel (at_pos l q w) =
    Some (if boundary E rest
          then (Some LexDefault,
                emit (at_pos l (q + k) (next_width rest)) itemName)
          else errorf E (at_pos l (q + k + next_width rest) (next_width rest))
                      "illegal character in name: %#U"
                      [ArgRune (next_rune rest)]).
Proof.
  induction fuel as [|n IH]; intros l q w W Q F s k rest; [lia|].
  pose proof W as (M & S & P). fold s in F.
  cbn [lexName].
  destruct (next_at l q w W Q) as (N & N0 & N1). fold s in N, N0, N1.
  rewrite N. fold (boundary E s).
  destruct (head_is regular_rune s) eqn:Hd.
  - destruct (regular_head s Hd) as (c & t & Es & Er & Ew & Rg).
    unfold boundary at 1. cbv zeta. rewrite Er.
    rewrite (regular_no_boundary _ Rg).
    unfold regular_rune in Rg. apply andb_true_iff in Rg.
    destruct Rg as (Rg & _). rewrite Rg. rewrite Ew.
    assert (D : drop (q + 1) (input l) = t).
    { apply (drop_succ (input l) q c t); [lia|exact Es]. }
    assert (Lt : (List.length t < n)%nat).
    { rewrite Es in F. cbn [List.length] in F. lia. }
    rewrite Ew in N1.
    rewrite IH; [|exact W|lia|rewrite D; exact Lt].
    rewrite D. unfold rest, k. rewrite Es. cbn [run_len].
    cbn [head_is] in Hd. rewrite Es in Hd. cbn [head_is] in Hd. rewrite Hd.
    pose proof (run_len_bound regular_rune t) as B.
    replace (drop (1 + run_len regular_rune t) (c :: t))
      with (drop (run_len regular_rune t) t).
    2:{ rewrite <- (drop_drop (c :: t) 1) by lia. rewrite drop_1_cons.
        reflexivity. }
    rewrite !Z.add_assoc. reflexivity.
  - assert (K : k = 0) by (apply run_len_head_false; exact Hd).
    unfold rest. rewrite K, drop_0, Z.add_0_r.
    destruct (boundary E s) eqn:Bd.
    + rewrite backup_at by (exact W || lia). reflexivity.
    + destruct ((32 <? next_rune s) && (next_rune s <? 127)) eqn:Pr;
        [|reflexivity].
      exfalso. apply andb_true_iff in Pr. destruct Pr as (Lo & Hi).
      bool_to_prop.
      destruct (next_rune_ascii s ltac:(lia)) as (c & t & Es & Er & _).
      rewrite Es in Hd. cbn [head_is] in Hd. unfold regular_rune in Hd.
      unfold boundary in Bd. cbv zeta in Bd. rewrite isDelim_spec in Bd.
      apply orb_false_iff in Bd. destruct Bd as (Bd & _).
      apply orb_false_iff in Bd. destruct Bd as (Bd & _).
      rewrite Er, Bd in Hd.
      destruct (32 <? next_rune s) eqn:A1; bool_to_prop; [|lia].
      destruct (next_rune s <? 127) eqn:A2; bool_to_prop; [|lia].
      discriminate.
Qed.

Lemma hex_body_eof : hex_body E eof = false.
Proof. reflexivity. Qed.

Lemma lexHexObj_spec : forall fuel l q w,
  wfb l -> pos l <= q <= len (input l) ->
  (List.length (drop q (input l)) < fuel)%nat ->
  let s := drop q (input l) in
  let k := rune_span (hex_body E) s in
  let rest := drop k s in
  let l1 := at_pos l (q + k + next_width rest) (next_width rest) in
  lexHexObj E fuel (at_pos l q w) =
    Some (if next_rune rest =? 0x3E
          then (Some LexDefault, emit l1 itemHexString)
          else if next_rune rest =? eof
          then errorf E l1 "unterminated hexstring" []
          else errorf E l1 "illegal character in hexstring: %#U"
                      [ArgRune (next_rune rest)]).
Proof.
  induction fuel as [|n IH]; intros l q w W Q F s k rest l1; [lia|].
  pose proof W as (M & S & P).
  cbn [lexHexObj].
  destruct (next_at l q w W Q) as (N & N0 & N1). fold s in N, N0, N1.
  rewrite N. rewrite in_hex. fold (hex_body E (next_rune s)).
  unfold l1, rest, k. rewrite (rune_span_step _ hex_body_eof).
  destruct (hex_body E (next_rune s)) eqn:H.
  - destruct (p_true_pos _ hex_body_eof s H) as (Wp & Ne).
    pose proof (length_drop_lt s _ Wp Ne) as Lt.
    assert (D : drop (q + next_width s) (input l) = drop (next_width s) s).
    { unfold s in *. rewrite drop_drop by lia. reflexivity. }
    rewrite IH; [|exact W|lia|rewrite D; fold s in F; lia].
    rewrite D.
    pose proof (rune_span_bound _ hex_body_eof
                  (List.length (drop (next_width s) s)) _ (Nat.le_refl _)) as B.
    rewrite (drop_drop s) by lia. rewrite !Z.add_assoc. reflexivity.
  - rewrite Z.add_0_r, drop_0.
    destruct (next_rune s =? 62); [reflexivity|].
    destruct (next_rune s =? eof); reflexivity.
Qed.

End Names.

(** X13: a name item is the [/] and the longest run of regular bytes
    after it (printable ASCII other than the delimiters).  When [lexName]
    is to be called with the pending item at [start]: if a delimiter,
    white space or the end of the input follows that run, the scan sends
    the name item and goes back to dispatch, without the rune that
    follows; otherwise it sends the error item "illegal character in
    name" for the rune that follows, and ends. *)
Theorem X13_name_item
  (E : GoLib) (inp : list byte) (n fuel : nat) (l : lexer) :
  len inp <= max_int -> (List.length inp < fuel)%nat ->
  run E n fuel (lex inp) = Busy LexName l ->
  let k := run_len regular_rune (drop (start l + 1) inp) in
  let rest := drop (start l + 1 + k) inp in
  exists l',
    run E (n + 1) fuel (lex inp) =
      (if boundary E rest then Busy LexDefault l' else Done l') /\
    items l' =
      items l ++
      [if boundary E rest
       then Item.mk itemName (start l) (slice inp (start l) (start l + 1 + k))
       else
         Item.mk itemError (start l)
           (Sprintf E "illegal character in name: %#U"
                    [ArgRune (next_rune rest)])].
Proof.
  intros M F R k rest. pose proof (outcome_inv2 E inp n fuel M) as V.
  rewrite R in V. destruct V as ((Ei & W & _) & (_ & _ & _ & _ & En & _)).
  unfold input_is in Ei. cbn [entered] in En. destruct En as (Ep & _).
  pose proof W as (_ & S & P).
  pose proof (lexName_spec E fuel l (pos l) (width l) W ltac:(lia)) as L.
  cbv zeta in L. rewrite at_pos_self, Ei, Ep in L.
  pose proof (run_len_bound regular_rune (drop (start l + 1) inp)) as B.
  fold k in L, B. rewrite drop_drop in L by lia. fold rest in L.
  unfold run in *. rewrite run_from_app, R. cbn [run_from call].
  rewrite L.
  2:{ unfold drop. rewrite length_skipn. lia. }
  destruct (boundary E rest); cbn [run_from].
  - eexists. split; [reflexivity|]. simp_lexer. rewrite Ei. reflexivity.
  - unfold errorf. eexists. split; [reflexivity|]. reflexivity.
Qed.

(** X13, witness: the name of "/Type 1", entered at offset 0. *)
Lemma X13_name_item_witness :
  let inp := bytes "/Type 1" in
  let l := lexer_of (run plainLib 1 9 (lex inp)) in
  let k := run_len regular_rune (drop (start l + 1) inp) in
  let rest := drop (start l + 1 + k) inp in
  exists l',
    run plainLib (1 + 1) 9 (lex inp) =
      (if boundary plainLib rest then Busy LexDefault l' else Done l') /\
    items l' =
      items l ++
      [if boundary plainLib rest
       then Item.mk itemName (start l) (slice inp (start l) (start l + 1 + k))
       else
         Item.mk itemError (start l)
           (Sprintf plainLib "illegal character in name: %#U"
                    [ArgRune (next_rune rest)])].
Proof.
  intros inp l.
  apply (X13_name_item plainLib inp 1 9 l).
  - vm_compute. discriminate.
  - vm_compute. lia.
  - vm_compute. reflexivity.
Defined.

(** X14: a hex string item is the [<], the longest run of hexadecimal
    digits and white-space runes after it, and the [>] that follows.
    When [lexHexObj] is to be called with the pending item at [start]: if
    [>] follows that run, the scan sends the hex string item and goes back
    to dispatch; if the input ends there it sends the error item
    "unterminated hexstring", and for any other rune the error item
    "illegal character in hexstring", and ends. *)
Theorem X14_hex_string_item
  (E : GoLib) (inp : list byte) (n fuel : nat) (l : lexer) :
  len inp <= max_int -> (List.length inp < fuel)%nat ->
  run E n fuel (lex inp) = Busy LexHexObj l ->
  let k := rune_span (hex_body E) (drop (start l + 1) inp) in
  let r := next_rune (drop (start l + 1 + k) inp) in
  exists l',
    run E (n + 1) fuel (lex inp) =
      (if r =? 0x3E then Busy LexDefault l' else Done l') /\
    items l' =
      items l ++
      [if r =? 0x3E
       then Item.mk itemHexString (start l)
                    (slice inp (start l) (start l + 1 + k + 1))
       else
         Item.mk itemError (start l)
           (if r =? eof then Sprintf E "unterminated hexstring" []
            else Sprintf E "illegal character in hexstring: %#U" [ArgRune r])].
Proof.
  intros M F R k r. pose proof (outcome_inv2 E inp n fuel M) as V.
  rewrite R in V. destruct V as ((Ei & W & _) & (_ & _ & _ & _ & En & _)).
  unfold input_is in Ei. cbn [entered] in En. destruct En as (Ep & _).
  pose proof W as (_ & S & P).
  pose proof (lexHexObj_spec E fuel l (pos l) (width l) W ltac:(lia)) as L.
  cbv zeta in L. rewrite at_pos_self, Ei, Ep in L.
  pose proof (rune_span_bound _ (hex_body_eof E)
                (List.length (drop (start l + 1) inp)) _ (Nat.le_refl _)) as B.
  fold k in L, B. rewrite drop_drop in L by lia. fold r in L.
  unfold run in *. rewrite run_from_app, R. cbn [run_from call].
  rewrite L.
  2:{ unfold drop. rewrite length_skipn. lia. }
  destruct (r =? 62) eqn:Gt; cbn [run_from].
  - bool_to_prop.
    destruct (next_rune_is (drop (start l + 1 + k) inp) 62 ltac:(lia) Gt)
      as (_ & Nw & _).
    rewrite Nw. eexists. split; [reflexivity|]. simp_lexer. rewrite Ei.
    reflexivity.
  - destruct (r =? eof); unfold errorf; cbn [run_from];
      (eexists; split; [reflexivity|reflexivity]).
Qed.

(** X14, witness: the hex string of "<0a F>x", entered at offset 0. *)
Lemma X14_hex_string_item_witness :
  let inp := bytes "<0a F>x" in
  let l := lexer_of (run plainLib 1 9 (lex inp)) in
  let k := rune_span (hex_body plainLib) (drop (start l + 1) inp) in
  let r := next_rune (drop (start l + 1 + k) inp) in
  exists l',
    run plainLib (1 + 1) 9 (lex inp) =
      (if r =? 0x3E then Busy LexDefault l' else Done l') /\
    items l' =
      items l ++
      [if r =? 0x3E
       then Item.mk itemHexString (start l)
                    (slice inp (start l) (start l + 1 + k + 1))
       else
         Item.mk itemError (start l)
           (if r =? eof then Sprintf plainLib "unterminated hexstring" []
            else Sprintf plainLib "illegal character in hexstring: %#U"
                         [ArgRune r])].
Proof.
  intros inp l.
  apply (X14_hex_string_item plainLib inp 1 9 l).
  - vm_compute. discriminate.
  - vm_compute. lia.
  - vm_compute. reflexivity.
Defined.

(** ** Comments *)

Lemma run_len_prefix p : forall (w : nat) s,
  Forall (fun b => p (rune b) = true) (firstn w s) ->
  (w <= List.length s)%nat ->
  run_len p s = Z.of_nat w + run_len p (drop (Z.of_nat w) s).
Proof.
  induction w as [|w IH]; intros s A L.
  - rewrite drop_0. reflexivity.
  - destruct s as [|c t]; [cbn in L; lia|].
    cbn [firstn] in A. inversion A as [|? ? Hc Ht]; subst.
    cbn [run_len]. rewrite Hc. cbn [List.length] in L.
    rewrite (IH t Ht) by lia.
    replace (drop (Z.of_nat (S w)) (c :: t)) with (drop (Z.of_nat w) t).
    + lia.
    + unfold drop. rewrite !Nat2Z.id. reflexivity.
Qed.

(** A run that is not the whole input ends before a byte that does not
    satisfy [p]. *)
Lemma run_len_stop p (q : Z -> bool) : forall s,
  run_len p s < len s -> (forall r, negb (p r) = q r) ->
  head_is q (drop (run_len p s) s) = true.
Proof.
  induction s as [|b u IH]; cbn [run_len]; intros X Hq.
  - unfold len in X. cbn in X. lia.
  - destruct (p (rune b)) eqn:Lb.
    + pose proof (run_len_bound p u).
      replace (drop (1 + run_len p u) (b :: u)) with (drop (run_len p u) u).
      * apply IH; [rewrite len_cons in X; lia|exact Hq].
      * rewrite <- (drop_drop (b :: u) 1) by lia. rewrite drop_1_cons.
        reflexivity.
    + rewrite drop_0. cbn [head_is]. rewrite <- Hq, Lb. reflexivity.
Qed.

Lemma line_rune_high r : 0x80 <= r -> line_rune r = true.
Proof.
  intros H. unfold line_rune, isEndOfLine.
  destruct (r =? 13) eqn:A; bool_to_prop; [lia|].
  destruct (r =? 10) eqn:B; bool_to_prop; [lia|]. reflexivity.
Qed.

(** The rune decoded at a byte that is no end of line is no end of line,
    and all its bytes are no end of line. *)
Lemma decode_line c t :
  line_rune (rune c) = true ->
  let s := c :: t in
  isEndOfLine (next_rune s) = false /\
  1 <= next_width s <= len s /\
  run_len line_rune s =
    next_width s + run_len line_rune (drop (next_width s) s).
Proof.
  intros H s. unfold s. cbn [next_rune next_width].
  destruct (DecodeRuneInString (c :: t)) as [r w] eqn:D. cbn [fst snd].
  destruct (DecodeRune_cases _ _ _ _ D) as [(_ & -> & ->)|(_ & Hr & Hw & Hf)].
  - split; [apply negb_true_iff; exact H|].
    split; [rewrite len_cons; pose proof (len_nonneg t); lia|].
    cbn [run_len]. rewrite H, drop_1_cons. reflexivity.
  - split; [apply negb_true_iff; apply line_rune_high; exact Hr|].
    split; [exact Hw|].
    rewrite (run_len_prefix line_rune (Z.to_nat w) (c :: t)).
    + rewrite Z2Nat.id by lia. reflexivity.
    + eapply Forall_impl; [|exact Hf]. intros b Hb. apply line_rune_high.
      exact Hb.
    + unfold len in Hw. lia.
Qed.

Lemma lexComment_loop_spec : forall fuel l q w r0,
  wfb l -> pos l <= q <= len (input l) ->
  (List.length (drop q (input l)) < fuel)%nat ->
  let s := drop q (input l) in
  let k := run_len line_rune s in
  k < len s ->
  exists r,
    lexComment_loop fuel r0 (at_pos l q w) = Some (r, at_pos l (q + k) 1) /\
    (r0 <> 0x0D -> r <> 0x0D).
Proof.
  induction fuel as [|n IH]; intros l q w r0 W Q F s k K; [lia|].
  pose proof W as (M & S & P). unfold k, s in *. clear k s.
  cbn [lexComment_loop].
  pose proof (peek_at l q w W Q) as Pk. cbv zeta in Pk. rewrite Pk.
  destruct (next_at l q (next_width (drop q (input l))) W Q) as (N & N0 & N1).
  destruct (drop q (input l)) as [|c t] eqn:Es.
  { unfold len in K. cbn in K. lia. }
  destruct (line_rune (rune c)) eqn:H.
  - destruct (decode_line c t H) as (Ne & Wb & Rl). cbv zeta in Ne, Wb, Rl.
    rewrite Ne. cbn [negb]. rewrite N.
    assert (D : drop (q + next_width (c :: t)) (input l) =
                drop (next_width (c :: t)) (c :: t)).
    { rewrite <- Es. rewrite drop_drop;
        [reflexivity|lia|apply next_width_nonneg]. }
    assert (Lt : (List.length (drop (next_width (c :: t)) (c :: t)) <
                  List.length (c :: t))%nat).
    { apply length_drop_lt; [lia|discriminate]. }
    destruct (IH l (q + next_width (c :: t)) (next_width (c :: t))
                 (next_rune (c :: t)) W ltac:(lia)) as (r & L & Hr).
    { rewrite D. lia. }
    { rewrite D. rewrite len_drop by lia. lia. }
    exists r. rewrite L, D. split.
    + rewrite Rl, Z.add_assoc. reflexivity.
    + intros _. apply Hr. unfold isEndOfLine in Ne.
      apply orb_false_iff in Ne. destruct Ne as (Ne & _). bool_to_prop.
      exact Ne.
  - assert (A : rune c < 0x80).
    { destruct (Z_lt_ge_dec (rune c) 0x80) as [X|X]; [exact X|].
      rewrite line_rune_high in H by lia. discriminate. }
    destruct (next_rune_ascii (c :: t)) as (c' & t' & Q' & R & Nw).
    { cbn [next_rune].
      destruct (DecodeRuneInString (c :: t)) as [r w'] eqn:D. cbn [fst].
      pose proof (rune_range c).
      destruct (DecodeRune_cases _ _ _ _ D) as [(_ & -> & _)|(X & _)]; lia. }
    inversion Q'; subst c' t'. rewrite R in H.
    unfold line_rune in H. apply negb_false_iff in H. rewrite H. cbn [negb].
    exists r0. cbn [run_len]. rewrite R.
    unfold line_rune. rewrite H. cbn [negb]. rewrite Nw, Z.add_0_r.
    split; [reflexivity|tauto].
Qed.

(** With no end-of-line byte ahead the loop of [lexComment] does not
    end. *)
Lemma lexComment_loop_open : forall fuel l q w r0,
  wfb l -> pos l <= q <= len (input l) ->
  run_len line_rune (drop q (input l)) = len (drop q (input l)) ->
  lexComment_loop fuel r0 (at_pos l q w) = None.
Proof.
  induction fuel as [|n IH]; intros l q w r0 W Q K; [reflexivity|].
  pose proof W as (M & S & P).
  cbn [lexComment_loop].
  pose proof (peek_at l q w W Q) as Pk. cbv zeta in Pk. rewrite Pk.
  destruct (next_at l q (next_width (drop q (input l))) W Q) as (N & N0 & N1).
  destruct (drop q (input l)) as [|c t] eqn:Es.
  - cbn [next_rune isEndOfLine negb]. change (isEndOfLine eof) with false.
    cbn [negb]. rewrite N. cbn [next_rune next_width]. rewrite Z.add_0_r.
    apply IH; [exact W|exact Q|]. rewrite Es. reflexivity.
  - assert (H : line_rune (rune c) = true).
    { cbn [run_len] in K. destruct (line_rune (rune c)); [reflexivity|].
      rewrite len_cons in K. pose proof (len_nonneg t). lia. }
    destruct (decode_line c t H) as (Ne & Wb & Rl). cbv zeta in Ne, Wb, Rl.
    rewrite Ne. cbn [negb]. rewrite N.
    apply IH; [exact W|lia|].
    rewrite <- (drop_drop (input l) q) by lia. rewrite Es.
    rewrite len_drop by lia. lia.
Qed.

(** X15: a comment item runs from the [%] up to, and not including, the
    first CR or LF after it.  When [lexComment] is to be called with the
    pending item at [start] and an end-of-line byte lies ahead, [k] bytes
    on, the scan sends those [k] bytes as one comment item and goes back
    to dispatch, with the end-of-line byte still to read. *)
Theorem X15_comment_item
  (E : GoLib) (inp : list byte) (n fuel : nat) (l : lexer) :
  len inp <= max_int -> (List.length inp < fuel)%nat ->
  run E n fuel (lex inp) = Busy LexComment l ->
  let k := run_len line_rune (drop (start l) inp) in
  start l + k < len inp ->
  0 < k /\
  head_is isEndOfLine (drop (start l + k) inp) = true /\
  exists l',
    run E (n + 1) fuel (lex inp) = Busy LexDefault l' /\
    pos l' = start l + k /\
    items l' =
      items l ++
      [Item.mk itemComment (start l) (slice inp (start l) (start l + k))].
Proof.
  intros M F R k K. pose proof (outcome_inv2 E inp n fuel M) as V.
  rewrite R in V. destruct V as ((Ei & W & _) & (_ & _ & _ & _ & En & _)).
  unfold input_is in Ei. cbn [entered] in En. rewrite Ei in En.
  destruct En as (Ep & Sw). pose proof W as (_ & S & P).
  unfold starts_with in Sw.
  destruct (drop (start l) inp) as [|c t] eqn:Es; [discriminate|].
  cbn [head_is] in Sw. bool_to_prop.
  assert (D : drop (pos l) inp = t).
  { rewrite Ep. apply (drop_succ inp (start l) c t); [lia|exact Es]. }
  assert (Kt : k = 1 + run_len line_rune t).
  { unfold k. cbn [run_len]. rewrite <- Sw. reflexivity. }
  pose proof (run_len_bound line_rune t) as B.
  assert (Lt : len t = len inp - pos l).
  { rewrite <- D. apply len_drop. rewrite <- Ei. lia. }
  split; [lia|]. split.
  { rewrite <- (drop_drop inp (start l)) by lia. rewrite Es. unfold k.
    apply (run_len_stop line_rune isEndOfLine (c :: t)).
    - fold k. rewrite len_cons. lia.
    - intros r. unfold line_rune. rewrite negb_involutive. reflexivity. }
  destruct (lexComment_loop_spec fuel l (pos l) (width l) 0 W ltac:(lia))
    as (r & L & Hr).
  { unfold drop. rewrite length_skipn. rewrite Ei. lia. }
  { rewrite Ei, D. lia. }
  rewrite at_pos_self, Ei, D in L.
  unfold run in *. rewrite run_from_app, R. cbn [run_from call].
  unfold lexComment. rewrite L.
  assert (Nr : (r =? 13) = false) by (apply Z.eqb_neq; apply Hr; lia).
  rewrite Nr. cbn [run_from].
  eexists. split; [reflexivity|]. simp_lexer. rewrite Ei.
  replace (pos l + run_len line_rune t) with (start l + k) by lia.
  split; reflexivity.
Qed.

(** X15, witness: the comment of "%PDF" followed by a line feed. *)
Lemma X15_comment_item_witness :
  let inp := bytes "%PDF" ++ [x0a] in
  let l := lexer_of (run plainLib 1 9 (lex inp)) in
  let k := run_len line_rune (drop (start l) inp) in
  0 < k /\
  head_is isEndOfLine (drop (start l + k) inp) = true /\
  exists l',
    run plainLib (1 + 1) 9 (lex inp) = Busy LexDefault l' /\
    pos l' = start l + k /\
    items l' =
      items l ++
      [Item.mk itemComment (start l) (slice inp (start l) (start l + k))].
Proof.
  intros inp l.
  apply (X15_comment_item plainLib inp 1 9 l).
  - vm_compute. discriminate.
  - vm_compute. lia.
  - vm_compute. reflexivity.
  - vm_compute. reflexivity.
Defined.

(** X16: when [lexComment] is to be called and no CR or LF lies ahead in
    the input, the call never returns: however many more calls [run] is
    given and whatever the fuel, the scan is still in that call and has
    sent nothing more, neither the comment nor a terminal item. *)
Theorem X16_comment_without_end_of_line
  (E : GoLib) (inp : list byte) (n fuel m : nat) (l : lexer) :
  len inp <= max_int ->
  run E n fuel (lex inp) = Busy LexComment l ->
  run_len line_rune (drop (pos l) inp) = len inp - pos l ->
  run E (n + m) fuel (lex inp) = Busy LexComment l.
Proof.
  intros M R K. pose proof (outcome_inv2 E inp n fuel M) as V.
  rewrite R in V. destruct V as ((Ei & W & _) & _).
  unfold input_is in Ei. pose proof W as (_ & S & P).
  unfold run in *. rewrite run_from_app, R.
  destruct m as [|m]; [reflexivity|]. cbn [run_from call].
  unfold lexComment.
  rewrite <- (at_pos_self l).
  rewrite lexComment_loop_open; [reflexivity|exact W|lia|].
  rewrite Ei, K. rewrite len_drop by (rewrite <- Ei; lia). reflexivity.
Qed.

(** X16, witness: the comment of "1 %%EOF", which no end of line
    follows. *)
Lemma X16_comment_without_end_of_line_witness :
  let inp := bytes "1 %%EOF" in
  run plainLib (5 + 100) 50 (lex inp) =
    Busy LexComment (lexer_of (run plainLib 5 50 (lex inp))).
Proof.
  intros inp.
  apply (X16_comment_without_end_of_line plainLib inp 5 50 100).
  - vm_compute. discriminate.
  - vm_compute. reflexivity.
  - vm_compute. reflexivity.
Defined.

(** ** Scans that end *)

Lemma comments_closed_at : forall s (a : nat) c t,
  comments_closed s = true -> skipn a s = c :: t -> rune c = 0x25 ->
  existsb (fun b => isEndOfLine (rune b)) t = true.
Proof.
  induction s as [|b u IH]; intros a c t C D R.
  - rewrite skipn_nil in D. discriminate.
  - cbn [comments_closed] in C. apply andb_true_iff in C.
    destruct C as (C1 & C2). destruct a as [|a].
    + cbn [skipn] in D. inversion D; subst. rewrite R in C1.
      cbn in C1. exact C1.
    + cbn [skipn] in D. eapply IH; eassumption.
Qed.

Lemma eol_ahead t :
  existsb (fun b => isEndOfLine (rune b)) t = true ->
  run_len line_rune t < len t.
Proof.
  induction t as [|b u IH]; cbn [existsb run_len]; [discriminate|].
  rewrite len_cons. pose proof (len_nonneg u) as L0. unfold line_rune at 1.
  destruct (isEndOfLine (rune b)); cbn [negb orb]; [lia|].
  intros X. apply IH in X. lia.
Qed.

Section Termination.

Variable E : GoLib.
Variable inp : list byte.

Lemma lexDefault_progress l f' l' :
  Inv inp (Some LexDefault) l ->
  lexDefault E l = (Some f', l') ->
  input l' = input l /\
  ((f' <> LexDefault /\ start l' = start l) \/ start l < start l').
Proof.
  intros (Ei & W & _ & P & D) H. unfold lexDefault in H.
  destruct (next_spec l W) as (r & w & N & R). rewrite N in H.
  cbv beta iota in H.
  pose proof (rune_at_width _ _ _ R) as (W0 & W1).
  pose proof (rune_at_eof _ _ _ R) as (W2 & W3).
  pose proof (rune_at_ascii _ _ _ R) as W4.
  assert (W' : wfb (at_pos l (pos l + w) w)).
  { unfold wfb in *; simp_lexer; lia. }
  destruct (peek_spec _ W') as (r2 & w2 & N2 & R2).
  rewrite N2 in H. cbv beta iota in H.
  clear N N2 R R2. cbn [pre] in P.
  unfold lexDefault_eof, errorf in H.
  repeat match type of H with
  | context [if ?c then _ else _] => destruct c eqn:?
  end; inversion H; subst f' l'; clear H; bool_to_prop; unfold eof in *;
    unfold wfb in *; simp_lexer; no_wrap;
    (split; [reflexivity|]);
    first [ left; split; [discriminate|reflexivity] | right; lia ].
Qed.

(** Every call that hands over to a state function leaves less to do. *)
Lemma call_progress fuel f l f' l' :
  Inv inp (Some f) l -> Inv2 E (Some f) l ->
  call E fuel f l = Some (Some f', l') ->
  to_do f' l' < to_do f l.
Proof.
  intros V V2 H. pose proof V as (Ei & W & _ & P & D).
  pose proof W as (M & S & Q). unfold to_do.
  assert (Sh : match f with
               | LexDefault | LexStream | LexLeftDict | LexRightDict => False
               | _ => True
               end ->
               input l' = input l /\ start l < start l').
  { intros Lp. pose proof (call_shape E inp fuel f l _ _ V V2 Lp H) as X.
    inversion X as [l1 t (p & w & -> & Pq) Lt Em|]; subst.
    simp_lexer. split; [reflexivity|lia]. }
  destruct f; try (destruct (Sh I) as (-> & Lt); destruct f'; lia);
    clear Sh; cbn [call] in H;
    match type of H with
    | Some ?x = Some ?y => assert (H' : x = y) by congruence
    end; clear H.
  - destruct (lexDefault_progress l f' l' V H') as (-> & [(Nd & ->)|Lt]).
    + destruct f'; try lia. congruence.
    + destruct f'; lia.
  - unfold lexStream in H'.
    assert (K : 0 <= 0) by lia.
    destruct (Index_from_bound rightStream (drop (pos l) (input l)) 0 _
                               eq_refl K) as [B|B];
      fold (Index (drop (pos l) (input l)) rightStream) in B;
      set (i := Index (drop (pos l) (input l)) rightStream) in *.
    + rewrite B in H'. cbn in H'. discriminate.
    + rewrite len_drop in B by lia.
      destruct (i <? 0) eqn:Lt; bool_to_prop; [lia|].
      inversion H'; subst; clear H'.
      change (len rightStream) with 9 in *. simp_lexer. no_wrap. lia.
  - unfold lexLeftDict in H'. inversion H'; subst; clear H'.
    change (len leftDict) with 2. cbn [pre] in P. simp_lexer. no_wrap. lia.
  - unfold lexRightDict in H'. inversion H'; subst; clear H'.
    change (len rightDict) with 2. cbn [pre] in P. simp_lexer. no_wrap. lia.
Qed.

(** With enough fuel every call returns, but that of [lexComment] when
    no end of line lies ahead. *)
Lemma call_returns fuel f l :
  Inv inp (Some f) l -> Inv2 E (Some f) l ->
  (List.length inp < fuel)%nat ->
  (f = LexComment ->
   run_len line_rune (drop (pos l) inp) < len (drop (pos l) inp)) ->
  exists r, call E fuel f l = Some r.
Proof.
  intros V V2 F C. pose proof V as (Ei & W & _ & P & D).
  unfold input_is in Ei. pose proof W as (M & S & Q).
  destruct V2 as (_ & _ & _ & _ & En & _). cbn [entered] in En.
  assert (Fq : (List.length (drop (pos l) (input l)) < fuel)%nat).
  { unfold drop. rewrite length_skipn, Ei. lia. }
  assert (Fz : (Z.to_nat (len (input l) - pos l) < fuel)%nat).
  { rewrite Ei. unfold len. lia. }
  assert (Q' : pos l <= pos l <= len (input l)) by lia.
  destruct f; cbn [call]; try (eexists; reflexivity).
  - destruct (lexComment_loop_spec fuel l (pos l) (width l) 0 W Q' Fq)
      as (r & L & _).
    { rewrite Ei. apply C. reflexivity. }
    rewrite at_pos_self in L. unfold lexComment. rewrite L.
    eexists. reflexivity.
  - rewrite <- (at_pos_self l).
    rewrite (lexName_spec E fuel l (pos l) (width l) W Q' Fq).
    eexists. reflexivity.
  - cbn [entered] in En. destruct En as (Ep & _).
    unfold lexStringObj. rewrite <- (at_pos_self l).
    rewrite (lexStringObj_loop_spec E fuel l (pos l) (width l) 1 W Q')
      by (exact Fz || lia).
    eexists. reflexivity.
  - rewrite <- (at_pos_self l).
    rewrite (lexHexObj_spec E fuel l (pos l) (width l) W Q' Fq).
    eexists. reflexivity.
  - unfold lexSpace. rewrite <- (at_pos_self l).
    rewrite (lexSpace_loop_spec E fuel l (pos l) (width l) W Q' Fq).
    eexists. reflexivity.
  - unfold lexWord. rewrite <- (at_pos_self l).
    rewrite (lexWord_loop_spec E fuel l (pos l) (width l) W Q' Fq).
    destruct (map_lookup keytoks _) as [tok|]; [destruct tok|];
      eexists; reflexivity.
  - unfold lexNumber.
    destruct (scanNumber_spec E fuel l W) as (w & Sc & _).
    { rewrite Ei. exact F. }
    rewrite Sc. destruct (boundary E _); eexists; reflexivity.
Qed.

Hypothesis closed : comments_closed inp = true.

Lemma run_from_ends fuel :
  (List.length inp < fuel)%nat ->
  forall n f l,
    Inv inp (Some f) l -> Inv2 E (Some f) l ->
    to_do f l < Z.of_nat n ->
    exists l', run_from E n fuel (Some f) l = Done l'.
Proof.
  intros F. induction n as [|n IH]; intros f l V V2 T.
  - exfalso. pose proof V as (_ & (_ & S & Q) & _).
    unfold to_do in T. destruct f; lia.
  - cbn [run_from].
    destruct (call_returns fuel f l V V2 F) as ([st' l'] & C).
    { intros ->. pose proof V as (Ei & (_ & S & Q) & _).
      unfold input_is in Ei.
      destruct V2 as (_ & _ & _ & _ & En & _). cbn [entered] in En.
      destruct En as (Ep & Sw). unfold starts_with in Sw. rewrite Ei in Sw.
      destruct (drop (start l) inp) as [|c t] eqn:Es; [discriminate|].
      cbn [head_is] in Sw. bool_to_prop.
      assert (D : drop (pos l) inp = t).
      { rewrite Ep. apply (drop_succ inp (start l) c t); [lia|exact Es]. }
      rewrite D. apply eol_ahead.
      apply (comments_closed_at inp (Z.to_nat (start l)) c t closed Es).
      congruence. }
    rewrite C. destruct st' as [f'|].
    + apply IH.
      * eapply call_inv; eauto.
      * eapply call_inv2; eauto.
      * pose proof (call_progress fuel f l f' l' V V2 C). lia.
    + exists l'. destruct n; reflexivity.
Qed.

End Termination.

(** X17: a scan of an input in which an end-of-line byte follows every
    [%] ends: after at most [2 * len(input) + 2] calls of state
    functions [run] returns, and the last item sent is the one terminal
    item, an error item or the end-of-input item. *)
Theorem X17_scan_ends
  (E : GoLib) (inp : list byte) (n fuel : nat) :
  len inp <= max_int ->
  comments_closed inp = true ->
  (2 * List.length inp + 2 <= n)%nat -> (List.length inp < fuel)%nat ->
  exists l body t,
    run E n fuel (lex inp) = Done l /\
    items l = body ++ [t] /\ terminal_type (Item.typ t) = true /\
    Forall plain body.
Proof.
  intros M C N F.
  destruct (run_from_ends E inp C fuel F n LexDefault (lex inp))
    as (l & R).
  - apply lex_inv. exact M.
  - apply lex_inv2.
  - unfold to_do, lex, len. cbn [input start]. lia.
  - pose proof (outcome_inv2 E inp n fuel M) as V. unfold run in *.
    rewrite R in V. destruct V as (_ & V2).
    destruct (Inv2_items_plain E None l V2) as (body & t & Ei & T & P).
    exists l, body, t. repeat split; assumption.
Qed.

(** X17, witness: the scan of "%a" followed by a line feed and "[1]". *)
Lemma X17_scan_ends_witness :
  let inp := bytes "%a" ++ [x0a] ++ bytes "[1]" in
  exists l body t,
    run plainLib 14 7 (lex inp) = Done l /\
    items l = body ++ [t] /\ terminal_type (Item.typ t) = true /\
    Forall plain body.
Proof.
  intros inp.
  apply (X17_scan_ends plainLib inp 14 7).
  - vm_compute. discriminate.
  - vm_compute. reflexivity.
  - vm_compute. lia.
  - vm_compute. lia.
Defined.

(** ** Dispatch at the end of the input and on an illegal character *)

Lemma slice_empty s a : slice s a a = [].
Proof. unfold slice. rewrite Z.sub_diag. reflexivity. Qed.

(** X18: at the end of the input dispatch ends the scan: with a
    left-array item still unmatched it sends the error item "unterminated
    array", else with a left-dict item still unmatched the error item
    "unterminated dict", and else the end-of-input item with an empty
    value, all at the offset [len(input)].  The scan of the empty input
    sends the end-of-input item alone. *)
Theorem X18_end_of_input
  (E : GoLib) (inp : list byte) (n fuel : nat) (l : lexer) :
  len inp <= max_int ->
  run E n fuel (lex inp) = Busy LexDefault l ->
  start l = len inp ->
  exists l',
    run E (n + 1) fuel (lex inp) = Done l' /\
    items l' =
      items l ++
      [if count_typ itemRightArray (items l) <?
          count_typ itemLeftArray (items l)
       then Item.mk itemError (len inp) (Sprintf E "unterminated array" [])
       else if count_typ itemRightDict (items l) <?
               count_typ itemLeftDict (items l)
       then Item.mk itemError (len inp) (Sprintf E "unterminated dict" [])
       else Item.mk itemEOF (len inp) []].
Proof.
  intros M R St. pose proof (outcome_inv2 E inp n fuel M) as V.
  rewrite R in V. destruct V as ((Ei & W & _ & P & _) & (_ & _ & A & D & _)).
  unfold input_is in Ei. cbn [pre] in P. cbn [dict_ahead] in D.
  pose proof W as (_ & S & Q).
  assert (Dn : drop (pos l) (input l) = []).
  { unfold drop. apply skipn_all2. rewrite Ei. unfold len in St. lia. }
  unfold run in *. rewrite run_from_app, R. cbn [run_from call].
  unfold lexDefault. rewrite (next_at_end l W Dn). cbv beta iota.
  unfold eof. change (IsSpace E (-1)) with false.
  change (isAlphaNumeric E (-1)) with false.
  cbn [Z.eqb Z.leb Z.ltb Z.compare andb orb negb].
  unfold lexDefault_eof, errorf. simp_lexer.
  rewrite A, D. unfold open_arrays, open_dicts.
  rewrite Z.add_0_r, P, St, slice_empty.
  replace (0 <? count_typ itemLeftArray (items l) -
                count_typ itemRightArray (items l))
    with (count_typ itemRightArray (items l) <?
          count_typ itemLeftArray (items l)).
  2:{ destruct (count_typ itemRightArray (items l) <?
                count_typ itemLeftArray (items l)) eqn:X;
      symmetry; [apply Z.ltb_lt|apply Z.ltb_ge]; bool_to_prop; lia. }
  replace (0 <? count_typ itemLeftDict (items l) -
                count_typ itemRightDict (items l))
    with (count_typ itemRightDict (items l) <?
          count_typ itemLeftDict (items l)).
  2:{ destruct (count_typ itemRightDict (items l) <?
                count_typ itemLeftDict (items l)) eqn:X;
      symmetry; [apply Z.ltb_lt|apply Z.ltb_ge]; bool_to_prop; lia. }
  destruct (count_typ itemRightArray (items l) <?
            count_typ itemLeftArray (items l));
    [|destruct (count_typ itemRightDict (items l) <?
                count_typ itemLeftDict (items l))];
    cbn [run_from]; eexists; (split; [reflexivity|reflexivity]).
Qed.

(** X18, witness: the empty input. *)
Lemma X18_end_of_input_witness :
  exists l',
    run plainLib (0 + 1) 0 (lex []) = Done l' /\
    items l' = [] ++ [Item.mk itemEOF 0 []].
Proof.
  apply (X18_end_of_input plainLib [] 0 0 (lex [])).
  - vm_compute. discriminate.
  - reflexivity.
  - reflexivity.
Defined.

(** X19: the delimiters [)], [{] and [}] start no item: when dispatch
    reads one of them the scan sends the error item "illegal character"
    for it, at its offset, and ends. *)
Theorem X19_illegal_delimiter
  (E : GoLib) (inp : list byte) (n fuel : nat) (l : lexer)
  (c : byte) (t : list byte) :
  len inp <= max_int ->
  run E n fuel (lex inp) = Busy LexDefault l ->
  drop (start l) inp = c :: t ->
  c = x29 \/ c = x7b \/ c = x7d ->
  exists l',
    run E (n + 1) fuel (lex inp) = Done l' /\
    items l' =
      items l ++
      [Item.mk itemError (start l)
         (Sprintf E "illegal character: %#U" [ArgRune (rune c)])].
Proof.
  intros M R Dc C. pose proof (outcome_inv2 E inp n fuel M) as V.
  rewrite R in V. destruct V as ((Ei & W & _ & P & _) & _).
  unfold input_is in Ei. cbn [pre] in P.
  rewrite <- Ei, <- P in Dc.
  unfold run in *. rewrite run_from_app, R. cbn [run_from call].
  unfold lexDefault.
  rewrite (next_byte l c t W Dc)
    by (destruct C as [-> | [-> | ->]]; cbv; reflexivity).
  destruct C as [-> | [-> | ->]];
    match goal with |- context [rune ?b] =>
      let v := eval cbv in (rune b) in change (rune b) with v
    end; cbv beta iota;
    match goal with |- context [IsSpace E ?r] =>
      change (IsSpace E r) with false
    end;
    match goal with |- context [isAlphaNumeric E ?r] =>
      change (isAlphaNumeric E r) with false
    end;
    cbn [Z.eqb Pos.eqb Z.leb Z.ltb Z.compare Pos.compare Pos.compare_cont
         andb orb negb eof];
    unfold errorf; cbn [run_from]; eexists;
    (split; [reflexivity|reflexivity]).
Qed.

(** X19, witness: the scan of "[)". *)
Lemma X19_illegal_delimiter_witness :
  exists l',
    run plainLib (1 + 1) 9 (lex (bytes "[)")) = Done l' /\
    items l' =
      items (lexer_of (run plainLib 1 9 (lex (bytes "[)")))) ++
      [Item.mk itemError
         (start (lexer_of (run plainLib 1 9 (lex (bytes "[)")))))
         (Sprintf plainLib "illegal character: %#U" [ArgRune (rune x29)])].
Proof.
  apply (X19_illegal_delimiter plainLib (bytes "[)") 1 9
           (lexer_of (run plainLib 1 9 (lex (bytes "[)")))) x29 []).
  - vm_compute. discriminate.
  - vm_compute. reflexivity.
  - vm_compute. reflexivity.
  - left. reflexivity.
Defined.

(** ** The primitives of the scanner *)

Lemma DecodeRune_width s : 0 <= snd (DecodeRuneInString s) <= 4.
Proof.
  unfold DecodeRuneInString.
  repeat match goal with
  | |- context [match ?t with [] => _ | _ :: _ => _ end] => destruct t
  | |- context [let '(_, _) := ?p in _] => destruct p
  | |- context [if ?c then _ else _] => destruct c
  end; cbn [snd]; lia.
Qed.

Lemma in_set_char_set v : ascii_only v -> char_set v (in_set v).
Proof.
  intros A. split.
  - intros r. apply IndexRune_ascii. exact A.
  - intros r H. unfold in_set in H. apply existsb_exists in H.
    destruct H as (b & Hb & Q). bool_to_prop. subst r.
    unfold ascii_only in A. rewrite Forall_forall in A.
    pose proof (rune_range b). specialize (A b Hb). lia.
Qed.

(** X20: [next] leaves the input, the start of the pending item and the
    items alone and moves [pos] by the width that it records.  At the end
    of the input it returns [eof] with width 0, and does not move;
    elsewhere it returns a rune that is not [eof], with a width from 1 to
    4, and stays within the input. *)
Theorem X20_next (l : lexer) :
  wfb l ->
  let r := fst (next l) in
  let l' := snd (next l) in
  input l' = input l /\ start l' = start l /\ items l' = items l /\
  arrayDepth l' = arrayDepth l /\ dictDepth l' = dictDepth l /\
  pos l' = pos l + width l' /\
  (if pos l =? len (input l)
   then r = eof /\ width l' = 0
   else 0 <= r /\ 1 <= width l' <= 4 /\ pos l' <= len (input l)).
Proof.
  intros W r l'. unfold r, l'. clear r l'.
  destruct (next_spec l W) as (r & w & N & R). rewrite N. cbn [fst snd].
  pose proof W as (M & S & P).
  destruct (rune_at_next l r w W R) as (_ & Ew).
  destruct (rune_at_eof _ _ _ R) as (Ef & Lo).
  destruct (rune_at_width _ _ _ R) as (W0 & W1).
  simp_lexer. repeat (split; [reflexivity|]).
  destruct (pos l =? len (input l)) eqn:Q; bool_to_prop.
  - assert (w = 0) by lia. unfold eof in *. split; [|assumption]. tauto.
  - assert (Wd : w <= 4).
    { rewrite Ew. destruct (drop (pos l) (input l)) as [|c t] eqn:D;
        cbn [next_width]; [lia|]. apply DecodeRune_width. }
    assert (Nz : w <> 0).
    { destruct R as [(_ & _ & X)|(c & t & _ & _ & X & _)]; lia. }
    unfold eof in *. assert (r <> -1) by tauto. lia.
Qed.

(** X20, witness: [next] at the start of "ab". *)
Lemma X20_next_witness :
  let l := lex (bytes "ab") in
  let r := fst (next l) in
  let l' := snd (next l) in
  input l' = input l /\ start l' = start l /\ items l' = items l /\
  arrayDepth l' = arrayDepth l /\ dictDepth l' = dictDepth l /\
  pos l' = pos l + width l' /\
  (if pos l =? len (input l)
   then r = eof /\ width l' = 0
   else 0 <= r /\ 1 <= width l' <= 4 /\ pos l' <= len (input l)).
Proof.
  apply (X20_next (lex (bytes "ab"))).
  unfold wfb. vm_compute. repeat split; discriminate.
Defined.

(** X21: [peek] returns the rune that [next] would return and consumes
    nothing: it changes no field of the scanner but [width], which it
    leaves as [next] would. *)
Theorem X21_peek (l : lexer) :
  wfb l ->
  peek l = (fst (next l), set_width l (width (snd (next l)))).
Proof.
  intros W. destruct (peek_spec l W) as (r & w & Pk & R).
  destruct (next_spec l W) as (r' & w' & N & R').
  rewrite Pk, N. cbn [fst snd].
  destruct (rune_at_next l r w W R) as (-> & ->).
  destruct (rune_at_next l r' w' W R') as (-> & ->).
  simp_lexer. reflexivity.
Qed.

(** X21, witness: [peek] at the start of "ab". *)
Lemma X21_peek_witness :
  peek (lex (bytes "ab")) =
    (fst (next (lex (bytes "ab"))),
     set_width (lex (bytes "ab")) (width (snd (next (lex (bytes "ab")))))).
Proof.
  apply (X21_peek (lex (bytes "ab"))).
  unfold wfb. vm_compute. repeat split; discriminate.
Defined.

(** X22: on a set [valid] of ASCII characters, [accept] returns true
    and moves one byte forward when the next byte of the input is in the
    set, and returns false and does not move otherwise, the end of the
    input included. *)
Theorem X22_accept (l : lexer) (valid : list byte) :
  wfb l -> ascii_only valid ->
  let b := head_is (in_set valid) (drop (pos l) (input l)) in
  fst (accept l valid) = b /\
  pos (snd (accept l valid)) = pos l + (if b then 1 else 0) /\
  input (snd (accept l valid)) = input l /\
  start (snd (accept l valid)) = start l /\
  items (snd (accept l valid)) = items l.
Proof.
  intros W A b.
  destruct (accept_spec l valid (in_set valid) W (in_set_char_set valid A))
    as (w & Ac).
  fold b in Ac. rewrite Ac. cbn [fst snd]. simp_lexer.
  repeat split; reflexivity.
Qed.

(** X22, witness: [accept] of a sign at the start of "-1". *)
Lemma X22_accept_witness :
  let l := lex (bytes "-1") in
  let valid := bytes "+-" in
  let b := head_is (in_set valid) (drop (pos l) (input l)) in
  fst (accept l valid) = b /\
  pos (snd (accept l valid)) = pos l + (if b then 1 else 0) /\
  input (snd (accept l valid)) = input l /\
  start (snd (accept l valid)) = start l /\
  items (snd (accept l valid)) = items l.
Proof.
  apply (X22_accept (lex (bytes "-1")) (bytes "+-")).
  - unfold wfb. vm_compute. repeat split; discriminate.
  - repeat constructor.
Defined.

(** X23: on a set [valid] of ASCII characters, [acceptRun] moves past
    the longest run of bytes of the set at [pos], and past nothing else:
    the byte after the run, if there is one, is not in the set. *)
Theorem X23_acceptRun (l : lexer) (valid : list byte) (fuel : nat) :
  wfb l -> ascii_only valid ->
  (List.length (input l) < fuel)%nat ->
  let k := run_len (in_set valid) (drop (pos l) (input l)) in
  exists l',
    acceptRun fuel l valid = Some l' /\
    pos l' = pos l + k /\ pos l' <= len (input l) /\
    head_is (in_set valid) (drop (pos l') (input l)) = false /\
    input l' = input l /\ start l' = start l /\ items l' = items l.
Proof.
  intros W A F k. pose proof W as (M & S & P).
  destruct (acceptRun_spec valid (in_set valid) fuel l
              (in_set_char_set valid A) W) as (w & Ac).
  { unfold len. lia. }
  fold k in Ac. rewrite Ac. eexists. split; [reflexivity|].
  pose proof (run_len_bound (in_set valid) (drop (pos l) (input l))) as B.
  fold k in B. rewrite len_drop in B by lia.
  simp_lexer. repeat split; try lia.
  rewrite <- (drop_drop (input l) (pos l)) by lia. unfold k.
  generalize (drop (pos l) (input l)). intros s.
  induction s as [|c t IH]; cbn [run_len]; [reflexivity|].
  destruct (in_set valid (rune c)) eqn:H.
  - pose proof (run_len_bound (in_set valid) t).
    rewrite <- (drop_drop (c :: t) 1) by lia. rewrite drop_1_cons. exact IH.
  - rewrite drop_0. cbn [head_is]. exact H.
Qed.

(** X23, witness: [acceptRun] of the digits at the start of "12a". *)
Lemma X23_acceptRun_witness :
  let l := lex (bytes "12a") in
  let valid := bytes "0123456789" in
  let k := run_len (in_set valid) (drop (pos l) (input l)) in
  exists l',
    acceptRun 9 l valid = Some l' /\
    pos l' = pos l + k /\ pos l' <= len (input l) /\
    head_is (in_set valid) (drop (pos l') (input l)) = false /\
    input l' = input l /\ start l' = start l /\ items l' = items l.
Proof.
  apply (X23_acceptRun (lex (bytes "12a")) (bytes "0123456789") 9).
  - unfold wfb. vm_compute. repeat split; discriminate.
  - repeat constructor.
  - vm_compute. lia.
Defined.

(** ** The receiving side: [nextItem], [lineNumber] and the loop of [main] *)

Lemma CountString_count_occ s c :
  CountString s c = Z.of_nat (count_occ Byte.byte_eq_dec s c).
Proof.
  induction s as [|b t IH]; cbn [CountString count_occ]; [reflexivity|].
  rewrite IH. destruct (Byte.byte_eq_dec b c) as [->|N].
  - rewrite (Byte.byte_dec_lb eq_refl). lia.
  - destruct (Byte.eqb b c) eqn:Q; [|lia].
    apply Byte.byte_dec_bl in Q. contradiction.
Qed.

Lemma count_occ_le s (c : byte) :
  (count_occ Byte.byte_eq_dec s c <= List.length s)%nat.
Proof.
  induction s as [|b t IH]; cbn [count_occ List.length]; [lia|].
  destruct (Byte.byte_eq_dec b c); lia.
Qed.

(** The line that [lineNumber] reports: one more than the number of line
    feeds before [lastPos]. *)
Lemma lineNumber_spec l lastPos :
  len (input l) < max_int ->
  lineNumber l lastPos =
  1 + Z.of_nat (count_occ Byte.byte_eq_dec
                          (firstn (Z.to_nat lastPos) (input l)) x0a).
Proof.
  intros M. unfold lineNumber, Count, slice. rewrite drop_0, Z.sub_0_r.
  rewrite CountString_count_occ.
  pose proof (count_occ_le (firstn (Z.to_nat lastPos) (input l)) x0a) as B.
  rewrite length_firstn in B. unfold len in M.
  unfold addi. apply int_wrap_id. unfold max_int in *. lia.
Qed.

Lemma main_loop_plain l : forall its,
  Forall plain its -> main_loop l its = (map Printed its, true).
Proof.
  induction its as [|i r IH]; intros P; [reflexivity|].
  inversion P as [|? ? Pi Pr]; subst. cbn [main_loop nextItem map].
  unfold plain in Pi. rewrite (IH Pr).
  destruct (Item.typ i); try discriminate; reflexivity.
Qed.

Lemma main_loop_app l t : forall body,
  Forall plain body -> terminal_type (Item.typ t) = true ->
  main_loop l (body ++ [t]) =
    (map Printed body ++
     (if itemType_eqb (Item.typ t) itemEOF then []
      else [Printed t; Aborting (lineNumber l (Item.pos t)) (pos l)]),
     false).
Proof.
  induction body as [|i r IH]; intros P T.
  - cbn [app main_loop nextItem map].
    destruct (Item.typ t); try discriminate; reflexivity.
  - inversion P as [|? ? Pi Pr]; subst.
    cbn [app main_loop nextItem map]. unfold plain in Pi.
    rewrite (IH Pr T).
    destruct (Item.typ i); try discriminate; reflexivity.
Qed.

(** X24: on a scan that has ended, [main] prints every item sent before
    the terminal item, in the order sent, and then stops without waiting:
    at the end-of-input item it prints nothing more, and at the error
    item it prints that item and gives up on the file, reporting as the
    line one more than the number of line feeds in the input before the
    offset of the error item, and as the position the position of the
    scanner. *)
Theorem X24_main_on_ended_scan
  (E : GoLib) (inp : list byte) (n fuel : nat) (l : lexer) :
  len inp < max_int ->
  run E n fuel (lex inp) = Done l ->
  exists body t,
    items l = body ++ [t] /\
    main_loop l (items l) =
      (map Printed body ++
       (if itemType_eqb (Item.typ t) itemEOF then []
        else
          [Printed t;
           Aborting
             (1 + Z.of_nat
                    (count_occ Byte.byte_eq_dec
                               (firstn (Z.to_nat (Item.pos t)) inp) x0a))
             (pos l)]),
       false).
Proof.
  intros M R. pose proof (outcome_inv2 E inp n fuel ltac:(lia)) as V.
  rewrite R in V. destruct V as ((Ei & _) & V2). unfold input_is in Ei.
  destruct (Inv2_items_plain E None l V2) as (body & t & Eq & T & P).
  exists body, t. split; [exact Eq|]. rewrite Eq.
  rewrite (main_loop_app l t body P T).
  rewrite lineNumber_spec by (rewrite Ei; exact M). rewrite Ei.
  reflexivity.
Qed.

(** X24, witness: the scan of "1", a line feed and "]". *)
Lemma X24_main_on_ended_scan_witness :
  let inp := bytes "1" ++ [x0a] ++ bytes "]" in
  let l := lexer_of (run plainLib 9 9 (lex inp)) in
  exists body t,
    items l = body ++ [t] /\
    main_loop l (items l) =
      (map Printed body ++
       (if itemType_eqb (Item.typ t) itemEOF then []
        else
          [Printed t;
           Aborting
             (1 + Z.of_nat
                    (count_occ Byte.byte_eq_dec
                               (firstn (Z.to_nat (Item.pos t)) inp) x0a))
             (pos l)]),
       false).
Proof.
  intros inp l.
  apply (X24_main_on_ended_scan plainLib inp 9 9 l).
  - vm_compute. reflexivity.
  - vm_compute. reflexivity.
Defined.

(** X25: while the scan has not ended, [main] has printed every item
    sent so far, in the order sent, and waits in [nextItem] for the next:
    it never stops before a terminal item is sent, and on a scan that
    hangs in a comment it waits for ever. *)
Theorem X25_main_on_running_scan
  (E : GoLib) (inp : list byte) (n fuel : nat) (f : stateFn) (l : lexer) :
  len inp <= max_int ->
  run E n fuel (lex inp) = Busy f l ->
  main_loop l (items l) = (map Printed (items l), true).
Proof.
  intros M R. pose proof (outcome_inv2 E inp n fuel M) as V.
  rewrite R in V. destruct V as (_ & V2).
  apply main_loop_plain. exact (Inv2_items_plain E (Some f) l V2).
Qed.

(** X25, witness: the scan of "1 %%EOF", which hangs in the comment. *)
Lemma X25_main_on_running_scan_witness :
  let l := lexer_of (run plainLib 50 50 (lex (bytes "1 %%EOF"))) in
  main_loop l (items l) = (map Printed (items l), true).
Proof.
  intros l.
  apply (X25_main_on_running_scan plainLib (bytes "1 %%EOF") 50 50 LexComment l).
  - vm_compute. discriminate.
  - vm_compute. reflexivity.
Defined.

(** ** Streams in the item sequence *)

Lemma last_typ_snoc its it : last_typ (its ++ [it]) = Some (Item.typ it).
Proof. unfold last_typ. rewrite rev_app_distr. reflexivity. Qed.

(** Sending an item that is no stream body, when neither the stream
    keyword nor a stream body was sent last. *)
Lemma stream_seq_other its it :
  stream_seq its ->
  last_typ its <> Some itemStream -> last_typ its <> Some itemStreamBody ->
  Item.typ it <> itemStreamBody ->
  stream_seq (its ++ [it]).
Proof.
  intros S A B C. apply stream_seq_snoc; [exact S| | |]; intros X;
    contradiction.
Qed.

Lemma stream_seq_adjacent its :
  stream_seq its ->
  forall p a b q, its = p ++ a :: b :: q ->
    (Item.typ b = itemStreamBody -> Item.typ a = itemStream) /\
    (Item.typ a = itemStream ->
     Item.typ b = itemStreamBody \/ Item.typ b = itemError) /\
    (Item.typ a = itemStreamBody -> Item.typ b = itemEndStream).
Proof.
  induction 1 as [|its it S IH H1 H2 H3]; intros p a b q Eq.
  - destruct p; discriminate.
  - destruct (rev q) as [|z rq] eqn:Rq.
    + assert (q = []) by (apply (f_equal (@rev _)) in Rq;
                          rewrite rev_involutive in Rq; exact Rq).
      subst q.
      replace (p ++ [a; b]) with ((p ++ [a]) ++ [b]) in Eq
        by (rewrite <- app_assoc; reflexivity).
      apply app_inj_tail in Eq. destruct Eq as (-> & ->).
      rewrite last_typ_snoc in H1, H2, H3.
      repeat split.
      * intros X. specialize (H1 X). congruence.
      * intros X. apply H2. congruence.
      * intros X. apply H3. congruence.
    + assert (Eq' : q = rev rq ++ [z]).
      { apply (f_equal (@rev _)) in Rq. rewrite rev_involutive in Rq.
        exact Rq. }
      subst q.
      replace (p ++ a :: b :: rev rq ++ [z])
        with ((p ++ a :: b :: rev rq) ++ [z]) in Eq
        by (rewrite <- app_assoc; reflexivity).
      apply app_inj_tail in Eq. destruct Eq as (-> & _).
      eapply IH. reflexivity.
Qed.

Lemma stream_seq_first its :
  stream_seq its ->
  forall a q, its = a :: q -> Item.typ a <> itemStreamBody.
Proof.
  induction 1 as [|its it S IH H1 H2 H3]; intros a q Eq; [discriminate|].
  destruct its as [|x r].
  - cbn in Eq. inversion Eq; subst. intros X. specialize (H1 X).
    discriminate.
  - cbn in Eq. inversion Eq; subst. eapply IH. reflexivity.
Qed.

Section Invariant3.

Variable E : GoLib.
Variable inp : list byte.

(** What [lexDefault] sends: nothing when it hands over to another state
    function, and else one item, a bracket or the terminal item. *)
Lemma lexDefault_sends l st' l' :
  lexDefault E l = (st', l') ->
  (items l' = items l /\ exists f', st' = Some f' /\ f' <> LexStream) \/
  (exists it,
     items l' = items l ++ [it] /\ Item.typ it <> itemStreamBody /\
     Item.typ it <> itemStream /\ (st' = Some LexDefault \/ st' = None)).
Proof.
  unfold lexDefault, lexDefault_eof, errorf.
  destruct (next l) as [r l1] eqn:N.
  assert (I1 : items l1 = items l).
  { unfold next in N. destruct (len (input l) <=? pos l);
      [|destruct (DecodeRuneInString _)]; inversion N; reflexivity. }
  destruct (peek l1) as [r2 l2] eqn:P.
  assert (I2 : items l2 = items l).
  { unfold peek in P. destruct (next l1) as [r3 l3] eqn:N3.
    inversion P; subst. unfold next in N3.
    destruct (len (input l1) <=? pos l1);
      [|destruct (DecodeRuneInString _)]; inversion N3; subst;
      simp_lexer; exact I1. }
  intros H.
  repeat match type of H with
  | context [if ?c then _ else _] => destruct c
  end; inversion H; subst st' l'; clear H; simp_lexer;
    first
      [ left; split; [assumption|]; eexists; split; [reflexivity|];
        discriminate
      | right; eexists; split; [rewrite ?I1, ?I2; reflexivity|];
        cbn [Item.typ]; split; [discriminate|]; split; [discriminate|];
        first [left; reflexivity | right; reflexivity] ].
Qed.

(** The end-of-input item has an empty value only at the end of the
    input: the one that a stray ['>'] gives holds the ['>']. *)
Lemma lexDefault_eof_at_end l l' :
  Inv inp (Some LexDefault) l ->
  lexDefault E l = (None, l') ->
  forall body t,
    items l' = body ++ [t] -> Item.typ t = itemEOF -> Item.val t = [] ->
    pos l' = len (input l').
Proof.
  intros (Ei & W & _ & P & D) H. unfold lexDefault in H.
  destruct (next_spec l W) as (r & w & N & R). rewrite N in H.
  cbv beta iota in H.
  pose proof (rune_at_width _ _ _ R) as (W0 & W1).
  pose proof (rune_at_eof _ _ _ R) as (W2 & W3).
  pose proof (rune_at_ascii _ _ _ R) as W4.
  assert (W5 : w = 0 -> pos l = len (input l)).
  { destruct R as [(_ & _ & X)|(c & t & _ & _ & X & _)]; lia. }
  assert (W' : wfb (at_pos l (pos l + w) w)).
  { unfold wfb in *; simp_lexer; lia. }
  destruct (peek_spec _ W') as (r2 & w2 & N2 & R2).
  rewrite N2 in H. cbv beta iota in H.
  clear N N2 R R2. cbn [pre] in P.
  unfold lexDefault_eof, errorf in H.
  pose proof W as (M & S & Q).
  repeat match type of H with
  | context [if ?c then _ else _] => destruct c eqn:?
  end; inversion H; subst l'; clear H; bool_to_prop; unfold eof in *;
    intros body t Eq T V; simp_lexer;
    apply app_inj_tail in Eq; destruct Eq as (_ & <-);
    cbn [Item.typ Item.val] in T, V; try discriminate T;
    apply (f_equal len) in V; rewrite len_slice in V by lia;
    change (len []) with 0 in V; lia.
Qed.

Lemma emitted_not_stream_body f t v :
  emitted_by f t v -> t <> itemStreamBody /\ t <> itemError.
Proof.
  destruct f; cbn [emitted_by]; try contradiction;
    try (intros ->; split; discriminate).
  destruct (map_lookup keytoks v) as [k|] eqn:K.
  - intros ->. pose proof (keytoks_keyword _ _ K).
    split; intros ->; discriminate.
  - intros ->. split; discriminate.
Qed.

Lemma call_inv3 fuel f l st' l' :
  Inv inp (Some f) l -> Inv2 E (Some f) l -> Inv3 (Some f) l ->
  call E fuel f l = Some (st', l') -> Inv3 st' l'.
Proof.
  intros V V2 (S & Ls & Lb) H.
  assert (Sh : match f with
               | LexDefault | LexStream | LexLeftDict | LexRightDict => False
               | _ => True
               end -> f <> LexStream -> Inv3 st' l').
  { intros Lp Nf.
    pose proof (call_shape E inp fuel f l _ _ V V2 Lp H) as X.
    assert (Nl : last_typ (items l) <> Some itemStream) by tauto.
    inversion X as [l1 t (p & w & -> & Pq) Lt Em|l1 fm args (p & w & -> & Pq)];
      subst; unfold Inv3, errorf; simp_lexer.
    - destruct (emitted_not_stream_body _ _ _ Em) as (Nb & Ne).
      split; [apply stream_seq_other; assumption|].
      rewrite last_typ_snoc. cbn [Item.typ]. split.
      + destruct t; cbn [itemType_eqb]; split; intros Q;
          congruence.
      + congruence.
    - split; [apply stream_seq_other; try assumption; discriminate|].
      intros body t Eq T _. apply app_inj_tail in Eq.
      destruct Eq as (_ & <-). discriminate T. }
  destruct f; try (apply Sh; [exact I|discriminate]); clear Sh;
    cbn [call] in H;
    match type of H with
    | Some ?x = Some ?y => assert (H' : x = y) by congruence
    end; clear H.
  - assert (Nl : last_typ (items l) <> Some itemStream).
    { intros Q. apply Ls in Q. discriminate. }
    destruct (lexDefault_sends l st' l' H')
      as [(Ei & f' & -> & Nf)|(it & Ei & Nb & Ns & St)];
      unfold Inv3; rewrite Ei.
    + split; [exact S|]. split; [|exact Lb]. split; [tauto|congruence].
    + split; [apply stream_seq_other; assumption|].
      rewrite last_typ_snoc.
      destruct St as [->| ->].
      * split; [split; intros Q; congruence|congruence].
      * rewrite <- Ei. apply (lexDefault_eof_at_end l l' V H').
  - assert (Ll : last_typ (items l) = Some itemStream) by tauto.
    unfold lexStream in H'.
    destruct (Index (drop (pos l) (input l)) rightStream <? 0).
    + unfold errorf in H'. inversion H'; subst. unfold Inv3. simp_lexer.
      split.
      * apply stream_seq_snoc; [exact S| | |].
        -- discriminate.
        -- intros _. right. reflexivity.
        -- congruence.
      * intros body t Eq T _. apply app_inj_tail in Eq.
        destruct Eq as (_ & <-). discriminate T.
    + inversion H'; subst. unfold Inv3. simp_lexer.
      split.
      * apply stream_seq_snoc.
        -- apply stream_seq_snoc; [exact S| | |].
           ++ intros _. exact Ll.
           ++ intros _. left. reflexivity.
           ++ congruence.
        -- discriminate.
        -- rewrite last_typ_snoc. discriminate.
        -- intros _. reflexivity.
      * rewrite last_typ_snoc. cbn [Item.typ].
        split; [split; intros Q; congruence|congruence].
  - assert (Nl : last_typ (items l) <> Some itemStream).
    { intros Q. apply Ls in Q. discriminate. }
    unfold lexLeftDict in H'. inversion H'; subst. unfold Inv3. simp_lexer.
    split; [apply stream_seq_other; try assumption; discriminate|].
    rewrite last_typ_snoc. cbn [Item.typ].
    split; [split; intros Q; congruence|congruence].
  - assert (Nl : last_typ (items l) <> Some itemStream).
    { intros Q. apply Ls in Q. discriminate. }
    unfold lexRightDict in H'. inversion H'; subst. unfold Inv3. simp_lexer.
    split; [apply stream_seq_other; try assumption; discriminate|].
    rewrite last_typ_snoc. cbn [Item.typ].
    split; [split; intros Q; congruence|congruence].
Qed.

Lemma run_from_inv3 n fuel : forall st l,
  Inv inp st l -> Inv2 E st l -> Inv3 st l ->
  Inv3 (match run_from E n fuel st l with
        | Done _ => None
        | Busy f _ => Some f
        end)
       (lexer_of (run_from E n fuel st l)).
Proof.
  induction n as [|n IH]; intros st l V V2 V3; destruct st as [f|];
    cbn [run_from lexer_of]; try assumption.
  destruct (call E fuel f l) as [[st' l']|] eqn:C; [|assumption].
  apply IH; [eapply call_inv|eapply call_inv2|eapply call_inv3]; eauto.
Qed.

End Invariant3.

Lemma outcome_inv3 (E : GoLib) (inp : list byte) (n fuel : nat) :
  len inp <= max_int ->
  Inv3 (match run E n fuel (lex inp) with
        | Done _ => None
        | Busy f _ => Some f
        end)
       (lexer_of (run E n fuel (lex inp))).
Proof.
  intros M. apply (run_from_inv3 E inp).
  - apply lex_inv. exact M.
  - apply lex_inv2.
  - unfold Inv3, lex. cbn [items].
    split; [constructor|]. split; [split; discriminate|discriminate].
Qed.

(** X26: a stream body item is never the first item sent and always
    comes right after a stream keyword item; the item sent after a stream
    keyword item is a stream body or the error item; and the item sent
    after a stream body is the end-stream item.  A stream body is never
    the last item sent. *)
Theorem X26_stream_items
  (E : GoLib) (inp : list byte) (n fuel : nat) :
  len inp <= max_int ->
  let its := scan E n fuel inp in
  (forall p a b q, its = p ++ a :: b :: q ->
     (Item.typ b = itemStreamBody -> Item.typ a = itemStream) /\
     (Item.typ a = itemStream ->
      Item.typ b = itemStreamBody \/ Item.typ b = itemError) /\
     (Item.typ a = itemStreamBody -> Item.typ b = itemEndStream)) /\
  (forall a q, its = a :: q -> Item.typ a <> itemStreamBody) /\
  (forall p a, its = p ++ [a] -> Item.typ a <> itemStreamBody).
Proof.
  intros M its.
  pose proof (outcome_inv3 E inp n fuel M) as V3.
  destruct V3 as (S & L). fold (scan E n fuel inp) in S. fold its in S.
  split; [apply stream_seq_adjacent; exact S|].
  split; [apply stream_seq_first; exact S|].
  intros p a Eq X.
  pose proof (outcome_inv2 E inp n fuel M) as V.
  unfold its, scan in Eq.
  destruct (run E n fuel (lex inp)) as [l|f l]; cbn [lexer_of] in *.
  - destruct V as (_ & V2).
    destruct (Inv2_items_plain E None l V2) as (body & t & Ei & T & _).
    rewrite Ei in Eq. apply app_inj_tail in Eq. destruct Eq as (_ & ->).
    rewrite X in T. discriminate.
  - destruct L as (_ & Lb). rewrite Eq, last_typ_snoc in Lb. congruence.
Qed.

(** X26, witness: the scan of "stream endstream". *)
Lemma X26_stream_items_witness :
  let its := scan plainLib 9 20 (bytes "stream endstream") in
  (forall p a b q, its = p ++ a :: b :: q ->
     (Item.typ b = itemStreamBody -> Item.typ a = itemStream) /\
     (Item.typ a = itemStream ->
      Item.typ b = itemStreamBody \/ Item.typ b = itemError) /\
     (Item.typ a = itemStreamBody -> Item.typ b = itemEndStream)) /\
  (forall a q, its = a :: q -> Item.typ a <> itemStreamBody) /\
  (forall p a, its = p ++ [a] -> Item.typ a <> itemStreamBody).
Proof.
  apply (X26_stream_items plainLib (bytes "stream endstream") 9 20).
  vm_compute. discriminate.
Defined.

Lemma filter_non_error its :
  Forall (fun it => Item.typ it <> itemError) its -> filter non_error its = its.
Proof.
  induction 1 as [|it r H _ IH]; [reflexivity|].
  cbn [filter]. unfold non_error at 1.
  destruct (itemType_eqb (Item.typ it) itemError) eqn:Q.
  - apply itemType_eqb_eq in Q. contradiction.
  - cbn [negb]. rewrite IH. reflexivity.
Qed.

(** X27: a scan that ends with an end-of-input item of empty value has
    read the whole input, and the values of the items sent, put together
    in the order sent, are the input: nothing is lost and nothing is
    added. *)
Theorem X27_round_trip
  (E : GoLib) (inp : list byte) (n fuel : nat) (l : lexer)
  (body : list Item.item) (t : Item.item) :
  len inp <= max_int ->
  run E n fuel (lex inp) = Done l ->
  items l = body ++ [t] -> Item.typ t = itemEOF -> Item.val t = [] ->
  pos l = len inp /\
  List.concat (map Item.val (items l)) = inp.
Proof.
  intros M R Eq T V.
  pose proof (outcome_inv2 E inp n fuel M) as V12.
  pose proof (outcome_inv3 E inp n fuel M) as V3.
  rewrite R in V12, V3. cbn [lexer_of] in V3.
  destruct V12 as ((Ei & W & (_ & C) & Pre & _) & V2).
  destruct V3 as (_ & End). unfold input_is in Ei. cbn [pre] in Pre.
  pose proof (End body t Eq T V) as Pl. rewrite Ei in Pl, C.
  split; [exact Pl|].
  destruct (Inv2_items_plain E None l V2) as (body' & t' & Eq' & _ & Pb).
  rewrite Eq in Eq'. apply app_inj_tail in Eq'. destruct Eq' as (<- & <-).
  assert (Ne : Forall (fun it => Item.typ it <> itemError) (items l)).
  { rewrite Eq. apply Forall_app. split.
    - eapply Forall_impl; [|exact Pb]. intros it H X. unfold plain in H.
      rewrite X in H. discriminate.
    - constructor; [|constructor]. rewrite T. discriminate. }
  rewrite (filter_non_error _ Ne) in C. rewrite C.
  rewrite <- Pre, Pl.
  - unfold len. rewrite Nat2Z.id. apply firstn_all.
  - intros it Hin. rewrite Forall_forall in Ne. apply Ne. exact Hin.
Qed.

(** X27, witness: the scan of "[/A 1]". *)
Lemma X27_round_trip_witness :
  let inp := bytes "[/A 1]" in
  let l := lexer_of (run plainLib 20 9 (lex inp)) in
  pos l = len inp /\
  List.concat (map Item.val (items l)) = inp.
Proof.
  intros inp l.
  apply (X27_round_trip plainLib inp 20 9 l
           (removelast (items l)) (Item.mk itemEOF 6 [])).
  - vm_compute. discriminate.
  - vm_compute. reflexivity.
  - vm_compute. reflexivity.
  - reflexivity.
  - reflexivity.
Defined.

(** X28: [isDelim] is true of exactly the ten delimiter characters
    [[ ] { } ( ) < > / %], and so of no rune outside ASCII and not of
    [eof]. *)
Theorem X28_isDelim (r : Z) :
  isDelim r = true <->
  In r [0x5B; 0x5D; 0x7B; 0x7D; 0x28; 0x29; 0x3C; 0x3E; 0x2F; 0x25].
Proof.
  rewrite isDelim_spec. unfold delim_rune. cbn [In].
  rewrite !orb_true_iff, !Z.eqb_eq.
  split; intros H; decompose [or] H; subst; auto 12; contradiction.
Qed.

